(** * X86 preserve-none: infection pass and function-list registry

    A shallow embedding of [llvm/lib/Target/X86/X86PreserveNoneFuncList.cpp]:

    - [Infection]: [X86PreserveNoneInfectionPass::runOnModule], the worklist
      traversal that spreads the ["no_callee_saved_registers"] attribute from
      preserve-none functions to their callers;
    - [Registry]: [X86PreserveNonePass::WritePreserveNoneList] and
      [X86PreserveNonePass::LoadPreserveNoneList], the append-only file of
      function names and the in-process [FuncNameSet].

    The calls to [outs()] only print and are left out. The code is taken
    as a build with assertions runs it: [cast<>] checks what it casts, a
    failed check ends the run, and the statistics count. *)

From Stdlib Require Import ZArith String Ascii.
From stdpp Require Import gmap strings list.


(** ** Outcomes of the embedded code *)

(** What stops a run of the embedded code before it returns. *)
Inductive Error : Type :=
| NullMachineFunction  (* [MF->getFunction()] on a null [MachineFunction *] *)
| CastFailure          (* [cast<CallBase>(U)] on a user that is no call *)
| DanglingFunction     (* a reference to a function that is not in the module *)
| OutOfFuel.           (* the iteration budget of the embedding ran out *)

Inductive Result (A : Type) : Type :=
| Ok (a : A)
| Err (e : Error).
Arguments Ok {A} a.
Arguments Err {A} e.

Definition bind {A B : Type} (r : Result A) (k : A → Result B) : Result B :=
  match r with
  | Ok a => k a
  | Err e => Err e
  end.

Notation "x ←r e ; k" := (bind e (fun x => k))
  (at level 100, e at next level, k at level 200, right associativity).

Global Instance Error_eq_dec : EqDecision Error.
Proof. solve_decision. Defined.

(** ** The intermediate representation, as far as the passes look at it *)

Module IR.

(** Modelled from the spec: the classes [llvm::User], [llvm::CallBase],
    [llvm::Function] and [llvm::Module] are declared under llvm/IR, which is
    not among the sources. A use of a function is either "a use of a
    Function as a direct call target", with "exactly one enclosing (caller)
    Function", or an "indirect/non-call use of a function value".

    A user of a function value, as [F.users()] yields them, one per use.
    [isa<CallBase>(U)] holds of the first constructor only. A call
    instruction uses the function either as its called operand or as one of
    its other operands (an argument); [isCallee] tells which. [Caller] is
    [CB->getCaller()], the index in the module of the function that contains
    the instruction. *)
Inductive User : Type :=
| CallBase (Caller : nat) (isCallee : bool)
| OtherUser.

(** The part of [llvm::Function] the pass reads and writes. *)
Record Function : Type := mkFunction {
  getName : string;
  isWeakForLinker : bool;
  hasLocalLinkage : bool;
  isDeclaration : bool;
  (* hasFnAttribute("no_callee_saved_registers") *)
  attr_no_callee_saved_registers : bool;
  (* getCallingConv() == CallingConv::PreserveNone *)
  cc_PreserveNone : bool;
  (* hasFnAttribute("preserve_none") *)
  attr_preserve_none : bool;
  users : list User
}.

(** A module is the list of its functions; a function is referred to by its
    position. *)
Abbreviation Module_ := (list Function).

(** Modelled from the spec: [MachineModuleInfo] is declared in
    llvm/CodeGen/MachineModuleInfo.h, which is not among the sources; it is
    the collaborator that "supplies the function/module objects to operate
    on". Here it tells which functions have a [MachineFunction]. *)
Abbreviation MachineModuleInfo := (nat → bool).

(** A [MachineFunction *]: [Some f] points to the machine function of the
    function at index [f], [None] is the null pointer. *)
Abbreviation MFPtr := (option nat).

Definition getMachineFunction (MMI : MachineModuleInfo) (f : nat) : MFPtr :=
  if MMI f then Some f else None.

Definition isa_CallBase (U : User) : bool :=
  match U with
  | CallBase _ _ => true
  | OtherUser => false
  end.

(** [F.addFnAttr("no_callee_saved_registers", "1")] *)
Definition addFnAttr (F : Function) : Function :=
  {| getName := getName F;
     isWeakForLinker := isWeakForLinker F;
     hasLocalLinkage := hasLocalLinkage F;
     isDeclaration := isDeclaration F;
     attr_no_callee_saved_registers := true;
     cc_PreserveNone := cc_PreserveNone F;
     attr_preserve_none := attr_preserve_none F;
     users := users F |}.

End IR.

(** ** The infection pass *)

Module Infection.
Import IR.

(** The two lambdas of [runOnModule]. *)
Definition isInfectableFunc (F : Function) : bool :=
  negb (isWeakForLinker F) && hasLocalLinkage F && negb (isDeclaration F).

Definition hasPreserveNoneAttr (F : Function) : bool :=
  attr_no_callee_saved_registers F || cc_PreserveNone F || attr_preserve_none F.

(** Modelled from the spec: the macro [STATISTIC] is defined in
    llvm/ADT/Statistic.h, which is not among the sources; it belongs to the
    "general statistics/logging subsystems". The statistic
    [NumPreserveNoneInfected] is a 64-bit unsigned counter that lives as long
    as the process does; [++] adds one to it. *)
Definition stat_incr (n : Z) : Z := ((n + 1) mod 2 ^ 64)%Z.

(** The state the worklist loop works on. [Processed] is not in the source:
    it logs, newest first, every [VisitedMF.insert(MF)] the loop executes. *)
Record State : Type := mkState {
  Mod : Module_;
  VisitedMF : gset nat;
  MFWorkList : list MFPtr;
  NumPreserveNoneInfected : Z;
  Processed : list nat
}.

(** [VisitedMF.count(MF)]; the null pointer is never inserted. *)
Definition count (Visited : gset nat) (MF : MFPtr) : bool :=
  match MF with
  | Some f => bool_decide (f ∈ Visited)
  | None => false
  end.

(** Lines 136-148: the functions that have a machine function and carry the
    attribute, in module order. *)
Fixpoint seeds (MMI : MachineModuleInfo) (i : nat) (M : Module_) : list MFPtr :=
  match M with
  | [] => []
  | F :: M' =>
      match getMachineFunction MMI i with
      | None => seeds MMI (S i) M'
      | Some f =>
          if hasPreserveNoneAttr F then Some f :: seeds MMI (S i) M'
          else seeds MMI (S i) M'
      end
  end.

(** Lines 166-175: the loop over [F.users()]. *)
Fixpoint pushCallers (MMI : MachineModuleInfo) (M : Module_)
    (Visited : gset nat) (us : list User) (WL : list MFPtr)
    : Result (list MFPtr) :=
  match us with
  | [] => Ok WL
  | OtherUser :: _ => Err CastFailure
  | CallBase Caller _ :: us' =>
      match M !! Caller with
      | None => Err DanglingFunction
      | Some CallerF =>
          let CallerMF := getMachineFunction MMI Caller in
          if negb (count Visited CallerMF) && negb (hasPreserveNoneAttr CallerF)
          then pushCallers MMI M Visited us' (WL ++ [CallerMF])
          else pushCallers MMI M Visited us' WL
      end
  end.

(** Lines 159-162: the test that ends the iteration for a function that may
    not be infected. *)
Definition rejected (F : Function) : bool :=
  negb (hasPreserveNoneAttr F) &&
  (negb (isInfectableFunc F) ||
   existsb (fun U => negb (isa_CallBase U)) (users F)).

(** Lines 177-182. *)
Definition infect (f : nat) (F : Function) (st : State) : State :=
  if negb (hasPreserveNoneAttr F) then
    {| Mod := <[f := addFnAttr F]> (Mod st);
       VisitedMF := VisitedMF st;
       MFWorkList := MFWorkList st;
       NumPreserveNoneInfected := stat_incr (NumPreserveNoneInfected st);
       Processed := Processed st |}
  else st.

(** One iteration of the [while] loop of lines 150-183 on a non-empty
    worklist whose front is [MF]. *)
Definition iteration (MMI : MachineModuleInfo) (MF : MFPtr) (rest : list MFPtr)
    (st : State) : Result State :=
  match MF with
  | None => Err NullMachineFunction
  | Some f =>
      match Mod st !! f with
      | None => Err DanglingFunction
      | Some F =>
          if count (VisitedMF st) MF then
            Ok {| Mod := Mod st; VisitedMF := VisitedMF st; MFWorkList := rest;
                  NumPreserveNoneInfected := NumPreserveNoneInfected st;
                  Processed := Processed st |}
          else
            let Visited := {[f]} ∪ VisitedMF st in
            if rejected F then
              Ok {| Mod := Mod st; VisitedMF := Visited; MFWorkList := rest;
                    NumPreserveNoneInfected := NumPreserveNoneInfected st;
                    Processed := f :: Processed st |}
            else
              WL ←r pushCallers MMI (Mod st) Visited (users F) rest;
              Ok (infect f F
                    {| Mod := Mod st; VisitedMF := Visited; MFWorkList := WL;
                       NumPreserveNoneInfected := NumPreserveNoneInfected st;
                       Processed := f :: Processed st |})
      end
  end.

(** The [while (!MFWorkList.empty())] loop, with an iteration budget. *)
Fixpoint worklist_loop (MMI : MachineModuleInfo) (fuel : nat) (st : State)
    : Result State :=
  match fuel with
  | 0 => Err OutOfFuel
  | S fuel' =>
      match MFWorkList st with
      | [] => Ok st
      | MF :: rest =>
          st' ←r iteration MMI MF rest st;
          worklist_loop MMI fuel' st'
      end
  end.

(** The number of uses in the module. *)
Definition num_uses (M : Module_) : nat := sum_list (map (fun F => length (users F)) M).

(** A budget no run exhausts (see [worklist_loop_fuel]). *)
Definition budget (M : Module_) : nat := S (length M + num_uses M).

Definition initial (MMI : MachineModuleInfo) (Num : Z) (M : Module_) : State :=
  {| Mod := M; VisitedMF := ∅; MFWorkList := seeds MMI 0 M;
     NumPreserveNoneInfected := Num; Processed := [] |}.

(** [X86PreserveNoneInfectionPass::runOnModule]. [PreserveNoneInfect] is the
    command-line switch, [Num] the value of the statistic when the pass is
    entered. The module and the statistic are left unchanged when the pass
    returns early. *)
Definition runOnModule (PreserveNoneInfect : bool) (MMI : MachineModuleInfo)
    (Num : Z) (M : Module_) : Result (bool * State) :=
  let st0 := {| Mod := M; VisitedMF := ∅; MFWorkList := [];
                NumPreserveNoneInfected := Num; Processed := [] |} in
  if negb PreserveNoneInfect then Ok (false, st0)
  else if bool_decide (M = []) then Ok (false, st0)
  else
    st ←r worklist_loop MMI (budget M) (initial MMI Num M);
    Ok (bool_decide (NumPreserveNoneInfected st > 0)%Z, st).

(** The names of the functions that carry the attribute, in module order. *)
Definition attributed (M : Module_) : list string :=
  map getName (filter (fun F => hasPreserveNoneAttr F = true) M).

End Infection.

(** ** The registry of function names *)

Module Registry.
Import IR.
Local Open Scope string_scope.
Local Open Scope list_scope.

(** Modelled from the spec: the file system calls ([llvm::sys::fs::exists],
    [is_regular_file], [openFileForReadWrite], [raw_fd_ostream],
    [MemoryBuffer::getFile], [fcntl]) are not among the sources. The
    registry file is "a line-oriented text file"; the target path, "if it
    exists", is "a regular file" or "not (a directory, ... device, etc.)".

    What a path names: a regular file with its content, or something else
    (a directory, a device, ...). A path that names nothing is absent from
    the file system. *)
Inductive File : Type :=
| Regular (content : string)
| NonRegular.

Abbreviation FileSystem := (gmap string File).

(** [llvm::sys::fs::exists] and [llvm::sys::fs::is_regular_file]. *)
Definition exists_ (fs : FileSystem) (path : string) : bool :=
  bool_decide (is_Some (fs !! path)).

Definition is_regular_file (fs : FileSystem) (path : string) : bool :=
  match fs !! path with
  | Some (Regular _) => true
  | _ => false
  end.

(** The fields of [X86PreserveNonePass]. The constructor leaves [FD]
    uninitialised, so a new pass object has any value there. *)
Record Pass : Type := mkPass {
  FD : Z;
  FuncNameSet : gset string
}.

(** What the operating system answers to the calls of one invocation of
    [WritePreserveNoneList] or [LoadPreserveNoneList]: whether the
    [raw_fd_ostream] on the path opens, the descriptor that
    [openFileForReadWrite] returns (none when it fails), whether taking and
    releasing the lock succeed, whether the write that flushes the line to
    the file succeeds, and whether [MemoryBuffer::getFile] can read the
    file. *)
Record Env : Type := mkEnv {
  stream_opens : bool;
  opened_fd : option Z;
  lock_ok : bool;
  write_ok : bool;
  unlock_ok : bool;
  read_ok : bool
}.

(** The line terminator the writer appends. *)
Definition newline : string := String "010"%char EmptyString.

(** Modelled from the spec: the writer "opens (creating if absent) the
    target file for append". Opening with [OF_Append] creates the file when
    the path names nothing and leaves an existing file as it is. *)
Definition open_append (fs : FileSystem) (path : string) : FileSystem :=
  match fs !! path with
  | None => <[path := Regular ""]> fs
  | Some _ => fs
  end.

(** Modelled from the spec: "the Registry File, once appended to, is never
    rewritten or truncated by this core — only appended". Writing [data]
    through a descriptor opened with [OF_Append] puts it at the end. *)
Definition append (fs : FileSystem) (path : string) (data : string) : FileSystem :=
  match fs !! path with
  | Some (Regular content) => <[path := Regular (content +:+ data)]> fs
  | _ => fs
  end.

(** How a call of the pass ends: it returns [Changed], or the process ends
    in [report_fatal_error]. *)
Inductive Exit : Type :=
| Returns (Changed : bool)
| FatalError.

(** What a call of the writer does to the lock on the target and to its
    content, in the order in which it happens: the lock is taken
    ([fcntl] with [F_WRLCK] succeeds), the lock is released ([fcntl] with
    [F_UNLCK] succeeds), bytes are written to the file. *)
Inductive Event : Type :=
| Locked
| Unlocked
| Written (data : string).

(** The stream [fds] of line 234. [raw_fd_ostream] is declared in
    llvm/Support/raw_ostream.h, which is not among the sources; this is the
    stream as the library has it. The stream on a file is buffered, with a
    buffer of the block size of the file, which the line is taken to fit
    into: [fds << ...] leaves the line in the buffer, and the line is
    written to the descriptor when the stream is destroyed, that is when
    the call leaves the scope of [fds], after the value it returns is
    fixed. A stream destroyed after a failed write calls
    [report_fatal_error].

    [flush_at_exit] is the destructor of [fds] with [buffer] in the buffer,
    run when the call is about to return [Changed]. *)
Definition flush_at_exit (path : string) (env : Env) (buffer : string)
    (Changed : bool) (this : Pass) (fs : FileSystem) (log : list Event)
    : Exit * Pass * FileSystem * list Event :=
  if write_ok env
  then (Returns Changed, this, append fs path buffer, log ++ [Written buffer])
  else (FatalError, this, fs, log).

(** [X86PreserveNonePass::WritePreserveNoneList], with the log of what the
    call does to the lock and to the file. [F] is [MF.getFunction()], whose
    name is [MF.getName()]. *)
Definition WritePreserveNoneList_logged (WritePreserveNoneFilePath : string)
    (env : Env) (F : Function) (this : Pass) (fs : FileSystem)
    : Exit * Pass * FileSystem * list Event :=
  if isDeclaration F then (Returns false, this, fs, [])
  else if bool_decide (getName F ∈ FuncNameSet this)
  then (Returns false, this, fs, [])
  else
    let this := {| FD := FD this;
                   FuncNameSet := {[getName F]} ∪ FuncNameSet this |} in
    if bool_decide (FD this = 0%Z) &&
       exists_ fs WritePreserveNoneFilePath &&
       negb (is_regular_file fs WritePreserveNoneFilePath)
    then (Returns false, this, fs, [])
    else
      (* raw_fd_ostream OS(WritePreserveNoneFilePath, EC, ... | OF_Append) *)
      if negb (stream_opens env) then (Returns false, this, fs, [])
      else
        let fs := open_append fs WritePreserveNoneFilePath in
        (* openFileForReadWrite(WritePreserveNoneFilePath, this->FD, ...) *)
        match opened_fd env with
        | None =>
            (Returns false,
             {| FD := (-1)%Z; FuncNameSet := FuncNameSet this |}, fs, [])
        | Some fd =>
            let this := {| FD := fd; FuncNameSet := FuncNameSet this |} in
            let fs := open_append fs WritePreserveNoneFilePath in
            (* fcntl(this->FD, F_SETLKW, &lock), lock.l_type = F_WRLCK *)
            if negb (lock_ok env) then (Returns false, this, fs, [])
            else
              (* llvm::raw_fd_ostream fds(this->FD, true);
                 fds << MF.getName() << "\n" *)
              let buffer := getName F +:+ newline in
              (* fcntl(this->FD, F_SETLKW, &lock), lock.l_type = F_UNLCK *)
              if negb (unlock_ok env)
              then flush_at_exit WritePreserveNoneFilePath env buffer false
                     this fs [Locked]
              else flush_at_exit WritePreserveNoneFilePath env buffer true
                     this fs [Locked; Unlocked]
        end.

(** The call without the log: how it ends, the pass object and the file
    system it leaves. *)
Definition WritePreserveNoneList (WritePreserveNoneFilePath : string)
    (env : Env) (F : Function) (this : Pass) (fs : FileSystem)
    : Exit * Pass * FileSystem :=
  (WritePreserveNoneList_logged WritePreserveNoneFilePath env F this fs).1.

(** Modelled from the spec: [StringRef::split] and [StringRef::trim] are
    declared in llvm/ADT/StringRef.h, which is not among the sources. The
    loader "splits the file content into lines" at every newline, keeping
    empty pieces, and "trims surrounding whitespace from each", the
    whitespace being space, tab, newline, vertical tab, form feed and
    carriage return. *)
Definition is_newline (c : ascii) : bool := Ascii.eqb c "010"%char.

Fixpoint split (s : string) : list string :=
  match s with
  | EmptyString => [EmptyString]
  | String c s' =>
      if is_newline c then EmptyString :: split s'
      else
        match split s' with
        | line :: lines => String c line :: lines
        | [] => [String c EmptyString]
        end
  end.

Definition is_space (c : ascii) : bool :=
  Ascii.eqb c " "%char || Ascii.eqb c "009"%char || Ascii.eqb c "010"%char ||
  Ascii.eqb c "011"%char || Ascii.eqb c "012"%char || Ascii.eqb c "013"%char.

Fixpoint ltrim (s : string) : string :=
  match s with
  | EmptyString => EmptyString
  | String c s' => if is_space c then ltrim s' else s
  end.

Fixpoint rtrim (s : string) : string :=
  match s with
  | EmptyString => EmptyString
  | String c s' =>
      match rtrim s' with
      | EmptyString => if is_space c then EmptyString else String c EmptyString
      | t => String c t
      end
  end.

Definition trim (s : string) : string := rtrim (ltrim s).

(** Lines 268-272: the loop over the lines of the file. *)
Fixpoint insert_lines (lines : list string) (Names : gset string) : gset string :=
  match lines with
  | [] => Names
  | line :: lines' =>
      let FuncName := trim line in
      if negb (bool_decide (FuncName = "")) &&
         negb (bool_decide (FuncName ∈ Names))
      then insert_lines lines' ({[FuncName]} ∪ Names)
      else insert_lines lines' Names
  end.

(** [X86PreserveNonePass::LoadPreserveNoneList]. The function comes back
    with the attribute added when its name is in the set. *)
Definition LoadPreserveNoneList (LoadPreserveNoneFilePath : string)
    (env : Env) (F : Function) (this : Pass) (fs : FileSystem)
    : bool * Pass * Function :=
  if isDeclaration F then (false, this, F)
  else
    let check (this : Pass) :=
      if bool_decide (getName F ∈ FuncNameSet this)
      then (true, this, addFnAttr F)
      else (false, this, F) in
    if bool_decide (FuncNameSet this = ∅) then
      match fs !! LoadPreserveNoneFilePath with
      | Some (Regular content) =>
          if read_ok env then
            check {| FD := FD this;
                     FuncNameSet := insert_lines (split content) (FuncNameSet this) |}
          else (false, this, F)
      | _ => (false, this, F)
      end
    else check this.

(** [X86PreserveNonePass::runOnMachineFunction]. *)
Definition runOnMachineFunction (WritePreserveNoneFilePath
    LoadPreserveNoneFilePath : string) (env : Env) (F : Function)
    (this : Pass) (fs : FileSystem) : Exit * Pass * FileSystem * Function :=
  if negb (bool_decide (WritePreserveNoneFilePath = "-")) then
    let '(e, this, fs) :=
      WritePreserveNoneList WritePreserveNoneFilePath env F this fs in
    (e, this, fs, F)
  else if negb (bool_decide (LoadPreserveNoneFilePath = "-")) then
    let '(Changed, this, F) :=
      LoadPreserveNoneList LoadPreserveNoneFilePath env F this fs in
    (Returns Changed, this, fs, F)
  else (Returns false, this, fs, F).

(** The writer called once per entry of [calls], in turn, each call with its
    own answers of the operating system, for as long as the process lives:
    there is no call after one that ends in [FatalError]. How the calls that
    are made end comes back in order. *)
Fixpoint write_seq (path : string) (calls : list (Env * Function))
    (this : Pass) (fs : FileSystem) : list Exit * Pass * FileSystem :=
  match calls with
  | [] => ([], this, fs)
  | (env, F) :: calls' =>
      let '(e, this, fs) := WritePreserveNoneList path env F this fs in
      match e with
      | FatalError => ([FatalError], this, fs)
      | Returns _ =>
          let '(es, this, fs) := write_seq path calls' this fs in
          (e :: es, this, fs)
      end
  end.

End Registry.

(** * Notions the statements are phrased in *)

Import IR Infection.

(** The three ways an iteration can end well: the function at the front was
    visited before, or it is visited now and rejected, or it is visited now
    and expanded. *)
Inductive iteration_spec (MMI : MachineModuleInfo) (rest : list MFPtr)
    (st : State) (f : nat) (F : Function) : State → Prop :=
| it_skip :
    f ∈ VisitedMF st →
    iteration_spec MMI rest st f F
      {| Mod := Mod st; VisitedMF := VisitedMF st; MFWorkList := rest;
         NumPreserveNoneInfected := NumPreserveNoneInfected st;
         Processed := Processed st |}
| it_reject :
    f ∉ VisitedMF st →
    rejected F = true →
    iteration_spec MMI rest st f F
      {| Mod := Mod st; VisitedMF := {[f]} ∪ VisitedMF st; MFWorkList := rest;
         NumPreserveNoneInfected := NumPreserveNoneInfected st;
         Processed := f :: Processed st |}
| it_expand WL :
    f ∉ VisitedMF st →
    rejected F = false →
    pushCallers MMI (Mod st) ({[f]} ∪ VisitedMF st) (users F) rest = Ok WL →
    iteration_spec MMI rest st f F
      (infect f F
         {| Mod := Mod st; VisitedMF := {[f]} ∪ VisitedMF st; MFWorkList := WL;
            NumPreserveNoneInfected := NumPreserveNoneInfected st;
            Processed := f :: Processed st |}).


(** The function at index [c] of [M] carries the attribute. *)
Definition attr_now (M : Module_) (c : nat) : Prop :=
  ∃ C, M !! c = Some C ∧ hasPreserveNoneAttr C = true.

(** What holds of the state of the loop between two iterations, [M0] being
    the module the pass was entered with. *)
Record Inv (MMI : MachineModuleInfo) (M0 : Module_) (st : State) : Prop := {
  (* only the attribute of visited, accepted functions changes *)
  inv_mod : ∀ f F, M0 !! f = Some F →
    Mod st !! f = Some F ∨
    (Mod st !! f = Some (addFnAttr F) ∧ hasPreserveNoneAttr F = false ∧
     rejected F = false ∧ f ∈ VisitedMF st);
  inv_length : length (Mod st) = length M0;
  (* the log has the visited functions, each once *)
  inv_processed_nodup : NoDup (Processed st);
  inv_processed : ∀ f, f ∈ Processed st ↔ f ∈ VisitedMF st;
  inv_visited : ∀ f, f ∈ VisitedMF st → f < length M0;
  (* an accepted function carries the attribute, and its callers are
     visited, attributed or waiting *)
  inv_expanded : ∀ g G,
    g ∈ VisitedMF st → M0 !! g = Some G → rejected G = false →
    attr_now (Mod st) g ∧
    ∀ c b, CallBase c b ∈ users G →
      c ∈ VisitedMF st ∨ attr_now (Mod st) c ∨
      getMachineFunction MMI c ∈ MFWorkList st;
  (* a seed is visited or waiting *)
  inv_seeds : ∀ f F,
    M0 !! f = Some F → hasPreserveNoneAttr F = true → MMI f = true →
    f ∈ VisitedMF st ∨ Some f ∈ MFWorkList st
}.

(** The states the loop goes through: [reaches MMI st st'] when some number
    of iterations lead from [st] to [st']. *)
Inductive reaches (MMI : MachineModuleInfo) : State → State → Prop :=
| reaches_refl st : reaches MMI st st
| reaches_step st MF rest st1 st2 :
    MFWorkList st = MF :: rest →
    iteration MMI MF rest st = Ok st1 →
    reaches MMI st1 st2 →
    reaches MMI st st2.

(** The uses of the functions from index [i] on that are not visited yet. *)
Fixpoint pending_from (i : nat) (V : gset nat) (M : Module_) : nat :=
  match M with
  | [] => 0
  | F :: M' =>
      (if bool_decide (i ∈ V) then 0 else length (users F)) +
      pending_from (S i) V M'
  end.

(** What bounds the iterations still to come: the entries of the worklist
    and the uses of the functions not visited yet. *)
Definition measure (st : State) : nat :=
  length (MFWorkList st) + pending_from 0 (VisitedMF st) (Mod st).

(** Every use of [F] is as the called operand of a call instruction. *)
Definition is_direct_call (U : User) : bool :=
  match U with
  | CallBase _ isCallee => isCallee
  | OtherUser => false
  end.

Definition allUsesAreDirectCalls (F : Function) : bool :=
  forallb is_direct_call (users F).

(** A function whose calling convention the pass may change. *)
Definition eligible (F : Function) : bool :=
  isInfectableFunc F && allUsesAreDirectCalls F.

(** The function at index [f] calls the one at index [g]. *)
Definition calls (M : Module_) (f g : nat) : Prop :=
  ∃ G, M !! g = Some G ∧ CallBase f true ∈ users G.

(** The functions reached in the caller direction from a function that
    carries the attribute, through eligible functions, where a function
    that carries the attribute counts only if [MMI] has a machine function
    for it. *)
Inductive chain (MMI : MachineModuleInfo) (M : Module_) : nat → Prop :=
| chain_seed f F :
    M !! f = Some F → hasPreserveNoneAttr F = true → MMI f = true →
    chain MMI M f
| chain_caller f F g :
    chain MMI M g → calls M f g →
    M !! f = Some F → eligible F = true →
    (hasPreserveNoneAttr F = true → MMI f = true) →
    chain MMI M f.

(** The functions the traversal can come to: the seeds, and the functions
    that contain a call instruction using a function it can come to. *)
Inductive Reach (MMI : MachineModuleInfo) (M : Module_) : nat → Prop :=
| Reach_seed f F :
    M !! f = Some F → hasPreserveNoneAttr F = true → MMI f = true →
    Reach MMI M f
| Reach_caller g G c b :
    Reach MMI M g → M !! g = Some G → CallBase c b ∈ users G →
    Reach MMI M c.

(** Every caller of a function the traversal can come to has a machine
    function. *)
Definition callers_have_MF (MMI : MachineModuleInfo) (M : Module_) : Prop :=
  ∀ g G c b,
    Reach MMI M g → M !! g = Some G → CallBase c b ∈ users G → MMI c = true.

(** Every entry of the worklist points to the machine function of a
    function the traversal can come to. *)
Definition worklist_ok (MMI : MachineModuleInfo) (M0 : Module_) (st : State) : Prop :=
  ∀ p, p ∈ MFWorkList st → ∃ f, p = Some f ∧ Reach MMI M0 f.

(** The visited functions and the functions waiting in the worklist have a
    machine function. *)
Definition have_MF (MMI : MachineModuleInfo) (st : State) : Prop :=
  (∀ f, f ∈ VisitedMF st → MMI f = true) ∧
  (∀ f, Some f ∈ MFWorkList st → MMI f = true).

(** A module on which the pass runs into no fault: every call instruction
    that uses a function lies in a function of the module that has a machine
    function, and a function that carries the attribute is used by call
    instructions only. *)
Definition caller_ok (MMI : MachineModuleInfo) (M : Module_) (U : User) : bool :=
  match U with
  | CallBase c _ => bool_decide (c < length M) && MMI c
  | OtherUser => true
  end.

Definition well_formed (MMI : MachineModuleInfo) (M : Module_) : bool :=
  forallb (fun F =>
             forallb (caller_ok MMI M) (users F) &&
             (negb (hasPreserveNoneAttr F) || forallb isa_CallBase (users F)))
          M.

(** ** Notions for the registry *)

Import Registry.

Section registry_notions.
Local Open Scope string_scope.
Local Open Scope list_scope.

Fixpoint string_forall (P : ascii → bool) (s : string) : bool :=
  match s with
  | EmptyString => true
  | String c s' => P c && string_forall P s'
  end.

Definition first_char (s : string) : option ascii :=
  match s with
  | EmptyString => None
  | String c _ => Some c
  end.

Fixpoint last_char (s : string) : option ascii :=
  match s with
  | EmptyString => None
  | String c s' =>
      match last_char s' with
      | None => Some c
      | Some d => Some d
      end
  end.

Definition is_space_char (o : option ascii) : bool :=
  match o with
  | Some c => is_space c
  | None => false
  end.

(** The lines put together again, with a newline between two of them. *)
Fixpoint join (lines : list string) : string :=
  match lines with
  | [] => ""
  | line :: lines' =>
      match lines' with
      | [] => line
      | _ :: _ => line +:+ newline +:+ join lines'
      end
  end.

(** The set of the distinct trimmed non-empty lines of a file content. *)
Definition names_of (content : string) : gset string :=
  list_to_set (filter (fun n => n ≠ "") (trim <$> split content)).

(** A name that a line of the registry can hold as it is: not empty, without
    a newline, and with no whitespace at either end. *)
Definition clean_name (n : string) : bool :=
  negb (bool_decide (n = "")) &&
  string_forall (fun c => negb (is_newline c)) n &&
  negb (is_space_char (first_char n)) &&
  negb (is_space_char (last_char n)).

(** A name that a line of the registry can carry to the loader: without a
    newline, and not empty once trimmed. *)
Definition line_name (n : string) : bool :=
  string_forall (fun c => negb (is_newline c)) n &&
  negb (bool_decide (trim n = "")).

(** The operating system lets every call of the writer and the loader
    succeed. *)
Definition env_ok (env : Env) : bool :=
  stream_opens env && bool_decide (is_Some (opened_fd env)) &&
  lock_ok env && write_ok env && unlock_ok env && read_ok env.

(** The content of the regular file at [path], empty when there is none. *)
Definition content_of (fs : FileSystem) (path : string) : string :=
  match fs !! path with
  | Some (Regular content) => content
  | _ => ""
  end.


(** A call of the loader that does not look at the file: what it returns
    depends neither on the file system nor on what the operating system
    answers. *)
Definition no_read (path : string) (F : Function) (this : Pass) : Prop :=
  ∀ env env' fs fs',
    LoadPreserveNoneList path env F this fs =
    LoadPreserveNoneList path env' F this fs'.

(** What the writer keeps between its calls when every call succeeds: the
    file, if there is one, is regular, is empty or ends with a newline, and
    its lines give the names of [FuncNameSet], trimmed. *)
Definition in_step (path : string) (this : Pass) (fs : FileSystem) : Prop :=
  match fs !! path with
  | None => FuncNameSet this = ∅
  | Some (Regular content) =>
      (content = "" ∨ ∃ d, content = d +:+ newline) ∧
      names_of content = set_map trim (FuncNameSet this)
  | Some NonRegular => False
  end.

(** Whether every write of a log is made while the lock is held; [held]
    tells whether it is held before the first event. *)
Fixpoint written_under_lock (held : bool) (log : list Event) : bool :=
  match log with
  | [] => true
  | Locked :: log' => written_under_lock true log'
  | Unlocked :: log' => written_under_lock false log'
  | Written _ :: log' => held && written_under_lock held log'
  end.

(** The bytes a log writes, in order. *)
Fixpoint written (log : list Event) : string :=
  match log with
  | [] => ""
  | Written data :: log' => data +:+ written log'
  | _ :: log' => written log'
  end.

(** A new pass object whose [FD] happens to be 0, a system where every call
    succeeds, one where only the write of the line fails, and an empty file
    system. *)
Definition new_pass : Pass := {| FD := 0; FuncNameSet := ∅ |}.

Definition all_ok : Env :=
  {| stream_opens := true; opened_fd := Some 3%Z; lock_ok := true;
     write_ok := true; unlock_ok := true; read_ok := true |}.

Definition write_fails : Env :=
  {| stream_opens := true; opened_fd := Some 3%Z; lock_ok := true;
     write_ok := false; unlock_ok := true; read_ok := true |}.

Definition open_fails : Env :=
  {| stream_opens := false; opened_fd := None; lock_ok := true;
     write_ok := true; unlock_ok := true; read_ok := true |}.

Definition no_files : FileSystem := ∅.

End registry_notions.

(** * Concrete modules *)

Section examples.
Local Open Scope string_scope.
Local Open Scope list_scope.

(** A definition with local linkage that does not carry the attribute. *)
Definition local_def (name : string) (us : list User) : Function :=
  {| getName := name; isWeakForLinker := false; hasLocalLinkage := true;
     isDeclaration := false; attr_no_callee_saved_registers := false;
     cc_PreserveNone := false; attr_preserve_none := false; users := us |}.

(** A definition with the preserve-none calling convention. *)
Definition preserve_none_def (name : string) (us : list User) : Function :=
  {| getName := name; isWeakForLinker := false; hasLocalLinkage := true;
     isDeclaration := false; attr_no_callee_saved_registers := false;
     cc_PreserveNone := true; attr_preserve_none := false; users := us |}.

(** A definition with weak external linkage. *)
Definition weak_def (name : string) (us : list User) : Function :=
  {| getName := name; isWeakForLinker := true; hasLocalLinkage := false;
     isDeclaration := false; attr_no_callee_saved_registers := false;
     cc_PreserveNone := false; attr_preserve_none := false; users := us |}.

(** A definition with external linkage. *)
Definition external_def (name : string) (us : list User) : Function :=
  {| getName := name; isWeakForLinker := false; hasLocalLinkage := false;
     isDeclaration := false; attr_no_callee_saved_registers := false;
     cc_PreserveNone := false; attr_preserve_none := false; users := us |}.

(** A declaration with the preserve-none calling convention. *)
Definition preserve_none_decl (name : string) (us : list User) : Function :=
  {| getName := name; isWeakForLinker := false; hasLocalLinkage := false;
     isDeclaration := true; attr_no_callee_saved_registers := false;
     cc_PreserveNone := true; attr_preserve_none := false; users := us |}.

(** Every function has a machine function. *)
Definition all_MF : MachineModuleInfo := fun _ => true.

(** [A] (index 0) calls [B] (1), [B] calls [C] (2), [C] is preserve-none. *)
Definition chain_ABC : Module_ :=
  [ local_def "A" [];
    local_def "B" [CallBase 0 true];
    preserve_none_def "C" [CallBase 1 true] ].

(** The same with [B] of weak external linkage. *)
Definition chain_weak_B : Module_ :=
  [ local_def "A" [];
    weak_def "B" [CallBase 0 true];
    preserve_none_def "C" [CallBase 1 true] ].

(** [P] (0) and [Q] (1) call each other, [P] and the preserve-none [S] (2)
    call themselves, and both [P] and [Q] call [S]. *)
Definition cyclic : Module_ :=
  [ local_def "P" [CallBase 1 true; CallBase 0 true];
    local_def "Q" [CallBase 0 true];
    preserve_none_def "S" [CallBase 0 true; CallBase 1 true; CallBase 2 true] ].

(** [B] (index 0) calls [C] (1), a preserve-none function that is only
    declared in this module and so has no machine function. *)
Definition declared_seed : Module_ :=
  [ local_def "B" [];
    preserve_none_decl "C" [CallBase 0 true] ].

Definition MF_of_definitions (M : Module_) : MachineModuleInfo :=
  fun f => match M !! f with
           | Some F => negb (isDeclaration F)
           | None => false
           end.

(** [G] (index 0) calls the preserve-none [S] (1); only [S] has a machine
    function. *)
Definition caller_without_MF : Module_ :=
  [ external_def "G" [];
    preserve_none_def "S" [CallBase 0 true] ].

Definition only_MF (f : nat) : MachineModuleInfo := fun g => bool_decide (g = f).

(** [F] (index 1) calls the preserve-none [S] (0); the only use of [F] is
    in [G] (2), which passes it as an argument of a call. *)
Definition address_passed : Module_ :=
  [ preserve_none_def "S" [CallBase 1 true];
    local_def "F" [CallBase 2 false];
    external_def "G" [] ].

(** The address of the preserve-none [S] (index 0) is stored somewhere, and
    [F] (index 1) calls it. *)
Definition address_taken_seed : Module_ :=
  [ preserve_none_def "S" [CallBase 1 true; OtherUser];
    local_def "F" [] ].

End examples.

(** * Further notions for the infection pass *)

(** [F'] is [F] but for the attribute the pass adds, which it may have
    gained and has not lost. *)
Definition same_but_attribute (F F' : Function) : Prop :=
  getName F' = getName F ∧
  isWeakForLinker F' = isWeakForLinker F ∧
  hasLocalLinkage F' = hasLocalLinkage F ∧
  isDeclaration F' = isDeclaration F ∧
  cc_PreserveNone F' = cc_PreserveNone F ∧
  attr_preserve_none F' = attr_preserve_none F ∧
  users F' = users F ∧
  (attr_no_callee_saved_registers F = true →
   attr_no_callee_saved_registers F' = true).

(** The functions the traversal comes to: the functions that carry the
    attribute and have a machine function, and the functions with a machine
    function that contain a call instruction using a function the traversal
    comes to and does not reject. *)
Inductive Spread (MMI : MachineModuleInfo) (M : Module_) : nat → Prop :=
| Spread_seed f F :
    M !! f = Some F → hasPreserveNoneAttr F = true → MMI f = true →
    Spread MMI M f
| Spread_caller g G c b :
    Spread MMI M g → M !! g = Some G → rejected G = false →
    CallBase c b ∈ users G → MMI c = true →
    Spread MMI M c.

(** What the traversal needs of the functions it comes to and does not
    reject: all their users are call instructions, in functions of the
    module that carry the attribute or have a machine function. *)
Definition accepted_ok (MMI : MachineModuleInfo) (M : Module_) : Prop :=
  ∀ f F, Spread MMI M f → M !! f = Some F → rejected F = false →
    forallb isa_CallBase (users F) = true ∧
    ∀ c b, CallBase c b ∈ users F →
      ∃ C, M !! c = Some C ∧ (hasPreserveNoneAttr C = true ∨ MMI c = true).

(** A run without a fault: it applies [cast<CallBase>] to no user that is
    not a call instruction, dereferences no null machine function, follows
    no reference to a function outside of the module, and returns. *)
Definition fault_free {A : Type} (r : Result A) : Prop := ∃ a, r = Ok a.

(** What holds between two iterations besides [Inv]: the visited and the
    waiting functions are functions the traversal comes to, and the users of
    a visited function that was not rejected are call instructions in
    functions of the module. *)
Record Inv_spread (MMI : MachineModuleInfo) (M0 : Module_) (st : State) : Prop := {
  spread_visited : ∀ f, f ∈ VisitedMF st → Spread MMI M0 f;
  spread_worklist : ∀ f, Some f ∈ MFWorkList st → Spread MMI M0 f;
  spread_calls : ∀ g G,
    g ∈ VisitedMF st → M0 !! g = Some G → rejected G = false →
    forallb isa_CallBase (users G) = true ∧
    ∀ c b, CallBase c b ∈ users G → c < length M0
}.

(** The number of functions that carry the attribute in [M] and did not in
    [M0]. *)
Fixpoint count_infected (M0 M : Module_) : nat :=
  match M0, M with
  | F :: M0', F' :: M' =>
      (if negb (hasPreserveNoneAttr F) && hasPreserveNoneAttr F' then 1 else 0) +
      count_infected M0' M'
  | _, _ => 0
  end.

(** The statistic counts the functions infected so far. *)
Definition counted (Num : Z) (M0 : Module_) (st : State) : Prop :=
  NumPreserveNoneInfected st =
  Nat.iter (count_infected M0 (Mod st)) stat_incr Num.

(** * Further notions for the registry *)

Section more_registry_notions.
Local Open Scope string_scope.
Local Open Scope list_scope.

(** The loader called once per entry of [calls], in turn, on one file
    system. The results and the functions as the calls leave them come back
    in order. *)
Fixpoint load_seq (path : string) (calls : list (Env * Function))
    (this : Pass) (fs : FileSystem) : list bool * Pass * list Function :=
  match calls with
  | [] => ([], this, [])
  | (env, F) :: calls' =>
      let '(b, this, F') := LoadPreserveNoneList path env F this fs in
      let '(bs, this, Fs') := load_seq path calls' this fs in
      (b :: bs, this, F' :: Fs')
  end.

(** [runOnMachineFunction] called once per entry of [calls], in turn, as
    the pass manager does for the functions of a module, for as long as the
    process lives. How the calls that are made end, and the functions as
    they leave them, come back in order. *)
Fixpoint runOnFunctions (WritePreserveNoneFilePath
    LoadPreserveNoneFilePath : string) (calls : list (Env * Function))
    (this : Pass) (fs : FileSystem)
    : list Exit * Pass * FileSystem * list Function :=
  match calls with
  | [] => ([], this, fs, [])
  | (env, F) :: calls' =>
      let '(e, this, fs, F') :=
        runOnMachineFunction WritePreserveNoneFilePath
          LoadPreserveNoneFilePath env F this fs in
      match e with
      | FatalError => ([FatalError], this, fs, [F'])
      | Returns _ =>
          let '(es, this, fs, Fs') :=
            runOnFunctions WritePreserveNoneFilePath LoadPreserveNoneFilePath
              calls' this fs in
          (e :: es, this, fs, F' :: Fs')
      end
  end.

(** The calls of a sequence that are made, given how the calls made end:
    all of them unless one has ended the process. *)
Definition calls_made {A : Type} (calls : list A) (exits : list Exit) : list A :=
  take (length exits) calls.

(** The calls of the writer that find a definition whose name is not in the
    dedup set yet, and the names these calls find, in order. *)
Fixpoint is_new (Names : gset string) (Fs : list Function) : list bool :=
  match Fs with
  | [] => []
  | F :: Fs' =>
      if isDeclaration F then false :: is_new Names Fs'
      else if bool_decide (getName F ∈ Names) then false :: is_new Names Fs'
      else true :: is_new ({[getName F]} ∪ Names) Fs'
  end.

Fixpoint new_names (Names : gset string) (Fs : list Function) : list string :=
  match Fs with
  | [] => []
  | F :: Fs' =>
      if isDeclaration F then new_names Names Fs'
      else if bool_decide (getName F ∈ Names) then new_names Names Fs'
      else getName F :: new_names ({[getName F]} ∪ Names) Fs'
  end.

(** The names, each followed by a newline. *)
Fixpoint lines_of (names : list string) : string :=
  match names with
  | [] => ""
  | n :: names' => n +:+ newline +:+ lines_of names'
  end.

(** The names of the definitions among [Fs]. *)
Definition definition_names (Fs : list Function) : gset string :=
  list_to_set (getName <$> filter (fun F => isDeclaration F = false) Fs).

(** The operating system lets a call of the writer go through. *)
Definition writes_ok (env : Env) : bool :=
  stream_opens env && bool_decide (is_Some (opened_fd env)) &&
  lock_ok env && write_ok env && unlock_ok env.

(** What the loader does to a function once the Name Set is [Names]. *)
Definition listed (Names : gset string) (F : Function) : bool :=
  negb (isDeclaration F) && bool_decide (getName F ∈ Names).

Definition attribute_listed (Names : gset string) (F : Function) : Function :=
  if listed Names F then addFnAttr F else F.

(** A definition that carries the attribute, and the same without it. *)
Definition with_attribute (name : string) : Function :=
  {| getName := name; isWeakForLinker := false; hasLocalLinkage := true;
     isDeclaration := false; attr_no_callee_saved_registers := true;
     cc_PreserveNone := false; attr_preserve_none := false; users := [] |}.

Definition declaration (name : string) : Function :=
  {| getName := name; isWeakForLinker := false; hasLocalLinkage := false;
     isDeclaration := true; attr_no_callee_saved_registers := false;
     cc_PreserveNone := false; attr_preserve_none := false; users := [] |}.

(** A system where the lock cannot be released. *)
Definition unlock_fails : Env :=
  {| stream_opens := true; opened_fd := Some 3%Z; lock_ok := true;
     write_ok := true; unlock_ok := false; read_ok := true |}.

(** The file system [fs'] is [fs] with, at most, the file at [path] created
    or grown at its end: what [path] named it still names, a regular file
    has its old content at the start of the new one, and every other path
    is as before. *)
Definition grown_at (path : string) (fs fs' : FileSystem) : Prop :=
  (∃ suffix, content_of fs' path = content_of fs path +:+ suffix) ∧
  (∀ file, fs !! path = Some file →
     ∃ file', fs' !! path = Some file' ∧ (file = NonRegular ↔ file' = NonRegular)) ∧
  (∀ p, p ≠ path → fs' !! p = fs !! p).

(** Whitespace that is not a newline: spaces, tabs, carriage returns, ... *)
Definition blank (s : string) : bool :=
  string_forall (fun c => is_space c && negb (is_newline c)) s.

(** A file content made of names, each with blanks before and after it and
    a newline at the end. *)
Fixpoint padded_lines (entries : list (string * string * string)) : string :=
  match entries with
  | [] => ""
  | (pre, name, post) :: entries' =>
      (pre +:+ name +:+ post) +:+ newline +:+ padded_lines entries'
  end.

Definition entry_ok (entry : string * string * string) : bool :=
  blank entry.1.1 && clean_name entry.1.2 && blank entry.2.

End more_registry_notions.
(** * Properties of the infection pass *)

(** ** Shape of one iteration *)

Lemma hasPreserveNoneAttr_addFnAttr F : hasPreserveNoneAttr (addFnAttr F) = true.
Proof. reflexivity. Qed.

Lemma isInfectableFunc_addFnAttr F :
  isInfectableFunc (addFnAttr F) = isInfectableFunc F.
Proof. reflexivity. Qed.

Lemma users_addFnAttr F : users (addFnAttr F) = users F.
Proof. reflexivity. Qed.

Lemma rejected_false F :
  rejected F = false →
  hasPreserveNoneAttr F = true ∨
  (isInfectableFunc F = true ∧ forallb isa_CallBase (users F) = true).
Proof.
  unfold rejected. destruct (hasPreserveNoneAttr F); [by left|]. simpl.
  intros [Hi He]%orb_false_elim. right. split.
  - by destruct (isInfectableFunc F).
  - clear Hi. induction (users F) as [|U us IH]; [done|]. simpl in *.
    apply orb_false_elim in He as [HU He]. rewrite IH by done.
    by destruct (isa_CallBase U).
Qed.

Lemma not_rejected F :
  hasPreserveNoneAttr F = true ∨
  (isInfectableFunc F = true ∧ forallb isa_CallBase (users F) = true) →
  rejected F = false.
Proof.
  unfold rejected. intros [->|[-> Hall]]; [done|].
  destruct (hasPreserveNoneAttr F); [done|]. simpl.
  induction (users F) as [|U us IH]; [done|]. simpl in *.
  apply andb_prop in Hall as [-> Hall]. simpl. by apply IH.
Qed.

Lemma iteration_Ok MMI MF rest st st' :
  iteration MMI MF rest st = Ok st' →
  ∃ f F, MF = Some f ∧ Mod st !! f = Some F ∧ iteration_spec MMI rest st f F st'.
Proof.
  unfold iteration. destruct MF as [f|]; [|done].
  destruct (Mod st !! f) as [F|] eqn:HF; [|done].
  intros H. exists f, F. split; [done|]. split; [done|].
  simpl in H. case_bool_decide.
  - injection H as <-. by constructor.
  - destruct (rejected F) eqn:Hrej.
    + injection H as <-. by constructor.
    + destruct (pushCallers _ _ _ _ _) as [WL|] eqn:Hpush; [|done].
      simpl in H. injection H as <-. by constructor.
Qed.

(** A property that every iteration keeps holds when the loop is left. *)
Lemma worklist_loop_invariant MMI (P : State → Prop) :
  (∀ MF rest st st',
      P st → MFWorkList st = MF :: rest →
      iteration MMI MF rest st = Ok st' → P st') →
  ∀ fuel st st',
    P st → worklist_loop MMI fuel st = Ok st' → P st' ∧ MFWorkList st' = [].
Proof.
  intros Hstep. induction fuel as [|fuel IH]; intros st st' HP Hrun; [done|].
  simpl in Hrun. destruct (MFWorkList st) as [|MF rest] eqn:HWL.
  - injection Hrun as <-. done.
  - destruct (iteration MMI MF rest st) as [st1|] eqn:Hit; [|done].
    simpl in Hrun. eapply IH; [|done]. eauto.
Qed.

(** ** The loop over the users *)

Lemma getMachineFunction_Some MMI c f :
  getMachineFunction MMI c = Some f → c = f ∧ MMI f = true.
Proof.
  unfold getMachineFunction. destruct (MMI c) eqn:H; [|done].
  intros [= <-]. done.
Qed.

Lemma count_true V MMI c :
  count V (getMachineFunction MMI c) = true → c ∈ V.
Proof.
  unfold getMachineFunction, count. destruct (MMI c); [|done].
  by intros ?%bool_decide_eq_true.
Qed.

Lemma pushCallers_Ok MMI M V us : ∀ WL WL',
  pushCallers MMI M V us WL = Ok WL' →
  (∃ extra, WL' = WL ++ extra ∧ length extra ≤ length us ∧
     ∀ p, p ∈ extra → ∃ c b, CallBase c b ∈ us ∧ p = getMachineFunction MMI c) ∧
  ∀ c b, CallBase c b ∈ us →
    c ∈ V ∨ attr_now M c ∨ getMachineFunction MMI c ∈ WL'.
Proof.
  induction us as [|U us IH]; intros WL WL' H; simpl in H.
  - injection H as <-. split.
    + exists []. rewrite app_nil_r. split; [done|]. split; [done|].
      intros p Hp. by apply elem_of_nil in Hp.
    + intros c b Hc. by apply elem_of_nil in Hc.
  - destruct U as [Caller isCallee|]; [|done].
    destruct (M !! Caller) as [CallerF|] eqn:HC; [|done].
    destruct (negb (count V (getMachineFunction MMI Caller)) &&
              negb (hasPreserveNoneAttr CallerF)) eqn:Hpush.
    + apply IH in H as [(extra & -> & Hlen & Hex) Hall]. split.
      * exists (getMachineFunction MMI Caller :: extra).
        rewrite <- app_assoc. split; [done|]. split; [simpl; lia|].
        intros p [->|Hp]%elem_of_cons.
        -- exists Caller, isCallee. split; [left|done].
        -- destruct (Hex p Hp) as (c & b & Hc & ->).
           exists c, b. split; [by right|done].
      * intros c b [[= -> ->]|Hc]%elem_of_cons; [|by eauto].
        right; right. set_solver.
    + apply IH in H as [(extra & -> & Hlen & Hex) Hall]. split.
      * exists extra. split; [done|]. split; [simpl; lia|].
        intros p Hp. destruct (Hex p Hp) as (c & b & Hc & ->).
        exists c, b. split; [by right|done].
      * intros c b [[= -> ->]|Hc]%elem_of_cons; [|by eauto].
        apply andb_false_iff in Hpush as [Hv|Ha].
        -- left. apply negb_false_iff in Hv. by eapply count_true.
        -- right; left. apply negb_false_iff in Ha. by exists CallerF.
Qed.

(** ** The invariant *)

Lemma attr_now_insert M f F c :
  M !! f = Some F → attr_now M c → attr_now (<[f := addFnAttr F]> M) c.
Proof.
  intros HF (C & HC & Hattr). destruct (decide (c = f)) as [->|Hne].
  - exists (addFnAttr F). split; [|done].
    apply list_lookup_insert_eq. by eapply lookup_lt_Some.
  - exists C. by rewrite list_lookup_insert_ne.
Qed.

Lemma Inv_initial MMI Num M : Inv MMI M (initial MMI Num M).
Proof.
  assert (Hseeds : ∀ M' i f F,
    M' !! f = Some F → hasPreserveNoneAttr F = true → MMI (i + f) = true →
    Some (i + f) ∈ seeds MMI i M').
  { induction M' as [|F' M' IH]; intros i f F Hf Ha Hm; [done|].
    destruct f as [|f]; simpl in *.
    - injection Hf as ->. unfold getMachineFunction.
      rewrite Nat.add_0_r in *. rewrite Hm, Ha. left.
    - specialize (IH (S i) f F Hf Ha).
      replace (S i + f) with (i + S f) in IH by lia. specialize (IH Hm).
      destruct (getMachineFunction MMI i); [|done].
      destruct (hasPreserveNoneAttr F'); [by right|done]. }
  split; simpl; try done.
  - by left.
  - constructor.
  - intros f. set_solver.
  - intros f F HF Ha Hm. right. by apply (Hseeds M 0 f F).
Qed.

Lemma Inv_lookup_unvisited MMI M0 st f F :
  Inv MMI M0 st → Mod st !! f = Some F → f ∉ VisitedMF st → M0 !! f = Some F.
Proof.
  intros HI HF Hnew. destruct (M0 !! f) as [F0|] eqn:HF0.
  - destruct (inv_mod _ _ _ HI f F0 HF0) as [H|(_ & _ & _ & H)]; [congruence|done].
  - apply lookup_ge_None in HF0. apply lookup_lt_Some in HF.
    rewrite (inv_length _ _ _ HI) in HF. lia.
Qed.

Lemma Inv_iteration MMI M0 MF rest st st' :
  Inv MMI M0 st → MFWorkList st = MF :: rest →
  iteration MMI MF rest st = Ok st' → Inv MMI M0 st'.
Proof.
  intros HI HWL (f & F & -> & HF & Hspec)%iteration_Ok.
  pose proof HI as [Hmod Hlen Hnd Hproc Hlt Hexp Hseed].
  assert (Hflt : f < length M0).
  { rewrite <- Hlen. by eapply lookup_lt_Some. }
  assert (Hwait : ∀ c (V : gset nat), f ∈ V →
    getMachineFunction MMI c ∈ Some f :: rest →
    c ∈ V ∨ getMachineFunction MMI c ∈ rest).
  { intros c V HV [Heq|Hin]%elem_of_cons; [|by right].
    apply getMachineFunction_Some in Heq as [-> _]. by left. }
  destruct Hspec as [Hvis|Hnew Hrej|WL Hnew Hrej Hpush].
  - (* visited before *)
    split; simpl; try done.
    + intros g G Hg HG HrG. destruct (Hexp g G Hg HG HrG) as [Ha Hc].
      split; [done|]. intros c b Hcb.
      destruct (Hc c b Hcb) as [?|[?|Hw]]; [by left|by right; left|].
      rewrite HWL in Hw. destruct (Hwait c _ Hvis Hw); [by left|by right; right].
    + intros g G HG Ha Hm. destruct (Hseed g G HG Ha Hm) as [?|Hw]; [by left|].
      rewrite HWL in Hw. apply elem_of_cons in Hw as [[= ->]|?]; [by left|by right].
  - (* rejected *)
    pose proof (Inv_lookup_unvisited _ _ _ _ _ HI HF Hnew) as HF0.
    split; simpl; try done.
    + intros g G HG. destruct (Hmod g G HG) as [?|(? & ? & ? & ?)]; [by left|].
      right. repeat split; try done. set_solver.
    + constructor; [|done]. by rewrite Hproc.
    + intros g. rewrite elem_of_cons, Hproc. set_solver.
    + intros g [->%elem_of_singleton|Hg]%elem_of_union; [done|by apply Hlt].
    + intros g G [->%elem_of_singleton|Hg]%elem_of_union HG HrG; [congruence|].
      destruct (Hexp g G Hg HG HrG) as [Ha Hc].
      split; [done|]. intros c b Hcb.
      destruct (Hc c b Hcb) as [?|[?|Hw]]; [left; set_solver|by right; left|].
      rewrite HWL in Hw.
      destruct (Hwait c ({[f]} ∪ VisitedMF st) ltac:(set_solver) Hw);
        [by left|by right; right].
    + intros g G HG Ha Hm. destruct (Hseed g G HG Ha Hm) as [?|Hw]; [left; set_solver|].
      rewrite HWL in Hw. apply elem_of_cons in Hw as [[= ->]|?];
        [left; set_solver|by right].
  - (* expanded *)
    pose proof (Inv_lookup_unvisited _ _ _ _ _ HI HF Hnew) as HF0.
    apply pushCallers_Ok in Hpush as [(extra & -> & _ & _) Hcallers].
    assert (Hmono : ∀ c, attr_now (Mod st) c →
      attr_now (Mod (infect f F
        {| Mod := Mod st; VisitedMF := {[f]} ∪ VisitedMF st;
           MFWorkList := rest ++ extra;
           NumPreserveNoneInfected := NumPreserveNoneInfected st;
           Processed := f :: Processed st |})) c).
    { intros c Hc. unfold infect. destruct (hasPreserveNoneAttr F); simpl; [done|].
      by apply attr_now_insert. }
    assert (Hst' : ∀ X, VisitedMF (infect f F X) = VisitedMF X ∧
                        MFWorkList (infect f F X) = MFWorkList X ∧
                        Processed (infect f F X) = Processed X).
    { intros X. unfold infect. by destruct (negb _). }
    split.
    + intros g G HG. unfold infect.
      destruct (hasPreserveNoneAttr F) eqn:HaF; simpl.
      * destruct (Hmod g G HG) as [?|(? & ? & ? & ?)]; [by left|].
        right. repeat split; try done. set_solver.
      * destruct (decide (g = f)) as [->|Hne].
        -- right. assert (G = F) as -> by congruence.
           split; [|split; [done|split; [done|set_solver]]].
           apply list_lookup_insert_eq. by eapply lookup_lt_Some.
        -- rewrite list_lookup_insert_ne by done.
           destruct (Hmod g G HG) as [?|(? & ? & ? & ?)]; [by left|].
           right. repeat split; try done. set_solver.
    + unfold infect. destruct (negb _); simpl; [|done].
      by rewrite length_insert.
    + destruct (Hst' {| Mod := Mod st; VisitedMF := {[f]} ∪ VisitedMF st;
           MFWorkList := rest ++ extra;
           NumPreserveNoneInfected := NumPreserveNoneInfected st;
           Processed := f :: Processed st |}) as (_ & _ & ->). simpl.
      constructor; [|done]. by rewrite Hproc.
    + intros g. edestruct Hst' as (-> & _ & ->). simpl.
      rewrite elem_of_cons, Hproc. set_solver.
    + intros g. edestruct Hst' as (-> & _ & _). simpl.
      intros [->%elem_of_singleton|Hg]%elem_of_union; [done|by apply Hlt].
    + intros g G Hg HG HrG. edestruct Hst' as (Hv & Hw & _).
      rewrite Hv in Hg. rewrite Hv, Hw. simpl in *. clear Hv Hw.
      apply elem_of_union in Hg as [->%elem_of_singleton|Hg].
      * assert (G = F) as -> by congruence. split.
        -- unfold infect. destruct (hasPreserveNoneAttr F) eqn:HaF; simpl.
           ++ by exists F.
           ++ exists (addFnAttr F). split; [|done].
              apply list_lookup_insert_eq. by eapply lookup_lt_Some.
        -- intros c b Hcb. destruct (Hcallers c b Hcb) as [?|[?|?]];
             [by left|right; left; by apply Hmono|by right; right].
      * destruct (Hexp g G Hg HG HrG) as [Ha Hc]. split; [by apply Hmono|].
        intros c b Hcb.
        destruct (Hc c b Hcb) as [?|[?|Hin]];
          [left; set_solver|right; left; by apply Hmono|].
        rewrite HWL in Hin.
        destruct (Hwait c ({[f]} ∪ VisitedMF st) ltac:(set_solver) Hin);
          [by left|right; right; set_solver].
    + intros g G HG Ha Hm. edestruct Hst' as (-> & -> & _). simpl.
      destruct (Hseed g G HG Ha Hm) as [?|Hin]; [left; set_solver|].
      rewrite HWL in Hin. apply elem_of_cons in Hin as [[= ->]|?];
        [left; set_solver|right; set_solver].
Qed.

Lemma Inv_worklist_loop MMI M0 fuel st st' :
  Inv MMI M0 st → worklist_loop MMI fuel st = Ok st' →
  Inv MMI M0 st' ∧ MFWorkList st' = [].
Proof.
  apply worklist_loop_invariant. intros MF rest s s'. apply Inv_iteration.
Qed.

Lemma Inv_reaches MMI M0 st st' :
  Inv MMI M0 st → reaches MMI st st' → Inv MMI M0 st'.
Proof.
  intros HI Hr. induction Hr as [|st MF rest st1 st2 HWL Hit _ IH]; [done|].
  apply IH. by eapply Inv_iteration.
Qed.

Lemma worklist_loop_reaches MMI fuel : ∀ st st',
  worklist_loop MMI fuel st = Ok st' → reaches MMI st st'.
Proof.
  induction fuel as [|fuel IH]; intros st st' Hrun; [done|].
  simpl in Hrun. destruct (MFWorkList st) as [|MF rest] eqn:HWL.
  - injection Hrun as <-. constructor.
  - destruct (iteration MMI MF rest st) as [st1|] eqn:Hit; [|done].
    eapply reaches_step; [done..|]. by apply IH.
Qed.

(** ** Termination *)

Lemma pending_from_le i V M : pending_from i V M ≤ num_uses M.
Proof.
  revert i. induction M as [|F M IH]; intros i; simpl; [done|].
  specialize (IH (S i)). unfold num_uses in *. simpl.
  case_bool_decide; lia.
Qed.

Lemma pending_from_visit M : ∀ i k V F,
  M !! k = Some F → i + k ∉ V →
  pending_from i ({[i + k]} ∪ V) M + length (users F) ≤ pending_from i V M.
Proof.
  assert (Hmono : ∀ M i (V V' : gset nat), V ⊆ V' →
            pending_from i V' M ≤ pending_from i V M).
  { clear. induction M as [|F M IH]; intros i V V' Hsub; simpl; [done|].
    specialize (IH (S i) V V' Hsub).
    repeat case_bool_decide; try lia. set_solver. }
  induction M as [|F' M IH]; intros i k V F Hk Hnew; [done|].
  destruct k as [|k]; simpl in *.
  - injection Hk as ->. rewrite Nat.add_0_r in *.
    rewrite bool_decide_eq_true_2 by set_solver.
    rewrite bool_decide_eq_false_2 by done.
    pose proof (Hmono M (S i) V ({[i]} ∪ V) ltac:(set_solver)). lia.
  - replace (i + S k) with (S i + k) in * by lia.
    specialize (IH (S i) k V F Hk Hnew).
    repeat case_bool_decide; try lia. set_solver.
Qed.

Lemma pending_from_insert M : ∀ i V k F,
  M !! k = Some F →
  pending_from i V (<[k := addFnAttr F]> M) = pending_from i V M.
Proof.
  induction M as [|F' M IH]; intros i V k F Hk; [done|].
  destruct k as [|k]; simpl in *.
  - by injection Hk as ->.
  - by rewrite (IH (S i) V k F Hk).
Qed.

Lemma iteration_measure MMI MF rest st st' :
  MFWorkList st = MF :: rest →
  iteration MMI MF rest st = Ok st' → measure st' < measure st.
Proof.
  intros HWL (f & F & -> & HF & Hspec)%iteration_Ok.
  unfold measure. rewrite HWL.
  destruct Hspec as [Hvis|Hnew Hrej|WL Hnew Hrej Hpush]; simpl.
  - lia.
  - pose proof (pending_from_visit (Mod st) 0 f (VisitedMF st) F HF Hnew).
    simpl in *. lia.
  - apply pushCallers_Ok in Hpush as [(extra & -> & Hlen & _) _].
    pose proof (pending_from_visit (Mod st) 0 f (VisitedMF st) F HF Hnew) as Hp.
    simpl in Hp. unfold infect. destruct (negb _); simpl.
    + rewrite pending_from_insert by done. rewrite length_app. lia.
    + rewrite length_app. lia.
Qed.

Lemma worklist_loop_fuel MMI fuel : ∀ st,
  measure st < fuel → worklist_loop MMI fuel st ≠ Err OutOfFuel.
Proof.
  induction fuel as [|fuel IH]; intros st Hlt; [lia|].
  simpl. destruct (MFWorkList st) as [|MF rest] eqn:HWL; [done|].
  destruct (iteration MMI MF rest st) as [st1|e] eqn:Hit; simpl.
  - apply IH. pose proof (iteration_measure _ _ _ _ _ HWL Hit). lia.
  - unfold iteration in Hit. destruct MF as [f|]; [|by injection Hit as <-].
    destruct (Mod st !! f); [|by injection Hit as <-].
    simpl in Hit. case_bool_decide; [done|].
    destruct (rejected _); [done|].
    destruct (pushCallers _ _ _ _ _) as [|e'] eqn:Hpush; [done|].
    simpl in Hit. injection Hit as <-. clear -Hpush.
    revert Hpush. generalize ({[f]} ∪ VisitedMF st) as V.
    generalize (Mod st) as M. intros M V. revert rest.
    induction (users _) as [|U us IHus]; intros rest; simpl; [done|].
    destruct U as [c b|]; [|by intros [= <-]].
    destruct (M !! c); [|by intros [= <-]].
    destruct (_ && _); apply IHus.
Qed.

Lemma seeds_length MMI M : ∀ i, length (seeds MMI i M) ≤ length M.
Proof.
  induction M as [|F M IH]; intros i; simpl; [done|].
  specialize (IH (S i)). destruct (getMachineFunction MMI i); [|lia].
  destruct (hasPreserveNoneAttr F); simpl; lia.
Qed.

Lemma measure_initial MMI Num M : measure (initial MMI Num M) < budget M.
Proof.
  unfold measure, budget. simpl.
  pose proof (seeds_length MMI M 0). pose proof (pending_from_le 0 ∅ M). lia.
Qed.

Lemma NoDup_bounded_length (l : list nat) n :
  NoDup l → (∀ x, x ∈ l → x < n) → length l ≤ n.
Proof.
  intros Hnd Hlt. rewrite <- (length_seq n 0).
  apply submseteq_length, NoDup_submseteq; [done|].
  intros x Hx. apply elem_of_seq. specialize (Hlt x Hx). lia.
Qed.

(** ** Runs without fault *)

Lemma well_formed_lookup MMI M f F :
  well_formed MMI M = true → M !! f = Some F →
  forallb (caller_ok MMI M) (users F) = true ∧
  (hasPreserveNoneAttr F = true → forallb isa_CallBase (users F) = true).
Proof.
  unfold well_formed. rewrite forallb_forall. intros Hwf HF.
  specialize (Hwf F). rewrite <- list_elem_of_In in Hwf.
  destruct (andb_prop _ _ (Hwf (list_elem_of_lookup_2 _ _ _ HF))) as [Hc Hs].
  split; [done|]. intros Ha. by rewrite Ha in Hs.
Qed.

Lemma well_formed_caller MMI M g G c b :
  well_formed MMI M = true → M !! g = Some G → CallBase c b ∈ users G →
  c < length M ∧ MMI c = true.
Proof.
  intros Hwf HG Hcb. destruct (well_formed_lookup _ _ _ _ Hwf HG) as [Hc _].
  rewrite forallb_forall in Hc. specialize (Hc (CallBase c b)).
  rewrite <- list_elem_of_In in Hc. specialize (Hc Hcb). simpl in Hc.
  apply andb_prop in Hc as [Hlt%bool_decide_eq_true Hm]. done.
Qed.

Lemma pushCallers_succeeds MMI M V us : ∀ WL,
  forallb isa_CallBase us = true →
  (∀ c b, CallBase c b ∈ us → c < length M) →
  ∃ WL', pushCallers MMI M V us WL = Ok WL'.
Proof.
  induction us as [|U us IH]; intros WL Hcalls Hlt; simpl; [by eauto|].
  simpl in Hcalls. apply andb_prop in Hcalls as [HU Hcalls].
  destruct U as [c b|]; [|done].
  destruct (lookup_lt_is_Some_2 M c) as [C ->]; [apply (Hlt c b); left|].
  destruct (_ && _); apply IH; try done; intros c' b' Hin; apply (Hlt c' b');
    by right.
Qed.

(** ** Completeness *)

Lemma eligible_not_rejected F : eligible F = true → rejected F = false.
Proof.
  unfold eligible, allUsesAreDirectCalls. intros [Hi Hd]%andb_prop.
  apply not_rejected. right. split; [done|].
  induction (users F) as [|U us IH]; [done|]. simpl in *.
  apply andb_prop in Hd as [HU Hd]. rewrite IH by done.
  by destruct U as [c []|].
Qed.

Lemma Inv_attr_now MMI M0 st f F :
  Inv MMI M0 st → M0 !! f = Some F → hasPreserveNoneAttr F = true →
  attr_now (Mod st) f.
Proof.
  intros HI HF Ha. destruct (inv_mod _ _ _ HI f F HF) as [H|(H & _)].
  - by exists F.
  - by exists (addFnAttr F).
Qed.

Lemma chain_visited MMI M0 st f :
  Inv MMI M0 st → MFWorkList st = [] → chain MMI M0 f →
  ∃ F, M0 !! f = Some F ∧ rejected F = false ∧ f ∈ VisitedMF st.
Proof.
  intros HI HWL Hch.
  assert (Hseed : ∀ f F, M0 !! f = Some F → hasPreserveNoneAttr F = true →
                         MMI f = true → f ∈ VisitedMF st).
  { intros g G HG Ha Hm. destruct (inv_seeds _ _ _ HI g G HG Ha Hm) as [?|Hin]; [done|].
    rewrite HWL in Hin. by apply elem_of_nil in Hin. }
  induction Hch as [f F HF Ha Hm|f F g _ IH (G & HG & Hcall) HF Hel Hm].
  - exists F. split; [done|]. split; [apply not_rejected; by left|]. by eapply Hseed.
  - destruct IH as (G' & HG' & HrG & Hg). assert (G' = G) as -> by congruence.
    exists F. split; [done|]. split; [by apply eligible_not_rejected|].
    destruct (inv_expanded _ _ _ HI g G Hg HG HrG) as [_ Hcallers].
    destruct (Hcallers f true Hcall) as [?|[(F' & HF' & Ha)|Hin]]; [done| |].
    + destruct (inv_mod _ _ _ HI f F HF) as [H|(_ & _ & _ & ?)]; [|done].
      assert (F' = F) as -> by congruence. eapply Hseed; [done..|by apply Hm].
    + rewrite HWL in Hin. by apply elem_of_nil in Hin.
Qed.

(** ** Null machine functions *)

Lemma pushCallers_Err MMI M V us : ∀ WL e,
  pushCallers MMI M V us WL = Err e → e = CastFailure ∨ e = DanglingFunction.
Proof.
  induction us as [|U us IH]; intros WL e; simpl; [done|].
  destruct U as [c b|]; [|intros [= <-]; by left].
  destruct (M !! c); [|intros [= <-]; by right].
  destruct (_ && _); apply IH.
Qed.

Lemma iteration_Err_null MMI MF rest st :
  iteration MMI MF rest st = Err NullMachineFunction → MF = None.
Proof.
  unfold iteration. destruct MF as [f|]; [|done].
  destruct (Mod st !! f) as [F|]; [|done]. simpl.
  case_bool_decide; [done|]. destruct (rejected F); [done|].
  destruct (pushCallers _ _ _ _ _) as [WL|e] eqn:Hpush; [done|].
  simpl. intros [= ->]. by apply pushCallers_Err in Hpush as [?|?].
Qed.

Lemma iteration_worklist MMI MF rest st st' :
  iteration MMI MF rest st = Ok st' → ∃ extra, MFWorkList st' = rest ++ extra.
Proof.
  intros (f & F & -> & HF & Hspec)%iteration_Ok.
  destruct Hspec as [Hvis|Hnew Hrej|WL Hnew Hrej Hpush]; simpl.
  - exists []. by rewrite app_nil_r.
  - exists []. by rewrite app_nil_r.
  - apply pushCallers_Ok in Hpush as [(extra & -> & _) _].
    exists extra. unfold infect. by destruct (negb _).
Qed.

Lemma null_never_done MMI fuel : ∀ st st',
  None ∈ MFWorkList st → worklist_loop MMI fuel st ≠ Ok st'.
Proof.
  induction fuel as [|fuel IH]; intros st st' Hnull; [done|].
  simpl. destruct (MFWorkList st) as [|MF rest] eqn:HWL.
  { by apply elem_of_nil in Hnull. }
  destruct MF as [f|]; [|done].
  apply elem_of_cons in Hnull as [?|Hnull]; [done|].
  destruct (iteration MMI (Some f) rest st) as [st1|e] eqn:Hit; [|done].
  simpl. apply IH. apply iteration_worklist in Hit as [extra ->]. set_solver.
Qed.

Lemma worklist_ok_iteration MMI M0 MF rest st st' :
  callers_have_MF MMI M0 → Inv MMI M0 st → worklist_ok MMI M0 st →
  MFWorkList st = MF :: rest → iteration MMI MF rest st = Ok st' →
  worklist_ok MMI M0 st'.
Proof.
  intros Hsafe HI Hok HWL (f & F & -> & HF & Hspec)%iteration_Ok.
  assert (Hrest : ∀ p, p ∈ rest → ∃ g, p = Some g ∧ Reach MMI M0 g).
  { intros p Hp. apply Hok. rewrite HWL. by right. }
  destruct Hspec as [Hvis|Hnew Hrej|WL Hnew Hrej Hpush]; [done..|].
  apply pushCallers_Ok in Hpush as [(extra & -> & _ & Hextra) _].
  intros p Hp.
  assert (Hp' : p ∈ rest ++ extra).
  { revert Hp. unfold infect. by destruct (negb _). }
  apply elem_of_app in Hp' as [?|Hp']; [by apply Hrest|].
  destruct (Hextra p Hp') as (c & b & Hcb & ->).
  destruct (Hok (Some f)) as (f' & [= <-] & Hreach); [rewrite HWL; left|].
  pose proof (Inv_lookup_unvisited _ _ _ _ _ HI HF Hnew) as HF0.
  exists c. split.
  - unfold getMachineFunction. by rewrite (Hsafe f F c b Hreach HF0 Hcb).
  - by eapply Reach_caller.
Qed.

Lemma worklist_loop_no_null MMI M0 fuel : ∀ st,
  callers_have_MF MMI M0 → Inv MMI M0 st → worklist_ok MMI M0 st →
  worklist_loop MMI fuel st ≠ Err NullMachineFunction.
Proof.
  induction fuel as [|fuel IH]; intros st Hsafe HI Hok; [done|].
  simpl. destruct (MFWorkList st) as [|MF rest] eqn:HWL; [done|].
  destruct (iteration MMI MF rest st) as [st1|e] eqn:Hit; simpl.
  - apply IH; [done|by eapply Inv_iteration|by eapply worklist_ok_iteration].
  - intros [= ->]. apply iteration_Err_null in Hit as ->.
    destruct (Hok None) as (f & ? & _); [rewrite HWL; left|done].
Qed.

Lemma worklist_ok_initial MMI Num M : worklist_ok MMI M (initial MMI Num M).
Proof.
  assert (H : ∀ M' i p, p ∈ seeds MMI i M' →
    ∃ k F, p = Some (i + k) ∧ M' !! k = Some F ∧
           hasPreserveNoneAttr F = true ∧ MMI (i + k) = true).
  { induction M' as [|F M' IH]; intros i p Hp; simpl in Hp.
    { by apply elem_of_nil in Hp. }
    assert (Htl : p ∈ seeds MMI (S i) M' → ∃ k F', p = Some (i + k) ∧
              (F :: M') !! k = Some F' ∧ hasPreserveNoneAttr F' = true ∧
              MMI (i + k) = true).
    { intros (k & F' & -> & ? & ? & ?)%IH. exists (S k), F'.
      replace (i + S k) with (S i + k) by lia. done. }
    destruct (getMachineFunction MMI i) as [f|] eqn:HMF; [|by apply Htl].
    apply getMachineFunction_Some in HMF as [<- Hm].
    destruct (hasPreserveNoneAttr F) eqn:Ha; [|by apply Htl].
    apply elem_of_cons in Hp as [->|Hp]; [|by apply Htl].
    exists 0, F. by rewrite Nat.add_0_r. }
  intros p Hp. apply H in Hp as (k & F & -> & HF & Ha & Hm).
  exists k. split; [done|]. by eapply Reach_seed.
Qed.

(** ** Soundness *)

(** A function the pass gives the attribute to is infectable, and all its
    users are call instructions. *)
Lemma infection_sound_users_are_calls PreserveNoneInfect MMI Num M b st f F F' :
  runOnModule PreserveNoneInfect MMI Num M = Ok (b, st) →
  M !! f = Some F → Mod st !! f = Some F' →
  hasPreserveNoneAttr F = false → hasPreserveNoneAttr F' = true →
  isInfectableFunc F = true ∧ forallb isa_CallBase (users F) = true.
Proof.
  intros Hrun HF HF' Ha Ha'. unfold runOnModule in Hrun.
  destruct PreserveNoneInfect; cbn [negb] in Hrun;
    [|injection Hrun as _ <-; simpl in HF'; congruence].
  case_bool_decide; [injection Hrun as _ <-; simpl in HF'; congruence|].
  destruct (worklist_loop MMI (budget M) (initial MMI Num M))
    as [st'|e] eqn:Hloop; [|done].
  cbn [bind] in Hrun. injection Hrun as _ <-.
  destruct (Inv_worklist_loop _ _ _ _ _ (Inv_initial MMI Num M) Hloop) as [HI _].
  destruct (inv_mod _ _ _ HI f F HF) as [Hsame|(_ & _ & Hrej & _)]; [congruence|].
  apply rejected_false in Hrej as [?|?]; [congruence|done].
Qed.


Lemma well_formed_callers_have_MF MMI M :
  well_formed MMI M = true → callers_have_MF MMI M.
Proof.
  intros Hwf g G c b _ HG Hcb. by destruct (well_formed_caller _ _ _ _ _ _ Hwf HG Hcb).
Qed.

Lemma Reach_lt MMI M f :
  well_formed MMI M = true → Reach MMI M f → f < length M.
Proof.
  intros Hwf Hr. destruct Hr as [f F HF _ _|g G c b _ HG Hcb].
  - by eapply lookup_lt_Some.
  - by destruct (well_formed_caller _ _ _ _ _ _ Hwf HG Hcb).
Qed.

Lemma iteration_succeeds MMI M0 MF rest st :
  well_formed MMI M0 = true → Inv MMI M0 st → worklist_ok MMI M0 st →
  MFWorkList st = MF :: rest → ∃ st', iteration MMI MF rest st = Ok st'.
Proof.
  intros Hwf HI Hok HWL.
  destruct (Hok MF) as (f & -> & Hreach); [rewrite HWL; left|].
  pose proof (Reach_lt _ _ _ Hwf Hreach) as Hlt.
  rewrite <- (inv_length _ _ _ HI) in Hlt.
  destruct (lookup_lt_is_Some_2 _ _ Hlt) as [F HF].
  unfold iteration. rewrite HF. simpl.
  case_bool_decide as Hvis; [by eauto|].
  destruct (rejected F) eqn:Hrej; [by eauto|].
  pose proof (Inv_lookup_unvisited _ _ _ _ _ HI HF Hvis) as HF0.
  destruct (well_formed_lookup _ _ _ _ Hwf HF0) as [_ Hseed].
  destruct (pushCallers_succeeds MMI (Mod st) ({[f]} ∪ VisitedMF st) (users F) rest)
    as [WL ->]; [| |by eauto].
  - apply rejected_false in Hrej as [Ha|[_ Hcalls]]; [by apply Hseed|done].
  - intros c b Hcb. rewrite (inv_length _ _ _ HI).
    by destruct (well_formed_caller _ _ _ _ _ _ Hwf HF0 Hcb).
Qed.

Lemma worklist_loop_succeeds MMI M0 fuel : ∀ st,
  well_formed MMI M0 = true → Inv MMI M0 st → worklist_ok MMI M0 st →
  measure st < fuel → ∃ st', worklist_loop MMI fuel st = Ok st'.
Proof.
  induction fuel as [|fuel IH]; intros st Hwf HI Hok Hfuel; [lia|].
  simpl. destruct (MFWorkList st) as [|MF rest] eqn:HWL; [by eauto|].
  destruct (iteration_succeeds _ _ _ _ _ Hwf HI Hok HWL) as [st1 Hit].
  rewrite Hit. simpl. apply IH; [done| | |].
  - by eapply Inv_iteration.
  - eapply worklist_ok_iteration; [|done..].
    by apply well_formed_callers_have_MF.
  - pose proof (iteration_measure _ _ _ _ _ HWL Hit). lia.
Qed.

(** ** A caller without machine function *)

Lemma seeds_MF MMI M : ∀ i p,
  p ∈ seeds MMI i M → ∃ g, p = Some g ∧ MMI g = true.
Proof.
  induction M as [|F M IH]; intros i p Hp; simpl in Hp.
  { by apply elem_of_nil in Hp. }
  destruct (getMachineFunction MMI i) as [g|] eqn:HMF; [|by eapply IH].
  apply getMachineFunction_Some in HMF as [<- Hm].
  destruct (hasPreserveNoneAttr F); [|by eapply IH].
  apply elem_of_cons in Hp as [->|Hp]; [by eauto|by eapply IH].
Qed.

Lemma have_MF_initial MMI Num M : have_MF MMI (initial MMI Num M).
Proof.
  split; simpl; [set_solver|]. intros f Hf.
  by destruct (seeds_MF _ _ _ _ Hf) as (g & [= <-] & Hm).
Qed.

Lemma have_MF_iteration MMI MF rest st st' :
  have_MF MMI st → MFWorkList st = MF :: rest →
  iteration MMI MF rest st = Ok st' → have_MF MMI st'.
Proof.
  intros [Hvis Hwl] HWL (f & F & -> & HF & Hspec)%iteration_Ok.
  assert (Hf : MMI f = true) by (apply Hwl; rewrite HWL; left).
  assert (Hrest : ∀ g, Some g ∈ rest → MMI g = true).
  { intros g Hg. apply Hwl. rewrite HWL. by right. }
  destruct Hspec as [Hin|Hnew Hrej|WL Hnew Hrej Hpush]; split; simpl; try done.
  - intros g [->%elem_of_singleton|Hg]%elem_of_union; [done|by apply Hvis].
  - unfold infect. destruct (negb _); simpl;
      intros g [->%elem_of_singleton|Hg]%elem_of_union; done || by apply Hvis.
  - apply pushCallers_Ok in Hpush as [(extra & -> & _ & Hextra) _].
    assert (Hall : ∀ g, Some g ∈ rest ++ extra → MMI g = true).
    { intros g [Hg|Hg]%elem_of_app; [by apply Hrest|].
      destruct (Hextra _ Hg) as (c & b & _ & Heq). symmetry in Heq.
      by apply getMachineFunction_Some in Heq as [_ ?]. }
    unfold infect. by destruct (negb _).
Qed.

Lemma have_MF_reaches MMI st st' :
  have_MF MMI st → reaches MMI st st' → have_MF MMI st'.
Proof.
  intros HM Hr. induction Hr as [|st MF rest st1 st2 HWL Hit _ IH]; [done|].
  apply IH. by eapply have_MF_iteration.
Qed.

(** A run that returns goes through every state it reaches with the fuel
    that is left. *)
Lemma worklist_loop_from_reached MMI st0 st :
  reaches MMI st0 st → ∀ fuel st',
  worklist_loop MMI fuel st0 = Ok st' →
  ∃ fuel', worklist_loop MMI fuel' st = Ok st'.
Proof.
  intros Hr. induction Hr as [|st MF rest st1 st2 HWL Hit _ IH];
    intros fuel st' Hrun; [by eauto|].
  destruct fuel as [|fuel]; [done|]. simpl in Hrun.
  rewrite HWL, Hit in Hrun. simpl in Hrun. by eapply IH.
Qed.

(** Once the loop has accepted a function that is used by a call in a
    function without machine function and without the attribute, the null
    pointer is in the worklist, and the run does not return. *)
Lemma caller_without_MF_faults MMI Num M st g G c b C :
  reaches MMI (initial MMI Num M) st →
  g ∈ VisitedMF st → M !! g = Some G → rejected G = false →
  CallBase c b ∈ users G → M !! c = Some C →
  hasPreserveNoneAttr C = false → MMI c = false →
  None ∈ MFWorkList st ∧
  ∀ fuel st', worklist_loop MMI fuel (initial MMI Num M) ≠ Ok st'.
Proof.
  intros Hr Hg HG Hrej Hcb HC Ha Hm.
  pose proof (Inv_reaches _ _ _ _ (Inv_initial MMI Num M) Hr) as HI.
  pose proof (have_MF_reaches _ _ _ (have_MF_initial MMI Num M) Hr) as [Hvis _].
  assert (Hnull : None ∈ MFWorkList st).
  { destruct (inv_expanded _ _ _ HI g G Hg HG Hrej) as [_ Hcallers].
    destruct (Hcallers c b Hcb) as [Hc|[(C' & HC' & Ha')|Hin]].
    - apply Hvis in Hc. congruence.
    - destruct (inv_mod _ _ _ HI c C HC) as [?|(_ & _ & _ & Hc)]; [congruence|].
      apply Hvis in Hc. congruence.
    - unfold getMachineFunction in Hin. by rewrite Hm in Hin. }
  split; [done|]. intros fuel st' Hrun.
  destruct (worklist_loop_from_reached _ _ _ Hr _ _ Hrun) as [fuel' Hrun'].
  by eapply null_never_done.
Qed.

(** * The claims about the infection pass *)

(** C1, where the code departs from it. [F] calls the preserve-none [S] and
    is infectable, and its only use is as an argument of a call in [G]:
    the pass gives [F] the attribute although not every use of [F] is as
    the callee of a call. *)
Theorem infection_of_function_passed_as_argument :
  ∃ st F,
    runOnModule true all_MF 0 address_passed = Ok (true, st) ∧
    attributed address_passed = ["S"]%string ∧
    attributed (Mod st) = ["S"; "F"]%string ∧
    address_passed !! 1 = Some F ∧
    hasPreserveNoneAttr F = false ∧
    isInfectableFunc F = true ∧
    allUsesAreDirectCalls F = false.
Proof.
  eexists _, _. split; [vm_compute; reflexivity|]. repeat split.
Qed.

(** C4, where the code departs from it. The pass run on [chain_ABC] with the
    statistic at 0 infects [A] and [B] and returns true; run again on the
    module it has left, it changes no attribute and infects nothing, and
    returns true again, the statistic still being 2. *)
Theorem second_run_reports_change :
  ∃ st1 st2,
    runOnModule true all_MF 0 chain_ABC = Ok (true, st1) ∧
    NumPreserveNoneInfected st1 = 2%Z ∧
    runOnModule true all_MF (NumPreserveNoneInfected st1) (Mod st1)
      = Ok (true, st2) ∧
    Mod st2 = Mod st1 ∧
    NumPreserveNoneInfected st2 = NumPreserveNoneInfected st1.
Proof.
  eexists _, _. split; [vm_compute; reflexivity|]. split; [reflexivity|].
  split; [vm_compute; reflexivity|]. split; reflexivity.
Qed.

(** C6, as amended. Completeness of infection: when the switch is on and
    [runOnModule] returns, every function reached in the caller direction
    from a function that carries the attribute, through eligible functions,
    carries the attribute, provided the functions of the chain that carry
    the attribute when the pass is entered have a machine function. With
    [A] calling [B], [B] calling [C], [C] the only seed and all three
    eligible and with a machine function, the attributed functions are
    [A], [B] and [C] in the end; with [B] weak external, only [C]. *)
Theorem infection_complete :
  (∀ MMI Num M b st,
     runOnModule true MMI Num M = Ok (b, st) →
     ∀ f, chain MMI M f → attr_now (Mod st) f) ∧
  (∃ b st, runOnModule true all_MF 0 chain_ABC = Ok (b, st) ∧
           attributed (Mod st) = ["A"; "B"; "C"]%string) ∧
  (∃ b st, runOnModule true all_MF 0 chain_weak_B = Ok (b, st) ∧
           attributed (Mod st) = ["C"]%string).
Proof.
  split; [|split].
  - intros MMI Num M b st Hrun f Hch.
    unfold runOnModule in Hrun. cbn [negb] in Hrun.
    case_bool_decide as HM.
    { subst M. destruct Hch as [? ? HF|? ? ? ? ? HF]; by rewrite lookup_nil in HF. }
    destruct (worklist_loop MMI (budget M) (initial MMI Num M))
      as [st'|e] eqn:Hloop; [|done].
    cbn [bind] in Hrun. injection Hrun as _ <-.
    destruct (Inv_worklist_loop _ _ _ _ _ (Inv_initial MMI Num M) Hloop) as [HI HWL].
    destruct (chain_visited _ _ _ _ HI HWL Hch) as (F & HF & Hrej & Hvis).
    by destruct (inv_expanded _ _ _ HI f F Hvis HF Hrej).
  - eexists _, _. split; [vm_compute; reflexivity|reflexivity].
  - eexists _, _. split; [vm_compute; reflexivity|reflexivity].
Qed.

Lemma infection_complete_witness :
  chain all_MF cyclic 1 ∧
  ∃ b st, runOnModule true all_MF 0 cyclic = Ok (b, st) ∧ attr_now (Mod st) 1.
Proof.
  assert (Hch : chain all_MF cyclic 1).
  { eapply (chain_caller _ _ 1 _ 2); [| |done..].
    - eapply chain_seed; reflexivity.
    - eexists. split; [reflexivity|]. apply list_elem_of_In. simpl. tauto. }
  split; [done|].
  destruct (runOnModule true all_MF 0 cyclic) as [[b st]|e] eqn:Hrun;
    [|by vm_compute in Hrun].
  exists b, st. split; [done|].
  destruct infection_complete as [Hgen _]. by eapply Hgen.
Defined.

(** C6, as stated, fails: [B] calls [C], [C] carries the attribute and [B]
    is eligible, but [C] is a declaration without a machine function, so
    that the pass does not start from it and leaves [B] as it is. And with
    the switch off the pass leaves every module as it is. *)
Lemma infection_complete_counterexample :
  chain all_MF declared_seed 0 ∧
  (∃ b st, runOnModule true (MF_of_definitions declared_seed) 0 declared_seed
             = Ok (b, st) ∧
           ¬ attr_now (Mod st) 0 ∧ attributed (Mod st) = ["C"]%string) ∧
  chain all_MF chain_ABC 0 ∧
  (∃ b st, runOnModule false all_MF 0 chain_ABC = Ok (b, st) ∧
           attributed (Mod st) = ["C"]%string).
Proof.
  assert (Hin : ∀ (U : User) us, U ∈ U :: us) by (intros; left).
  split; [|split; [|split]].
  - eapply (chain_caller _ _ 0 _ 1); [| |done..].
    + eapply chain_seed; reflexivity.
    + eexists. split; [reflexivity|]. apply Hin.
  - eexists _, _. split; [vm_compute; reflexivity|]. split; [|reflexivity].
    intros (F & [= <-] & Ha). done.
  - eapply (chain_caller _ _ 0 _ 1); [| |done..].
    + eapply (chain_caller _ _ 1 _ 2); [| |done..].
      * eapply chain_seed; reflexivity.
      * eexists. split; [reflexivity|]. apply Hin.
    + eexists. split; [reflexivity|]. apply Hin.
  - eexists _, _. split; reflexivity.
Qed.

(** C7. Termination of propagation: whatever the module and its call graph,
    the worklist loop never uses up [budget M] iterations, so that
    [runOnModule] always comes to an end; on a module on which no cast fails
    and no caller lacks a machine function it ends by returning, with the
    worklist empty; and in every state the loop goes through the log of
    processed functions has no function twice (and so no more entries than
    the module has functions) and lists exactly the visited functions. *)
Theorem propagation_terminates (MMI : MachineModuleInfo) (Num : Z) (M : Module_) :
  (∀ fuel, budget M ≤ fuel →
     worklist_loop MMI fuel (initial MMI Num M) ≠ Err OutOfFuel) ∧
  (∀ PreserveNoneInfect,
     runOnModule PreserveNoneInfect MMI Num M ≠ Err OutOfFuel) ∧
  (well_formed MMI M = true →
   ∀ PreserveNoneInfect, ∃ b st,
     runOnModule PreserveNoneInfect MMI Num M = Ok (b, st) ∧
     MFWorkList st = []) ∧
  (∀ st, reaches MMI (initial MMI Num M) st →
     NoDup (Processed st) ∧ length (Processed st) ≤ length M ∧
     ∀ f, f ∈ Processed st ↔ f ∈ VisitedMF st).
Proof.
  split; [|split; [|split]].
  - intros fuel Hfuel. apply worklist_loop_fuel.
    pose proof (measure_initial MMI Num M). lia.
  - intros flag. unfold runOnModule. destruct flag; [|done]. cbn [negb].
    case_bool_decide; [done|].
    destruct (worklist_loop MMI (budget M) (initial MMI Num M))
      as [st|e] eqn:Hrun; cbn [bind]; [done|].
    intros [= ->]. revert Hrun. apply worklist_loop_fuel. apply measure_initial.
  - intros Hwf flag. unfold runOnModule.
    destruct flag; [|by eexists _, _]. cbn [negb].
    case_bool_decide; [by eexists _, _|].
    destruct (worklist_loop_succeeds MMI M (budget M) (initial MMI Num M))
      as [st Hloop];
      [done|apply Inv_initial|apply worklist_ok_initial|apply measure_initial|].
    rewrite Hloop. cbn [bind]. eexists _, st. split; [done|].
    by destruct (Inv_worklist_loop _ _ _ _ _ (Inv_initial MMI Num M) Hloop).
  - intros st Hr.
    pose proof (Inv_reaches _ _ _ _ (Inv_initial MMI Num M) Hr) as HI.
    destruct HI as [_ _ Hnd Hproc Hlt _ _].
    split; [done|]. split; [|done].
    apply NoDup_bounded_length; [done|]. intros x Hx. by apply Hlt, Hproc.
Qed.

Lemma propagation_terminates_witness :
  worklist_loop all_MF (budget cyclic) (initial all_MF 0 cyclic) ≠ Err OutOfFuel ∧
  (∃ b st, runOnModule true all_MF 0 cyclic = Ok (b, st) ∧ MFWorkList st = []) ∧
  ∃ st, worklist_loop all_MF 100 (initial all_MF 0 cyclic) = Ok st ∧
        Processed st = [1; 0; 2] ∧ NoDup (Processed st) ∧
        length (Processed st) ≤ length cyclic.
Proof.
  destruct (propagation_terminates all_MF 0 cyclic) as (Hfuel & _ & Hret & Hlog).
  split; [apply Hfuel; lia|]. split; [by apply Hret|].
  destruct (worklist_loop all_MF 100 (initial all_MF 0 cyclic))
    as [st|e] eqn:Hrun; [|by vm_compute in Hrun].
  exists st. split; [done|].
  destruct (Hlog _ (worklist_loop_reaches _ _ _ _ Hrun)) as (Hnd & Hlen & _).
  split; [|done]. vm_compute in Hrun. by injection Hrun as <-.
Defined.

(** C9. The caller must have a machine function. The loop over the users
    pushes the null pointer for a caller that has no machine function and
    does not carry the attribute; an iteration that finds the null pointer
    at the front of the worklist dereferences it, and a loop with the null
    pointer in its worklist does not come to its end. So a run in which the
    loop accepts a function that is used by a call in such a caller does
    not return; and when every caller of a function the traversal can come
    to has a machine function, [runOnModule] never dereferences a null
    pointer. *)
Theorem caller_needs_machine_function :
  (∀ MMI M V c b CallerF WL,
     M !! c = Some CallerF → hasPreserveNoneAttr CallerF = false →
     MMI c = false →
     pushCallers MMI M V [CallBase c b] WL = Ok (WL ++ [None])) ∧
  (∀ MMI rest st, iteration MMI None rest st = Err NullMachineFunction) ∧
  (∀ MMI fuel st st',
     None ∈ MFWorkList st → worklist_loop MMI fuel st ≠ Ok st') ∧
  (∀ MMI Num M st g G c b C,
     reaches MMI (initial MMI Num M) st →
     g ∈ VisitedMF st → M !! g = Some G → rejected G = false →
     CallBase c b ∈ users G → M !! c = Some C →
     hasPreserveNoneAttr C = false → MMI c = false →
     ∀ b' st', runOnModule true MMI Num M ≠ Ok (b', st')) ∧
  (∀ PreserveNoneInfect MMI Num M,
     callers_have_MF MMI M →
     runOnModule PreserveNoneInfect MMI Num M ≠ Err NullMachineFunction).
Proof.
  split; [|split; [|split; [|split]]].
  - intros MMI M V c b CallerF WL HC Ha Hm. simpl.
    unfold getMachineFunction. by rewrite HC, Ha, Hm.
  - done.
  - intros. by apply null_never_done.
  - intros MMI Num M st g G c b C Hr Hg HG Hrej Hcb HC Ha Hm b' st'.
    destruct (caller_without_MF_faults _ _ _ _ _ _ _ _ _ Hr Hg HG Hrej Hcb HC Ha Hm)
      as [_ Hnever].
    unfold runOnModule. cbn [negb]. case_bool_decide as HM.
    { subst M. by rewrite lookup_nil in HG. }
    destruct (worklist_loop MMI (budget M) (initial MMI Num M))
      as [st1|e] eqn:Hloop; cbn [bind]; [|done].
    by apply Hnever in Hloop.
  - intros flag MMI Num M Hsafe. unfold runOnModule.
    destruct flag; [|done]. cbn [negb]. case_bool_decide; [done|].
    destruct (worklist_loop MMI (budget M) (initial MMI Num M))
      as [st|e] eqn:Hloop; cbn [bind]; [done|].
    intros [= ->]. revert Hloop.
    apply (worklist_loop_no_null MMI M);
      [done|apply Inv_initial|apply worklist_ok_initial].
Qed.

Lemma caller_needs_machine_function_witness :
  pushCallers (only_MF 1) caller_without_MF {[1]} [CallBase 0 true] []
    = Ok [None] ∧
  runOnModule true (only_MF 1) 0 caller_without_MF = Err NullMachineFunction ∧
  (∀ st', worklist_loop (only_MF 1) 10
            {| Mod := caller_without_MF; VisitedMF := {[1]};
               MFWorkList := [None]; NumPreserveNoneInfected := 0;
               Processed := [1] |} ≠ Ok st') ∧
  (∀ b' st', runOnModule true (only_MF 1) 0 caller_without_MF ≠ Ok (b', st')) ∧
  runOnModule true all_MF 0 cyclic ≠ Err NullMachineFunction.
Proof.
  destruct caller_needs_machine_function as (Hpush & _ & Hnull & Hnever & Hsafe).
  split; [|split; [|split; [|split]]].
  - by apply (Hpush (only_MF 1) caller_without_MF {[1]} 0 true
                (external_def "G" []) []).
  - vm_compute. reflexivity.
  - intros st'. apply Hnull. simpl. left.
  - apply (Hnever (only_MF 1) 0%Z caller_without_MF
             {| Mod := caller_without_MF; VisitedMF := {[1]};
                MFWorkList := [None]; NumPreserveNoneInfected := 0;
                Processed := [1] |}
             1 (preserve_none_def "S" [CallBase 0 true]) 0 true
             (external_def "G" [])); try reflexivity.
    + eapply reaches_step; [reflexivity|vm_compute; reflexivity|].
      apply reaches_refl.
    + simpl. left.
  - apply Hsafe. intros g G c b _ _ _. reflexivity.
Defined.

(** * Properties of the registry *)

(** Unfolding the writer down to the destructor of the stream. *)
Ltac unfold_writer :=
  unfold Registry.WritePreserveNoneList, Registry.WritePreserveNoneList_logged,
    Registry.flush_at_exit.

Section registry_lemmas.
Local Open Scope string_scope.
Local Open Scope list_scope.

(** ** Strings *)

Lemma append_cons c s t : String c s +:+ t = String c (s +:+ t).
Proof. reflexivity. Qed.

Lemma append_nil_l s : "" +:+ s = s.
Proof. reflexivity. Qed.

Lemma append_nil_r s : s +:+ "" = s.
Proof. induction s as [|c s IH]; [done|]. by rewrite append_cons, IH. Qed.

Lemma append_assoc s t u : (s +:+ t) +:+ u = s +:+ (t +:+ u).
Proof. induction s as [|c s IH]; [done|]. by rewrite !append_cons, IH. Qed.

Lemma is_newline_true c : is_newline c = true → c = "010"%char.
Proof. apply Ascii.eqb_eq. Qed.

Lemma is_newline_space c : is_newline c = true → is_space c = true.
Proof.
  intros ->%is_newline_true. reflexivity.
Qed.

Lemma string_forall_app P s t :
  string_forall P (s +:+ t) = string_forall P s && string_forall P t.
Proof.
  induction s as [|c s IH]; [done|].
  rewrite append_cons. simpl. by rewrite IH, andb_assoc.
Qed.

(** ** Splitting into lines *)

Lemma split_cons s : ∃ line lines, split s = line :: lines.
Proof.
  induction s as [|c s (l & ls & IH)]; simpl; [by eauto|].
  destruct (is_newline c); [by eauto|]. rewrite IH. by eauto.
Qed.

Lemma split_append_newline a b :
  split (a +:+ newline +:+ b) = split a ++ split b.
Proof.
  induction a as [|c a IH].
  - reflexivity.
  - rewrite append_cons. simpl. rewrite IH.
    destruct (is_newline c); [done|].
    by destruct (split_cons a) as (l & ls & ->).
Qed.

Lemma split_one_line n :
  string_forall (fun c => negb (is_newline c)) n = true → split n = [n].
Proof.
  induction n as [|c n IH]; [done|]. simpl.
  intros [Hc Hn]%andb_prop. apply negb_true_iff in Hc. rewrite Hc.
  by rewrite IH.
Qed.

Lemma join_split s : join (split s) = s.
Proof.
  induction s as [|c s IH]; [done|]. simpl.
  destruct (split_cons s) as (l & ls & Hs). rewrite Hs in *.
  destruct (is_newline c) eqn:Hc.
  - apply is_newline_true in Hc as ->.
    change ("" +:+ newline +:+ join (l :: ls) = String "010" s).
    by rewrite IH.
  - destruct ls as [|l' ls]; [simpl in *; by subst|].
    change (String c (l +:+ newline +:+ join (l' :: ls)) = String c s).
    f_equal. exact IH.
Qed.

Lemma split_lines_no_newline s :
  Forall (fun line => string_forall (fun c => negb (is_newline c)) line = true)
         (split s).
Proof.
  induction s as [|c s IH]; simpl; [by repeat constructor|].
  destruct (is_newline c) eqn:Hc; [by constructor|].
  destruct (split s) as [|l ls]; [by repeat constructor; simpl; rewrite Hc|].
  inversion IH as [|? ? Hl Hls]; subst.
  constructor; [|done]. simpl. by rewrite Hc, Hl.
Qed.

(** ** Trimming *)

Lemma ltrim_spec s :
  ∃ pre, s = pre +:+ ltrim s ∧ string_forall is_space pre = true ∧
         is_space_char (first_char (ltrim s)) = false.
Proof.
  induction s as [|c s (pre & Hs & Hpre & Hfirst)]; simpl.
  - by exists "".
  - destruct (is_space c) eqn:Hc.
    + exists (String c pre). rewrite append_cons, <- Hs. simpl.
      by rewrite Hc, Hpre.
    + exists "". by simpl.
Qed.

Lemma rtrim_spec s :
  ∃ post, s = rtrim s +:+ post ∧ string_forall is_space post = true ∧
          is_space_char (last_char (rtrim s)) = false.
Proof.
  induction s as [|c s (post & Hs & Hpost & Hlast)]; simpl.
  - by exists "".
  - destruct (rtrim s) as [|d t] eqn:Ht.
    + destruct (is_space c) eqn:Hc.
      * exists (String c post). rewrite append_nil_l in *. subst s.
        simpl. by rewrite Hc, Hpost.
      * exists post. rewrite append_cons, <- Hs. simpl. by rewrite Hc.
    + exists post. rewrite append_cons, <- Hs. split; [done|]. split; [done|].
      simpl in *. by destruct (last_char t).
Qed.

Lemma rtrim_first s :
  is_space_char (first_char s) = false →
  is_space_char (first_char (rtrim s)) = false.
Proof.
  destruct s as [|c s]; [done|]. simpl. intros Hc.
  destruct (rtrim s); [|done]. by rewrite Hc.
Qed.

Lemma trim_spec line :
  ∃ pre post,
    line = pre +:+ trim line +:+ post ∧
    string_forall is_space pre = true ∧ string_forall is_space post = true ∧
    is_space_char (first_char (trim line)) = false ∧
    is_space_char (last_char (trim line)) = false.
Proof.
  destruct (ltrim_spec line) as (pre & Hl & Hpre & Hfirst).
  destruct (rtrim_spec (ltrim line)) as (post & Hr & Hpost & Hlast).
  exists pre, post. unfold trim. rewrite <- Hr.
  split; [done|]. split; [done|]. split; [done|].
  split; [by apply rtrim_first|done].
Qed.

Lemma ltrim_id s : is_space_char (first_char s) = false → ltrim s = s.
Proof. destruct s as [|c s]; [done|]. simpl. by intros ->. Qed.

Lemma rtrim_id s : is_space_char (last_char s) = false → rtrim s = s.
Proof.
  induction s as [|c s IH]; [done|]. simpl.
  destruct (last_char s) as [d|] eqn:Hlast; intros Hsp.
  - rewrite IH by done. destruct s; [done|done].
  - destruct s as [|e s]; [simpl in *; by rewrite Hsp|].
    simpl in Hlast. by destruct (last_char s).
Qed.

Lemma trim_clean n : clean_name n = true → trim n = n.
Proof.
  unfold clean_name, trim.
  intros [[[_ _]%andb_prop Hf%negb_true_iff]%andb_prop Hl%negb_true_iff]%andb_prop.
  rewrite ltrim_id by done. by apply rtrim_id.
Qed.

Lemma clean_name_parts n :
  clean_name n = true →
  n ≠ "" ∧ string_forall (fun c => negb (is_newline c)) n = true.
Proof.
  unfold clean_name.
  intros [[[Hne Hnl]%andb_prop _]%andb_prop _]%andb_prop.
  split; [|done]. apply negb_true_iff in Hne. by apply bool_decide_eq_false in Hne.
Qed.

(** ** The lines the loader inserts *)

Lemma insert_lines_spec lines : ∀ Names,
  insert_lines lines Names =
  Names ∪ list_to_set (filter (fun n => n ≠ "") (trim <$> lines)).
Proof.
  induction lines as [|line lines IH]; intros Names; simpl.
  - set_solver.
  - rewrite filter_cons. destruct (decide (trim line ≠ "")) as [Hne|He].
    + rewrite bool_decide_eq_false_2 by done. simpl.
      case_bool_decide; simpl; rewrite IH; set_solver.
    + rewrite bool_decide_eq_true_2 by (by destruct (decide (trim line = ""))).
      simpl. by rewrite IH.
Qed.

Lemma names_of_spec content n :
  n ∈ names_of content ↔
  n ≠ "" ∧ ∃ line, line ∈ split content ∧ trim line = n.
Proof.
  unfold names_of. rewrite elem_of_list_to_set, list_elem_of_filter.
  rewrite list_elem_of_fmap. naive_solver.
Qed.

Lemma names_of_empty : names_of "" = ∅.
Proof. reflexivity. Qed.

Lemma line_name_parts n :
  line_name n = true →
  string_forall (fun c => negb (is_newline c)) n = true ∧ trim n ≠ "".
Proof.
  unfold line_name. intros [Hnl Hne]%andb_prop. split; [done|].
  apply negb_true_iff in Hne. by apply bool_decide_eq_false in Hne.
Qed.

Lemma clean_name_line_name n : clean_name n = true → line_name n = true.
Proof.
  intros Hclean. destruct (clean_name_parts n Hclean) as [Hne Hnl].
  unfold line_name. rewrite Hnl, (trim_clean n Hclean). simpl.
  apply negb_true_iff. by apply bool_decide_eq_false.
Qed.

(** Appending a line to a content that is empty or ends with a newline adds
    its name, trimmed. *)
Lemma names_of_append content n :
  content = "" ∨ (∃ d, content = d +:+ newline) →
  line_name n = true →
  names_of (content +:+ n +:+ newline) = {[trim n]} ∪ names_of content.
Proof.
  intros Hterm Hline.
  destruct (line_name_parts n Hline) as [Hnl Hne].
  assert (Hsplit : split (n +:+ newline) = [n; ""]).
  { rewrite <- (append_nil_r (n +:+ newline)), append_assoc.
    by rewrite split_append_newline, split_one_line. }
  apply set_eq. intros x.
  rewrite elem_of_union, elem_of_singleton, !names_of_spec.
  destruct Hterm as [->|[d ->]].
  - rewrite append_nil_l, Hsplit. simpl. split.
    + intros (Hx & line & Hin & <-).
      apply elem_of_cons in Hin as [->|Hin]; [by left|].
      apply list_elem_of_singleton in Hin as ->. done.
    + intros [->|(Hx & line & Hin & <-)].
      * split; [done|]. exists n. split; [left|done].
      * apply list_elem_of_singleton in Hin as ->. done.
  - rewrite append_assoc, split_append_newline, Hsplit.
    rewrite <- (append_nil_r newline). rewrite split_append_newline.
    simpl. split.
    + intros (Hx & line & Hin & <-).
      apply elem_of_app in Hin as [Hin|Hin].
      * right. split; [done|]. exists line. split; [|done].
        apply elem_of_app. by left.
      * apply elem_of_cons in Hin as [->|Hin]; [by left|].
        apply list_elem_of_singleton in Hin as ->. done.
    + intros [->|(Hx & line & Hin & <-)].
      * split; [done|]. exists n. split; [|done].
        apply elem_of_app. right. left.
      * apply elem_of_app in Hin as [Hin|Hin].
        -- split; [done|]. exists line. split; [|done].
           apply elem_of_app. by left.
        -- apply list_elem_of_singleton in Hin as ->. done.
Qed.

(** ** The loader *)

Lemma LoadPreserveNoneList_first_read path env F this fs content :
  isDeclaration F = false → FuncNameSet this = ∅ →
  fs !! path = Some (Regular content) → read_ok env = true →
  FuncNameSet (LoadPreserveNoneList path env F this fs).1.2 = names_of content.
Proof.
  intros HF Hempty Hfs Hread. unfold LoadPreserveNoneList.
  rewrite HF, Hfs, Hread, bool_decide_eq_true_2 by done.
  assert (Hset : insert_lines (split content) (FuncNameSet this) = names_of content).
  { rewrite insert_lines_spec, Hempty. unfold names_of. set_solver. }
  simpl. case_bool_decide; simpl; exact Hset.
Qed.


Lemma LoadPreserveNoneList_grows path env F this fs n :
  n ∈ FuncNameSet this →
  n ∈ FuncNameSet (LoadPreserveNoneList path env F this fs).1.2.
Proof.
  intros Hn. unfold LoadPreserveNoneList.
  destruct (isDeclaration F); [done|].
  case_bool_decide as Hempty; [set_solver|].
  by case_bool_decide.
Qed.


(** ** The writer *)

Lemma open_append_lookup fs path :
  open_append fs path !! path =
  match fs !! path with
  | None => Some (Regular "")
  | Some file => Some file
  end.
Proof.
  unfold open_append. destruct (fs !! path) as [file|] eqn:Hfs; [done|].
  by rewrite lookup_insert_eq.
Qed.

Lemma open_append_idemp fs path :
  open_append (open_append fs path) path = open_append fs path.
Proof.
  unfold open_append at 1. rewrite open_append_lookup.
  by destruct (fs !! path).
Qed.

Lemma content_of_open_append fs path :
  content_of (open_append fs path) path = content_of fs path.
Proof.
  unfold content_of. rewrite open_append_lookup. by destruct (fs !! path).
Qed.

(** The call that goes well: the file is created when it is not there, the
    line is appended, and the call returns true. *)
Lemma WritePreserveNoneList_appends path env F this fs fd :
  isDeclaration F = false → getName F ∉ FuncNameSet this →
  fs !! path ≠ Some NonRegular →
  stream_opens env = true → opened_fd env = Some fd → lock_ok env = true →
  write_ok env = true → unlock_ok env = true →
  WritePreserveNoneList path env F this fs =
    (Returns true,
     {| FD := fd; FuncNameSet := {[getName F]} ∪ FuncNameSet this |},
     <[path := Regular (content_of fs path +:+ getName F +:+ newline)]>
       (open_append fs path)).
Proof.
  intros HF Hnew Hreg Hs Hfd Hl Hw Hu. unfold_writer.
  rewrite HF, bool_decide_eq_false_2 by done.
  assert (Hcheck : exists_ fs path && negb (is_regular_file fs path) = false).
  { unfold exists_, is_regular_file.
    destruct (fs !! path) as [[c|]|] eqn:Hfs; [by rewrite andb_false_r|done|].
    rewrite bool_decide_eq_false_2; [done|]. by intros [? ?]. }
  rewrite <- andb_assoc, Hcheck, andb_false_r, Hs, Hfd, Hl, Hw, Hu. simpl.
  rewrite open_append_idemp. unfold append. rewrite open_append_lookup.
  unfold content_of. destruct (fs !! path) as [[c|]|]; done.
Qed.

(** When the call returns true, and when it ends the process. *)
Lemma WritePreserveNoneList_true_iff path env F this fs :
  (WritePreserveNoneList path env F this fs).1.1 = Returns true ↔
  isDeclaration F = false ∧ (getName F ∉ FuncNameSet this) ∧
  (bool_decide (FD this = 0%Z) && exists_ fs path &&
   negb (is_regular_file fs path)) = false ∧
  stream_opens env = true ∧ is_Some (opened_fd env) ∧
  lock_ok env = true ∧ unlock_ok env = true ∧ write_ok env = true.
Proof.
  unfold_writer.
  destruct (isDeclaration F); [naive_solver|].
  case_bool_decide as Hin; [naive_solver|]. simpl.
  destruct (bool_decide (FD this = 0%Z) && exists_ fs path &&
            negb (is_regular_file fs path)); [naive_solver|].
  destruct (stream_opens env); simpl; [|naive_solver].
  destruct (opened_fd env) as [fd|]; simpl;
    [|split; [done|]; by intros (_ & _ & _ & _ & [? ?] & _)].
  destruct (lock_ok env); simpl; [|naive_solver].
  destruct (unlock_ok env), (write_ok env); simpl; naive_solver.
Qed.

Lemma WritePreserveNoneList_fatal_iff path env F this fs :
  (WritePreserveNoneList path env F this fs).1.1 = FatalError ↔
  isDeclaration F = false ∧ (getName F ∉ FuncNameSet this) ∧
  (bool_decide (FD this = 0%Z) && exists_ fs path &&
   negb (is_regular_file fs path)) = false ∧
  stream_opens env = true ∧ is_Some (opened_fd env) ∧
  lock_ok env = true ∧ write_ok env = false.
Proof.
  unfold_writer.
  destruct (isDeclaration F); [naive_solver|].
  case_bool_decide as Hin; [naive_solver|]. simpl.
  destruct (bool_decide (FD this = 0%Z) && exists_ fs path &&
            negb (is_regular_file fs path)); [naive_solver|].
  destruct (stream_opens env); simpl; [|naive_solver].
  destruct (opened_fd env) as [fd|]; simpl;
    [|split; [done|]; by intros (_ & _ & _ & _ & [? ?] & _)].
  destruct (lock_ok env); simpl; [|naive_solver].
  destruct (unlock_ok env), (write_ok env); simpl; naive_solver.
Qed.

(** The file grows by what the log says is written. *)
Lemma WritePreserveNoneList_logged_written path env F this fs :
  fs !! path ≠ Some NonRegular →
  let r := WritePreserveNoneList_logged path env F this fs in
  content_of r.1.2 path = content_of fs path +:+ written r.2.
Proof.
  intros Hreg.
  assert (Hw : ∀ data,
    content_of (append (open_append (open_append fs path) path) path data) path
    = content_of fs path +:+ data).
  { intros data. rewrite open_append_idemp. unfold append, content_of.
    rewrite open_append_lookup.
    destruct (fs !! path) as [[c|]|]; [|done|]; by rewrite lookup_insert_eq. }
  unfold WritePreserveNoneList_logged, flush_at_exit.
  destruct (isDeclaration F); [by rewrite append_nil_r|].
  case_bool_decide; [by rewrite append_nil_r|].
  destruct (_ && _ && _); [by rewrite append_nil_r|].
  destruct (negb (stream_opens env)); [by rewrite append_nil_r|].
  destruct (opened_fd env);
    [|simpl; by rewrite content_of_open_append, append_nil_r].
  destruct (negb (lock_ok env));
    [simpl; by rewrite !content_of_open_append, append_nil_r|].
  destruct (negb (unlock_ok env)), (write_ok env); simpl;
    rewrite ?Hw, ?content_of_open_append, ?append_nil_r; done.
Qed.

(** The call for a declaration or for a known name. *)
Lemma WritePreserveNoneList_known path env F this fs :
  getName F ∈ FuncNameSet this →
  WritePreserveNoneList path env F this fs = (Returns false, this, fs).
Proof.
  intros Hin. unfold_writer.
  destruct (isDeclaration F); [done|]. by rewrite bool_decide_eq_true_2.
Qed.

Lemma WritePreserveNoneList_declaration path env F this fs :
  isDeclaration F = true →
  WritePreserveNoneList path env F this fs = (Returns false, this, fs).
Proof. intros HF. unfold_writer. by rewrite HF. Qed.

(** ** The writer in step with the file *)

Lemma WritePreserveNoneList_in_step path env F this fs :
  env_ok env = true → isDeclaration F = false →
  line_name (getName F) = true → in_step path this fs →
  let r := WritePreserveNoneList path env F this fs in
  (∃ b, r.1.1 = Returns b) ∧
  in_step path r.1.2 r.2 ∧
  FuncNameSet r.1.2 = {[getName F]} ∪ FuncNameSet this.
Proof.
  intros Hok HF Hline Hstep r. subst r.
  destruct (decide (getName F ∈ FuncNameSet this)) as [Hin|Hnew].
  { rewrite WritePreserveNoneList_known by done.
    simpl. split; [by eexists|]. split; [done|set_solver]. }
  unfold env_ok in Hok.
  apply andb_prop in Hok as [[[[[Hs Hfd]%andb_prop Hl]%andb_prop
    Hw]%andb_prop Hu]%andb_prop _].
  apply bool_decide_eq_true in Hfd as [fd Hfd].
  rewrite (WritePreserveNoneList_appends path env F this fs fd); try done.
  2: { intros Hnr. unfold in_step in Hstep. by rewrite Hnr in Hstep. }
  cbn [fst snd FuncNameSet FD]. split; [by eexists|]. split; [|done].
  unfold in_step in *. rewrite lookup_insert_eq. split.
  - right. exists (content_of fs path +:+ getName F).
    by rewrite append_assoc.
  - cbn [FuncNameSet]. rewrite set_map_union_L, set_map_singleton_L.
    unfold content_of. destruct (fs !! path) as [[c|]|]; [| done |].
    + destruct Hstep as [Hterm <-]. by apply names_of_append.
    + rewrite Hstep, set_map_empty.
      rewrite (names_of_append "" (getName F)) by (by left || done).
      by rewrite names_of_empty.
Qed.





(** ** No second attempt *)

Lemma WritePreserveNoneList_grows path env F this fs n :
  n ∈ FuncNameSet this →
  n ∈ FuncNameSet (WritePreserveNoneList path env F this fs).1.2.
Proof.
  intros Hn. unfold_writer.
  destruct (isDeclaration F); [done|]. case_bool_decide; [done|].
  destruct (_ && _ && _); [simpl; set_solver|].
  destruct (negb (stream_opens env)); [simpl; set_solver|].
  destruct (opened_fd env); [|simpl; set_solver].
  destruct (negb (lock_ok env)); [simpl; set_solver|].
  destruct (negb (unlock_ok env)), (write_ok env); simpl; set_solver.
Qed.

Lemma WritePreserveNoneList_inserts path env F this fs :
  isDeclaration F = false →
  getName F ∈ FuncNameSet (WritePreserveNoneList path env F this fs).1.2.
Proof.
  intros HF. unfold_writer. rewrite HF.
  case_bool_decide; [done|].
  destruct (_ && _ && _); [simpl; set_solver|].
  destruct (negb (stream_opens env)); [simpl; set_solver|].
  destruct (opened_fd env); [|simpl; set_solver].
  destruct (negb (lock_ok env)); [simpl; set_solver|].
  destruct (negb (unlock_ok env)), (write_ok env); simpl; set_solver.
Qed.

Lemma WritePreserveNoneList_open_or_lock_fails path env F this fs :
  stream_opens env = false ∨ opened_fd env = None ∨ lock_ok env = false →
  let r := WritePreserveNoneList path env F this fs in
  r.1.1 = Returns false ∧ content_of r.2 path = content_of fs path.
Proof.
  intros Hfail. unfold_writer.
  destruct (isDeclaration F); [done|]. case_bool_decide; [done|].
  destruct (_ && _ && _); [done|].
  destruct (stream_opens env); simpl; [|done].
  destruct (opened_fd env); simpl.
  - destruct (lock_ok env); simpl;
      [naive_solver|by rewrite !content_of_open_append].
  - by rewrite content_of_open_append.
Qed.

Lemma write_seq_known path n calls : ∀ this fs,
  n ∈ FuncNameSet this →
  let r := write_seq path calls this fs in
  n ∈ FuncNameSet r.1.2 ∧
  (∀ i env F, calls !! i = Some (env, F) → getName F = n →
              i < length r.1.1 → r.1.1 !! i = Some (Returns false)) ∧
  (Forall (fun call => getName call.2 = n) calls →
   r.1.1 = replicate (length calls) (Returns false) ∧
   r.1.2 = this ∧ r.2 = fs).
Proof.
  induction calls as [|[env G] calls IH]; intros this fs Hn; simpl.
  - split; [done|]. split; [|done]. intros i env F Hi. by rewrite lookup_nil in Hi.
  - pose proof (WritePreserveNoneList_grows path env G this fs n Hn) as Hn1.
    pose proof (WritePreserveNoneList_known path env G this fs) as Hknown.
    destruct (WritePreserveNoneList path env G this fs) as [[e this1] fs1].
    simpl in Hn1. destruct (IH this1 fs1 Hn1) as (Hn2 & Hfalse & Hsame).
    destruct e as [b|]; simpl.
    + destruct (write_seq path calls this1 fs1) as [[es this2] fs2].
      simpl in *. split; [done|]. split.
      * intros [|i] env' F Hi HF Hlt; simpl in *.
        -- injection Hi as -> ->. rewrite <- HF in Hn.
           specialize (Hknown Hn). by injection Hknown as ->.
        -- eapply Hfalse; [done..|lia].
      * intros [HG Hall']%Forall_cons. simpl in HG.
        rewrite <- HG in Hn. specialize (Hknown Hn).
        injection Hknown as -> -> ->.
        destruct (Hsame Hall') as (-> & -> & ->). done.
    + split; [done|]. split.
      * intros [|i] env' F Hi HF Hlt; simpl in *; [|lia].
        injection Hi as -> ->. rewrite <- HF in Hn.
        by specialize (Hknown Hn).
      * intros [HG Hall']%Forall_cons. simpl in HG.
        rewrite <- HG in Hn. by specialize (Hknown Hn).
Qed.


End registry_lemmas.

(** * The claims about the registry *)

Section registry_claims.
Local Open Scope string_scope.
Local Open Scope list_scope.

(** C2, where the code departs from it. The line is not appended under the
    lock: the call leaves it in the buffer of the stream [fds], and the
    stream writes it when it is destroyed, after the lock has been
    released. For a target that is a regular file or is not there, the
    file grows by what the log of the call says is written, and whenever
    the call returns true the log is lock, unlock, write. And a write that
    fails is not answered by false: for a definition with a new name, once
    the file is open and the lock taken, the call returns true with the
    line at the end of the file when the write and the unlock succeed, and
    ends the process in a fatal error, the file without the line, when the
    write fails. *)
Theorem line_written_after_unlock path env F this fs :
  let r := WritePreserveNoneList_logged path env F this fs in
  (fs !! path ≠ Some NonRegular →
   content_of r.1.2 path = content_of fs path +:+ written r.2 ∧
   (r.1.1.1 = Returns true →
    r.2 = [Locked; Unlocked; Written (getName F +:+ newline)] ∧
    written_under_lock false r.2 = false)) ∧
  (isDeclaration F = false → (getName F ∉ FuncNameSet this) →
   fs !! path ≠ Some NonRegular →
   stream_opens env = true → is_Some (opened_fd env) → lock_ok env = true →
   (write_ok env = true → unlock_ok env = true →
    r.1.1.1 = Returns true ∧
    content_of r.1.2 path = content_of fs path +:+ getName F +:+ newline) ∧
   (write_ok env = false →
    r.1.1.1 = FatalError ∧ content_of r.1.2 path = content_of fs path)).
Proof.
  intros r. split.
  - intros Hreg. split; [by apply WritePreserveNoneList_logged_written|].
    subst r. unfold WritePreserveNoneList_logged, flush_at_exit.
    destruct (isDeclaration F); [done|]. case_bool_decide; [done|].
    destruct (_ && _ && _); [done|].
    destruct (negb (stream_opens env)); [done|].
    destruct (opened_fd env); [|done].
    destruct (negb (lock_ok env)); [done|].
    destruct (negb (unlock_ok env)), (write_ok env); done.
  - intros HF Hnew Hreg Hs [fd Hfd] Hl.
    assert (Hcheck : bool_decide (FD this = 0%Z) && exists_ fs path &&
                     negb (is_regular_file fs path) = false).
    { rewrite <- andb_assoc. apply andb_false_intro2.
      unfold exists_, is_regular_file.
      destruct (fs !! path) as [[c|]|] eqn:Hfs; [by rewrite andb_false_r|done|].
      rewrite bool_decide_eq_false_2; [done|]. by intros [? ?]. }
    subst r. unfold WritePreserveNoneList_logged, flush_at_exit.
    rewrite HF, bool_decide_eq_false_2 by done. cbn [FD FuncNameSet].
    rewrite Hcheck, Hs, Hfd, Hl. cbn [negb]. split.
    + intros -> ->. cbn [negb fst snd]. split; [done|].
      rewrite open_append_idemp. unfold append, content_of.
      rewrite open_append_lookup.
      destruct (fs !! path) as [[c|]|]; [|done|]; by rewrite lookup_insert_eq.
    + intros ->. split; [by destruct (unlock_ok env)|].
      destruct (unlock_ok env); cbn [negb fst snd];
        by rewrite !content_of_open_append.
Qed.

Lemma line_written_after_unlock_witness :
  let F := local_def "f" [] in
  let ok := WritePreserveNoneList_logged "reg" all_ok F new_pass no_files in
  let failed := WritePreserveNoneList_logged "reg" write_fails F new_pass no_files in
  (ok.1.1.1 = Returns true ∧ content_of ok.1.2 "reg" = "f" +:+ newline ∧
   ok.2 = [Locked; Unlocked; Written ("f" +:+ newline)] ∧
   written_under_lock false ok.2 = false) ∧
  (failed.1.1.1 = FatalError ∧ content_of failed.1.2 "reg" = "").
Proof.
  intros F ok failed.
  destruct (line_written_after_unlock "reg" all_ok F new_pass no_files)
    as [Hlog Hok].
  destruct (line_written_after_unlock "reg" write_fails F new_pass no_files)
    as [_ Hfailed].
  destruct Hok as [Hok _]; [reflexivity|set_solver|done|reflexivity|by eexists|
                            reflexivity|].
  destruct Hfailed as [_ Hfailed];
    [reflexivity|set_solver|done|reflexivity|by eexists|reflexivity|].
  destruct Hok as [Htrue Hcontent]; [reflexivity..|].
  destruct Hlog as [_ Hlog]; [done|].
  destruct (Hlog Htrue) as [Hevents Hunder].
  destruct Hfailed as [Hfatal Hsame]; [reflexivity|].
  split; [|split; [exact Hfatal|exact Hsame]].
  split; [exact Htrue|]. split; [exact Hcontent|]. split; [exact Hevents|exact Hunder].
Defined.





(** C5, as amended. The loader never removes a name from the Name Set. A call
    on a declaration, and every call made while the Name Set is not empty,
    does not look at the file; so once a read has put a name into the set,
    no later call reads the file again. A call on a definition made while
    the set is empty looks at the file, whatever happened before: it reads
    the file when it is there and readable, and when the file is missing,
    not regular or unreadable it returns false and leaves the pass object,
    the empty Name Set with it, as it was, so that the next call on a
    definition reads again. *)
Theorem loader_reads_while_empty path F this :
  (∀ env fs n,
     n ∈ FuncNameSet this →
     n ∈ FuncNameSet (LoadPreserveNoneList path env F this fs).1.2) ∧
  (isDeclaration F = true → no_read path F this) ∧
  (FuncNameSet this ≠ ∅ →
   no_read path F this ∧
   ∀ env fs, FuncNameSet (LoadPreserveNoneList path env F this fs).1.2 ≠ ∅) ∧
  (isDeclaration F = false → FuncNameSet this = ∅ →
   ¬ no_read path F this ∧
   (∀ env fs content,
      fs !! path = Some (Regular content) → read_ok env = true →
      FuncNameSet (LoadPreserveNoneList path env F this fs).1.2
        = names_of content) ∧
   ∀ env fs,
     fs !! path = None ∨ fs !! path = Some NonRegular ∨ read_ok env = false →
     LoadPreserveNoneList path env F this fs = (false, this, F) ∧
     ∀ G env' fs' content,
       isDeclaration G = false →
       fs' !! path = Some (Regular content) → read_ok env' = true →
       FuncNameSet
         (LoadPreserveNoneList path env' G
            (LoadPreserveNoneList path env F this fs).1.2 fs').1.2
         = names_of content).
Proof.
  split; [|split; [|split]].
  - intros env fs n. apply LoadPreserveNoneList_grows.
  - intros HF env env' fs fs'. unfold LoadPreserveNoneList. by rewrite HF.
  - intros Hne. split.
    + intros env env' fs fs'. unfold LoadPreserveNoneList.
      destruct (isDeclaration F); [done|].
      by rewrite bool_decide_eq_false_2.
    + intros env fs Hempty. apply Hne. apply set_eq. intros n.
      split; [|set_solver]. intros Hn.
      rewrite <- Hempty. by apply LoadPreserveNoneList_grows.
  - intros HF Hempty.
    assert (Hfailed : ∀ env fs,
      fs !! path = None ∨ fs !! path = Some NonRegular ∨ read_ok env = false →
      LoadPreserveNoneList path env F this fs = (false, this, F)).
    { intros env fs Hfail. unfold LoadPreserveNoneList.
      rewrite HF, bool_decide_eq_true_2 by done.
      destruct Hfail as [->|[->| Hread]]; [done..|].
      rewrite Hread. by destruct (fs !! path) as [[?|]|]. }
    split; [|split].
    + intros Hno.
      specialize (Hno all_ok all_ok ∅ {[path := Regular "x"]}).
      rewrite Hfailed in Hno by (left; apply lookup_empty).
      apply (f_equal (fun r => FuncNameSet r.1.2)) in Hno.
      rewrite (LoadPreserveNoneList_first_read path all_ok F this _ "x")
        in Hno by (done || apply lookup_singleton_eq).
      simpl in Hno. rewrite Hempty in Hno.
      assert (Hx : "x" ∈ names_of "x") by (vm_compute; set_solver).
      rewrite <- Hno in Hx. by apply not_elem_of_empty in Hx.
    + intros env fs content. by apply LoadPreserveNoneList_first_read.
    + intros env fs Hfail. split; [by apply Hfailed|].
      intros G env' fs' content HG Hfs' Hread.
      rewrite Hfailed by done. by apply LoadPreserveNoneList_first_read.
Qed.

Lemma loader_reads_while_empty_witness :
  let this := {| FD := 0; FuncNameSet := {["g"]} |} in
  let F := local_def "f" [] in
  no_read "reg" F this ∧
  FuncNameSet (LoadPreserveNoneList "reg" all_ok F new_pass
                 {["reg" := Regular ("f" +:+ newline)]}).1.2
    = names_of ("f" +:+ newline) ∧
  LoadPreserveNoneList "reg" all_ok F new_pass {["reg" := NonRegular]}
    = (false, new_pass, F) ∧
  FuncNameSet
    (LoadPreserveNoneList "reg" all_ok F
       (LoadPreserveNoneList "reg" all_ok F new_pass {["reg" := NonRegular]}).1.2
       {["reg" := Regular ("f" +:+ newline)]}).1.2
    = names_of ("f" +:+ newline).
Proof.
  intros this F.
  destruct (loader_reads_while_empty "reg" F this) as (_ & _ & Hfull & _).
  destruct (loader_reads_while_empty "reg" F new_pass)
    as (_ & _ & _ & Hempty).
  destruct Hempty as (_ & Hread & Hfailed); [reflexivity..|].
  destruct (Hfailed all_ok {["reg" := NonRegular]}) as [Hsame Hagain];
    [right; left; reflexivity|].
  split; [|split; [|split]].
  - apply Hfull. intros Hnone.
    assert (H : "g" ∈ FuncNameSet this) by (unfold this; simpl; set_solver).
    rewrite Hnone in H. by apply not_elem_of_empty in H.
  - apply Hread; reflexivity.
  - exact Hsame.
  - apply Hagain; reflexivity.
Defined.

(** C5, as stated, fails: the first call finds no file and leaves the Name
    Set empty; the second call, made after the file has appeared, reads it. *)
Lemma loader_reads_again_counterexample :
  let F := local_def "f" [] in
  let first := LoadPreserveNoneList "reg" all_ok F new_pass no_files in
  first.1.1 = false ∧ FuncNameSet first.1.2 = ∅ ∧
  ¬ no_read "reg" F first.1.2 ∧
  (LoadPreserveNoneList "reg" all_ok F first.1.2
     {["reg" := Regular ("f" +:+ newline)]}).1.1 = true.
Proof.
  intros F first. split; [reflexivity|]. split; [reflexivity|].
  split; [|reflexivity].
  intros Hno.
  specialize (Hno all_ok all_ok no_files {["reg" := Regular ("f" +:+ newline)]}).
  apply (f_equal (fun r => r.1.1)) in Hno. vm_compute in Hno. discriminate.
Qed.


(** C8. Loader parsing: the first call of the loader on a definition, with a
    readable regular file, leaves as Name Set the distinct non-empty trimmed
    lines of the file, each once; the lines are the pieces between the
    newlines of the content; and trimming a line takes whitespace, and only
    whitespace, from both of its ends. *)
Theorem loader_parses_lines path env F this fs content :
  isDeclaration F = false → FuncNameSet this = ∅ →
  fs !! path = Some (Regular content) → read_ok env = true →
  let Names := FuncNameSet (LoadPreserveNoneList path env F this fs).1.2 in
  (∀ n, n ∈ Names ↔ n ≠ "" ∧ ∃ line, line ∈ split content ∧ trim line = n) ∧
  Names = list_to_set (filter (fun n => n ≠ "") (trim <$> split content)) ∧
  size Names =
    length (remove_dups (filter (fun n => n ≠ "") (trim <$> split content))) ∧
  join (split content) = content ∧
  Forall (fun line => string_forall (fun c => negb (is_newline c)) line = true)
         (split content) ∧
  ∀ line, ∃ pre post,
    line = pre +:+ trim line +:+ post ∧
    string_forall is_space pre = true ∧ string_forall is_space post = true ∧
    is_space_char (first_char (trim line)) = false ∧
    is_space_char (last_char (trim line)) = false.
Proof.
  intros HF Hempty Hfs Hread Names.
  assert (HN : Names = names_of content)
    by by apply LoadPreserveNoneList_first_read.
  rewrite HN. split; [apply names_of_spec|]. split; [done|].
  split; [|split; [apply join_split|split;
    [apply split_lines_no_newline|apply trim_spec]]].
  unfold names_of.
  rewrite <- (size_list_to_set (C := gset string) (remove_dups _))
    by apply NoDup_remove_dups.
  f_equal. apply set_eq. intros n.
  by rewrite !elem_of_list_to_set, elem_of_remove_dups.
Qed.

Lemma loader_parses_lines_witness :
  let content := String "009" " f " +:+ newline +:+ newline +:+ "g" +:+
                 String "013" newline +:+ "f" in
  let Names := FuncNameSet (LoadPreserveNoneList "reg" all_ok (local_def "f" [])
                 new_pass {["reg" := Regular content]}).1.2 in
  size Names = 2 ∧ ∀ n, n ∈ Names ↔ n = "f" ∨ n = "g".
Proof.
  intros content Names.
  destruct (loader_parses_lines "reg" all_ok (local_def "f" []) new_pass
              {["reg" := Regular content]} content)
    as (Hin & _ & Hsize & _); [reflexivity..|].
  split; [exact Hsize|].
  intros n. etrans; [apply Hin|]. vm_compute split. split.
  - intros (Hne & line & Hline & <-).
    repeat (apply elem_of_cons in Hline as [->|Hline]); try by (left + right).
    by apply elem_of_nil in Hline.
  - intros [->| ->]; (split; [done|]).
    + eexists. split; [left|reflexivity].
    + eexists. split; [right; right; left|reflexivity].
Defined.


(** C10. The dedup set of the writer is not error-atomic. A call for a
    definition whose name is new puts the name into the set whatever
    happens to the file afterwards; when the file cannot be opened or
    locked, the call returns false and the content of the file is as
    before. From then on, in any sequence of later calls, the name stays in
    the set and every call made for a function of that name returns false
    (a call is made unless an earlier call of the sequence has ended the
    process); and calls for that name alone are all made, return false and
    leave the pass object and the file system as they are, so that the
    name is not written. *)
Theorem writer_does_not_retry path env F this fs :
  isDeclaration F = false → getName F ∉ FuncNameSet this →
  let first := WritePreserveNoneList path env F this fs in
  getName F ∈ FuncNameSet first.1.2 ∧
  (stream_opens env = false ∨ opened_fd env = None ∨ lock_ok env = false →
   first.1.1 = Returns false ∧ content_of first.2 path = content_of fs path) ∧
  ∀ calls,
    let later := write_seq path calls first.1.2 first.2 in
    getName F ∈ FuncNameSet later.1.2 ∧
    (∀ i env' F', calls !! i = Some (env', F') → getName F' = getName F →
                  i < length later.1.1 →
                  later.1.1 !! i = Some (Returns false)) ∧
    (Forall (fun call => getName call.2 = getName F) calls →
     later.1.1 = replicate (length calls) (Returns false) ∧
     later.1.2 = first.1.2 ∧ later.2 = first.2).
Proof.
  intros HF Hnew first.
  assert (Hin : getName F ∈ FuncNameSet first.1.2)
    by by apply WritePreserveNoneList_inserts.
  split; [done|]. split.
  - apply WritePreserveNoneList_open_or_lock_fails.
  - intros calls. by apply write_seq_known.
Qed.

Lemma writer_does_not_retry_witness :
  let F := local_def "f" [] in
  let first := WritePreserveNoneList "reg" open_fails F new_pass no_files in
  let later := write_seq "reg" [(all_ok, F); (all_ok, F)] first.1.2 first.2 in
  first.1.1 = Returns false ∧ "f" ∈ FuncNameSet first.1.2 ∧
  later.1.1 = [Returns false; Returns false] ∧ later.2 = first.2 ∧
  content_of later.2 "reg" = "".
Proof.
  intros F first later.
  destruct (writer_does_not_retry "reg" open_fails F new_pass no_files)
    as (Hin & Hfail & Hlater); [reflexivity|set_solver|].
  destruct (Hfail (or_introl eq_refl)) as [Hfalse Hcontent].
  destruct (Hlater [(all_ok, F); (all_ok, F)]) as (_ & _ & Hsame).
  destruct Hsame as (Hall & _ & Hfs); [by repeat constructor|].
  split; [exact Hfalse|]. split; [exact Hin|].
  split; [exact Hall|]. split; [exact Hfs|]. reflexivity.
Defined.

End registry_claims.

(** * More about the infection pass *)

(** ** What the traversal comes to *)

Lemma pushCallers_Ok_calls MMI M V us : ∀ WL WL',
  pushCallers MMI M V us WL = Ok WL' →
  forallb isa_CallBase us = true ∧
  ∀ c b, CallBase c b ∈ us → c < length M.
Proof.
  induction us as [|U us IH]; intros WL WL' H; simpl in H.
  - split; [done|]. intros c b Hc. by apply elem_of_nil in Hc.
  - destruct U as [c0 b0|]; [|done].
    destruct (M !! c0) as [C|] eqn:HC; [|done].
    assert (∃ WL0, pushCallers MMI M V us WL0 = Ok WL') as [WL0 H0]
      by (destruct (_ && _); eauto).
    destruct (IH _ _ H0) as [Hcalls Hlt]. split; [done|].
    intros c b [[= -> ->]|Hc]%elem_of_cons; [by eapply lookup_lt_Some|by eauto].
Qed.

Lemma Inv_spread_initial MMI Num M : Inv_spread MMI M (initial MMI Num M).
Proof.
  split; simpl; [set_solver| |set_solver].
  intros f Hf.
  assert (H : ∀ M' i p, p ∈ seeds MMI i M' →
    ∃ k F, p = Some (i + k) ∧ M' !! k = Some F ∧
           hasPreserveNoneAttr F = true ∧ MMI (i + k) = true).
  { induction M' as [|F M' IH]; intros i p Hp; simpl in Hp.
    { by apply elem_of_nil in Hp. }
    assert (Htl : p ∈ seeds MMI (S i) M' → ∃ k F', p = Some (i + k) ∧
              (F :: M') !! k = Some F' ∧ hasPreserveNoneAttr F' = true ∧
              MMI (i + k) = true).
    { intros (k & F' & -> & ? & ? & ?)%IH. exists (S k), F'.
      replace (i + S k) with (S i + k) by lia. done. }
    destruct (getMachineFunction MMI i) as [g|] eqn:HMF; [|by apply Htl].
    apply getMachineFunction_Some in HMF as [<- Hm].
    destruct (hasPreserveNoneAttr F) eqn:Ha; [|by apply Htl].
    apply elem_of_cons in Hp as [->|Hp]; [|by apply Htl].
    exists 0, F. by rewrite Nat.add_0_r. }
  apply H in Hf as (k & F & [= ->] & HF & Ha & Hm). by eapply Spread_seed.
Qed.

Lemma Inv_spread_iteration MMI M0 MF rest st st' :
  Inv MMI M0 st → Inv_spread MMI M0 st → MFWorkList st = MF :: rest →
  iteration MMI MF rest st = Ok st' → Inv_spread MMI M0 st'.
Proof.
  intros HI [Hvis Hwl Hcalls] HWL (f & F & -> & HF & Hspec)%iteration_Ok.
  assert (Hf : Spread MMI M0 f) by (apply Hwl; rewrite HWL; left).
  assert (Hrest : ∀ g, Some g ∈ rest → Spread MMI M0 g).
  { intros g Hg. apply Hwl. rewrite HWL. by right. }
  assert (Hvis' : ∀ g, g ∈ {[f]} ∪ VisitedMF st → Spread MMI M0 g).
  { intros g [->%elem_of_singleton|Hg]%elem_of_union; [done|by apply Hvis]. }
  destruct Hspec as [Hin|Hnew Hrej|WL Hnew Hrej Hpush].
  - by split.
  - pose proof (Inv_lookup_unvisited _ _ _ _ _ HI HF Hnew) as HF0.
    split; simpl; [done..|].
    intros g G [->%elem_of_singleton|Hg]%elem_of_union HG HrG;
      [congruence|by eapply Hcalls].
  - pose proof (Inv_lookup_unvisited _ _ _ _ _ HI HF Hnew) as HF0.
    destruct (pushCallers_Ok_calls _ _ _ _ _ _ Hpush) as [Hall Hlt].
    apply pushCallers_Ok in Hpush as [(extra & -> & _ & Hextra) _].
    assert (Hst' : ∀ X, VisitedMF (infect f F X) = VisitedMF X ∧
                        MFWorkList (infect f F X) = MFWorkList X).
    { intros X. unfold infect. by destruct (negb _). }
    split.
    + intros g. edestruct Hst' as [-> _]. apply Hvis'.
    + intros g. edestruct Hst' as [_ ->]. simpl.
      intros [Hg|Hg]%elem_of_app; [by apply Hrest|].
      destruct (Hextra _ Hg) as (c & b & Hcb & Heq). symmetry in Heq.
      apply getMachineFunction_Some in Heq as [-> Hm].
      by eapply Spread_caller.
    + intros g G. edestruct Hst' as [-> _]. simpl.
      intros [->%elem_of_singleton|Hg]%elem_of_union HG HrG;
        [|by eapply Hcalls].
      assert (G = F) as -> by congruence. split; [done|].
      intros c b Hcb. rewrite <- (inv_length _ _ _ HI). by eapply Hlt.
Qed.

Lemma Inv_spread_reaches MMI M0 st st' :
  Inv MMI M0 st → Inv_spread MMI M0 st → reaches MMI st st' →
  Inv_spread MMI M0 st'.
Proof.
  intros HI HS Hr. induction Hr as [|st MF rest st1 st2 HWL Hit _ IH]; [done|].
  apply IH; [by eapply Inv_iteration|by eapply Inv_spread_iteration].
Qed.

(** At the end of a run the visited functions are the functions the
    traversal comes to. *)
Lemma Spread_visited MMI M0 st f :
  Inv MMI M0 st → MFWorkList st = [] → Spread MMI M0 f → f ∈ VisitedMF st.
Proof.
  intros HI HWL Hsp.
  assert (Hseed : ∀ f F, M0 !! f = Some F → hasPreserveNoneAttr F = true →
                         MMI f = true → f ∈ VisitedMF st).
  { intros g G HG Ha Hm.
    destruct (inv_seeds _ _ _ HI g G HG Ha Hm) as [?|Hin]; [done|].
    rewrite HWL in Hin. by apply elem_of_nil in Hin. }
  induction Hsp as [f F HF Ha Hm|g G c b _ IH HG Hrej Hcb Hm]; [by eauto|].
  destruct (inv_expanded _ _ _ HI g G IH HG Hrej) as [_ Hcallers].
  destruct (Hcallers c b Hcb) as [?|[(C & HC & Ha)|Hin]]; [done| |].
  - destruct (decide (c ∈ VisitedMF st)) as [?|Hnew]; [done|].
    pose proof (Inv_lookup_unvisited _ _ _ _ _ HI HC Hnew) as HC0. by eauto.
  - rewrite HWL in Hin. by apply elem_of_nil in Hin.
Qed.

(** What a run that returns leaves behind. *)
Lemma runOnModule_Ok MMI Num M b st :
  runOnModule true MMI Num M = Ok (b, st) →
  (M = [] ∧ b = false ∧ Mod st = [] ∧ VisitedMF st = ∅ ∧
   NumPreserveNoneInfected st = Num) ∨
  (M ≠ [] ∧ reaches MMI (initial MMI Num M) st ∧ MFWorkList st = [] ∧
   b = bool_decide (NumPreserveNoneInfected st > 0)%Z).
Proof.
  unfold runOnModule. cbn [negb]. case_bool_decide as HM.
  - intros [= <- <-]. left. by subst M.
  - destruct (worklist_loop MMI (budget M) (initial MMI Num M))
      as [st'|e] eqn:Hloop; cbn [bind]; [|done].
    intros [= <- <-]. right. split; [done|].
    split; [by eapply worklist_loop_reaches|]. split; [|done].
    by destruct (Inv_worklist_loop _ _ _ _ _ (Inv_initial MMI Num M) Hloop).
Qed.

Lemma Spread_lookup MMI M f :
  Spread MMI M f → M ≠ [].
Proof.
  intros Hsp. induction Hsp as [f F HF _ _|]; [|done].
  intros ->. by rewrite lookup_nil in HF.
Qed.

Lemma same_but_attribute_refl F : same_but_attribute F F.
Proof. by repeat split. Qed.

Lemma same_but_attribute_addFnAttr F : same_but_attribute F (addFnAttr F).
Proof. by repeat split. Qed.

(** X1. The pass only ever adds the attribute. Whatever the switch says, a
    run that returns leaves the module with the same functions in the same
    places; every function has its name, linkage, users, calling convention
    and other attributes as before, and keeps the attribute if it had it;
    and a function that carried the attribute, or that has no machine
    function, is exactly as before. *)
Theorem runOnModule_only_adds_attribute PreserveNoneInfect MMI Num M b st :
  runOnModule PreserveNoneInfect MMI Num M = Ok (b, st) →
  length (Mod st) = length M ∧
  ∀ f F, M !! f = Some F →
    ∃ F', Mod st !! f = Some F' ∧ same_but_attribute F F' ∧
          (hasPreserveNoneAttr F = true ∨ MMI f = false → F' = F).
Proof.
  intros Hrun.
  assert (Hsame : Mod st = M →
    length (Mod st) = length M ∧
    ∀ f F, M !! f = Some F →
      ∃ F', Mod st !! f = Some F' ∧ same_but_attribute F F' ∧
            (hasPreserveNoneAttr F = true ∨ MMI f = false → F' = F)).
  { intros ->. split; [done|]. intros f F HF. exists F.
    split; [done|]. split; [apply same_but_attribute_refl|done]. }
  destruct PreserveNoneInfect;
    [|apply Hsame; unfold runOnModule in Hrun; simpl in Hrun; by injection Hrun as _ <-].
  apply runOnModule_Ok in Hrun as [(-> & _ & HM & _)|(_ & Hr & _ & _)];
    [by apply Hsame|].
  pose proof (Inv_reaches _ _ _ _ (Inv_initial MMI Num M) Hr) as HI.
  pose proof (have_MF_reaches _ _ _ (have_MF_initial MMI Num M) Hr) as [Hvis _].
  split; [apply (inv_length _ _ _ HI)|]. intros f F HF.
  destruct (inv_mod _ _ _ HI f F HF) as [HF'|(HF' & Ha & _ & Hin)].
  - exists F. split; [done|]. split; [apply same_but_attribute_refl|done].
  - exists (addFnAttr F). split; [done|].
    split; [apply same_but_attribute_addFnAttr|].
    intros [?|Hm]; [congruence|]. apply Hvis in Hin. congruence.
Qed.

Lemma runOnModule_only_adds_attribute_witness :
  ∃ b st, runOnModule true all_MF 0 chain_ABC = Ok (b, st) ∧
    length (Mod st) = 3 ∧
    ∃ F', Mod st !! 1 = Some F' ∧
          same_but_attribute (local_def "B" [CallBase 0 true]) F'.
Proof.
  destruct (runOnModule true all_MF 0 chain_ABC) as [[b st]|e] eqn:Hrun;
    [|by vm_compute in Hrun].
  exists b, st. split; [done|].
  destruct (runOnModule_only_adds_attribute _ _ _ _ _ _ Hrun) as [Hlen Hfun].
  split; [exact Hlen|].
  destruct (Hfun 1 (local_def "B" [CallBase 0 true]) eq_refl) as (F' & HF' & Hs & _).
  by exists F'.
Defined.

(** X2. What the infection of a function tells about it. A function that
    gets the attribute from the pass is infectable, is used by call
    instructions only, has a machine function, and contains a call
    instruction that uses a function which carries the attribute when the
    pass returns. *)
Theorem infected_function_is_caller PreserveNoneInfect MMI Num M b st f F F' :
  runOnModule PreserveNoneInfect MMI Num M = Ok (b, st) →
  M !! f = Some F → Mod st !! f = Some F' →
  hasPreserveNoneAttr F = false → hasPreserveNoneAttr F' = true →
  isInfectableFunc F = true ∧ forallb isa_CallBase (users F) = true ∧
  MMI f = true ∧
  ∃ g G isCallee, M !! g = Some G ∧ CallBase f isCallee ∈ users G ∧
                  attr_now (Mod st) g.
Proof.
  intros Hrun HF HF' Ha Ha'.
  destruct PreserveNoneInfect;
    [|unfold runOnModule in Hrun; simpl in Hrun; injection Hrun as _ <-;
      simpl in HF'; congruence].
  apply runOnModule_Ok in Hrun as [(-> & _)|(_ & Hr & HWL & _)];
    [by rewrite lookup_nil in HF|].
  pose proof (Inv_reaches _ _ _ _ (Inv_initial MMI Num M) Hr) as HI.
  pose proof (have_MF_reaches _ _ _ (have_MF_initial MMI Num M) Hr) as [Hmf _].
  pose proof (Inv_spread_reaches _ _ _ _ (Inv_initial MMI Num M)
                (Inv_spread_initial MMI Num M) Hr) as HS.
  destruct (inv_mod _ _ _ HI f F HF) as [Hsame|(_ & _ & Hrej & Hvis)];
    [congruence|].
  apply rejected_false in Hrej as [?|[Hinf Hcalls]]; [congruence|].
  split; [done|]. split; [done|]. split; [by apply Hmf|].
  pose proof (spread_visited _ _ _ HS f Hvis) as Hsp.
  destruct Hsp as [f F0 HF0 Ha0 _|g G f b0 Hg HG Hrej Hcb _]; [congruence|].
  exists g, G, b0. split; [done|]. split; [done|].
  pose proof (Spread_visited _ _ _ _ HI HWL Hg) as Hgv.
  by destruct (inv_expanded _ _ _ HI g G Hgv HG Hrej).
Qed.

Lemma infected_function_is_caller_witness :
  ∃ b st F',
    runOnModule true all_MF 0 chain_ABC = Ok (b, st) ∧
    Mod st !! 0 = Some F' ∧
    isInfectableFunc (local_def "A" []) = true ∧
    ∃ g G isCallee, chain_ABC !! g = Some G ∧ CallBase 0 isCallee ∈ users G ∧
                    attr_now (Mod st) g.
Proof.
  destruct (runOnModule true all_MF 0 chain_ABC) as [[b st]|e] eqn:Hrun;
    [|by vm_compute in Hrun].
  destruct (Mod st !! 0) as [F'|] eqn:HF';
    [|vm_compute in Hrun; injection Hrun as _ <-; by vm_compute in HF'].
  exists b, st, F'. split; [done|]. split; [done|].
  assert (Ha' : hasPreserveNoneAttr F' = true).
  { vm_compute in Hrun. injection Hrun as _ <-. vm_compute in HF'.
    by injection HF' as <-. }
  destruct (infected_function_is_caller _ _ _ _ _ _ 0 (local_def "A" []) F'
              Hrun eq_refl HF' eq_refl Ha') as (Hinf & _ & _ & Hcaller).
  done.
Defined.

(** X3. The functions that carry the attribute in the end. When the switch
    is on and the pass returns, the visited functions are exactly the
    functions the traversal comes to, and a function carries the attribute
    exactly when it carried it before or the traversal comes to it and does
    not reject it. *)
Theorem runOnModule_attributes_exactly MMI Num M b st :
  runOnModule true MMI Num M = Ok (b, st) →
  (∀ f, f ∈ VisitedMF st ↔ Spread MMI M f) ∧
  ∀ f F, M !! f = Some F →
    (attr_now (Mod st) f ↔
     hasPreserveNoneAttr F = true ∨ (Spread MMI M f ∧ rejected F = false)).
Proof.
  intros Hrun.
  apply runOnModule_Ok in Hrun as [(-> & _ & HM & HV & _)|(_ & Hr & HWL & _)].
  { split.
    - intros f. rewrite HV. split; [set_solver|].
      by intros ?%Spread_lookup.
    - intros f F HF. by rewrite lookup_nil in HF. }
  pose proof (Inv_reaches _ _ _ _ (Inv_initial MMI Num M) Hr) as HI.
  pose proof (Inv_spread_reaches _ _ _ _ (Inv_initial MMI Num M)
                (Inv_spread_initial MMI Num M) Hr) as HS.
  split.
  - intros f. split; [apply (spread_visited _ _ _ HS)|by apply Spread_visited].
  - intros f F HF. split.
    + intros (F' & HF' & Ha').
      destruct (inv_mod _ _ _ HI f F HF) as [Hsame|(_ & _ & Hrej & Hvis)].
      * left. congruence.
      * right. split; [by apply (spread_visited _ _ _ HS)|done].
    + intros [Ha|[Hsp Hrej]]; [by eapply Inv_attr_now|].
      pose proof (Spread_visited _ _ _ _ HI HWL Hsp) as Hvis.
      by destruct (inv_expanded _ _ _ HI f F Hvis HF Hrej).
Qed.

Lemma runOnModule_attributes_exactly_witness :
  ∃ b st, runOnModule true all_MF 0 chain_weak_B = Ok (b, st) ∧
    (1 ∈ VisitedMF st ↔ Spread all_MF chain_weak_B 1) ∧
    (attr_now (Mod st) 1 ↔
     hasPreserveNoneAttr (weak_def "B" [CallBase 0 true]) = true ∨
     (Spread all_MF chain_weak_B 1 ∧
      rejected (weak_def "B" [CallBase 0 true]) = false)).
Proof.
  destruct (runOnModule true all_MF 0 chain_weak_B) as [[b st]|e] eqn:Hrun;
    [|by vm_compute in Hrun].
  exists b, st. split; [done|].
  destruct (runOnModule_attributes_exactly _ _ _ _ _ Hrun) as [Hvis Hattr].
  split; [apply Hvis|]. by apply Hattr.
Defined.

(** ** When the pass returns *)

Lemma pushCallers_Ok_pushed MMI M V us : ∀ WL WL',
  pushCallers MMI M V us WL = Ok WL' →
  ∃ extra, WL' = WL ++ extra ∧
    ∀ p, p ∈ extra →
      ∃ c b C, CallBase c b ∈ us ∧ p = getMachineFunction MMI c ∧
               M !! c = Some C ∧ hasPreserveNoneAttr C = false.
Proof.
  induction us as [|U us IH]; intros WL WL' H; simpl in H.
  - injection H as <-. exists []. rewrite app_nil_r. split; [done|].
    intros p Hp. by apply elem_of_nil in Hp.
  - destruct U as [c0 b0|]; [|done].
    destruct (M !! c0) as [C0|] eqn:HC; [|done].
    destruct (negb (count V (getMachineFunction MMI c0)) &&
              negb (hasPreserveNoneAttr C0)) eqn:Hpush.
    + apply IH in H as (extra & -> & Hex).
      exists (getMachineFunction MMI c0 :: extra).
      rewrite <- app_assoc. split; [done|].
      intros p [->|Hp]%elem_of_cons.
      * apply andb_prop in Hpush as [_ Ha%negb_true_iff].
        exists c0, b0, C0. split; [left|done].
      * destruct (Hex p Hp) as (c & b & C & Hc & -> & ? & ?).
        exists c, b, C. split; [by right|done].
    + apply IH in H as (extra & -> & Hex). exists extra. split; [done|].
      intros p Hp. destruct (Hex p Hp) as (c & b & C & Hc & -> & ? & ?).
      exists c, b, C. split; [by right|done].
Qed.

Lemma Spread_lt MMI M f :
  accepted_ok MMI M → Spread MMI M f → f < length M.
Proof.
  intros Hok Hsp. destruct Hsp as [f F HF _ _|g G c b Hg HG Hrej Hcb _].
  - by eapply lookup_lt_Some.
  - destruct (Hok g G Hg HG Hrej) as [_ Hc].
    destruct (Hc c b Hcb) as (C & HC & _). by eapply lookup_lt_Some.
Qed.

Lemma iteration_succeeds_accepted MMI M0 MF rest st :
  accepted_ok MMI M0 → Inv MMI M0 st → Inv_spread MMI M0 st →
  None ∉ MFWorkList st → MFWorkList st = MF :: rest →
  ∃ st', iteration MMI MF rest st = Ok st' ∧ None ∉ MFWorkList st'.
Proof.
  intros Hok HI HS Hnn HWL.
  destruct MF as [f|]; [|exfalso; apply Hnn; rewrite HWL; left].
  assert (Hrest : None ∉ rest).
  { intros Hin. apply Hnn. rewrite HWL. by right. }
  assert (Hsp : Spread MMI M0 f).
  { apply (spread_worklist _ _ _ HS). rewrite HWL. left. }
  pose proof (Spread_lt _ _ _ Hok Hsp) as Hlt.
  rewrite <- (inv_length _ _ _ HI) in Hlt.
  destruct (lookup_lt_is_Some_2 _ _ Hlt) as [F HF].
  unfold iteration. rewrite HF. simpl.
  case_bool_decide as Hvis; [by eauto|].
  destruct (rejected F) eqn:Hrej; [by eauto|].
  pose proof (Inv_lookup_unvisited _ _ _ _ _ HI HF Hvis) as HF0.
  destruct (Hok f F Hsp HF0 Hrej) as [Hcalls Hcallers].
  destruct (pushCallers_succeeds MMI (Mod st) ({[f]} ∪ VisitedMF st) (users F) rest)
    as [WL HWL']; [done| |].
  { intros c b Hcb. rewrite (inv_length _ _ _ HI).
    destruct (Hcallers c b Hcb) as (C & HC & _). by eapply lookup_lt_Some. }
  rewrite HWL'. simpl. eexists. split; [done|].
  apply pushCallers_Ok_pushed in HWL' as (extra & -> & Hex).
  assert (Hall : None ∉ rest ++ extra).
  { intros [?|Hin]%elem_of_app; [done|].
    destruct (Hex None Hin) as (c & b & C & Hcb & Hnull & HC & Ha).
    destruct (Hcallers c b Hcb) as (C0 & HC0 & [Ha0|Hm]).
    - destruct (Inv_attr_now _ _ _ _ _ HI HC0 Ha0) as (C' & HC' & Ha').
      congruence.
    - unfold getMachineFunction in Hnull. by rewrite Hm in Hnull. }
  unfold infect. by destruct (negb _).
Qed.

Lemma worklist_loop_succeeds_accepted MMI M0 fuel : ∀ st,
  accepted_ok MMI M0 → Inv MMI M0 st → Inv_spread MMI M0 st →
  None ∉ MFWorkList st → measure st < fuel →
  ∃ st', worklist_loop MMI fuel st = Ok st'.
Proof.
  induction fuel as [|fuel IH]; intros st Hok HI HS Hnn Hfuel; [lia|].
  simpl. destruct (MFWorkList st) as [|MF rest] eqn:HWL; [by eauto|].
  destruct (iteration_succeeds_accepted MMI M0 MF rest st) as (st1 & Hit & Hnn1);
    [done..|by rewrite HWL|done|].
  rewrite Hit. simpl. apply IH; [done| | |done|].
  - by eapply Inv_iteration.
  - by eapply Inv_spread_iteration.
  - pose proof (iteration_measure _ _ _ _ _ HWL Hit). lia.
Qed.

Lemma seeds_not_null MMI M : ∀ i, None ∉ seeds MMI i M.
Proof.
  intros i Hin. by destruct (seeds_MF _ _ _ _ Hin) as (g & ? & _).
Qed.

Lemma accepted_ok_of_Ok MMI Num M b st :
  runOnModule true MMI Num M = Ok (b, st) → accepted_ok MMI M.
Proof.
  intros Hrun f F Hsp HF Hrej.
  apply runOnModule_Ok in Hrun as [(-> & _)|(_ & Hr & HWL & _)];
    [by rewrite lookup_nil in HF|].
  pose proof (Inv_reaches _ _ _ _ (Inv_initial MMI Num M) Hr) as HI.
  pose proof (Inv_spread_reaches _ _ _ _ (Inv_initial MMI Num M)
                (Inv_spread_initial MMI Num M) Hr) as HS.
  pose proof (Spread_visited _ _ _ _ HI HWL Hsp) as Hvis.
  destruct (spread_calls _ _ _ HS f F Hvis HF Hrej) as [Hcalls Hlt].
  split; [done|]. intros c b0 Hcb.
  destruct (lookup_lt_is_Some_2 M c (Hlt c b0 Hcb)) as [C HC].
  exists C. split; [done|].
  destruct (hasPreserveNoneAttr C) eqn:Ha; [by left|]. right.
  destruct (MMI c) eqn:Hm; [done|]. exfalso.
  destruct (caller_without_MF_faults _ _ _ _ _ _ _ _ _ Hr Hvis HF Hrej Hcb HC Ha Hm)
    as [Hnull _].
  rewrite HWL in Hnull. by apply elem_of_nil in Hnull.
Qed.

Lemma Ok_of_accepted_ok MMI Num M :
  accepted_ok MMI M → ∃ b st, runOnModule true MMI Num M = Ok (b, st).
Proof.
  intros Hok. unfold runOnModule. cbn [negb].
  case_bool_decide; [by eexists _, _|].
  destruct (worklist_loop_succeeds_accepted MMI M (budget M) (initial MMI Num M))
    as [st Hloop];
    [done|apply Inv_initial|apply Inv_spread_initial|apply seeds_not_null
    |apply measure_initial|].
  rewrite Hloop. cbn [bind]. by eexists _, _.
Qed.

Lemma runOnModule_not_OutOfFuel flag MMI Num M :
  runOnModule flag MMI Num M ≠ Err OutOfFuel.
Proof.
  unfold runOnModule. destruct flag; [|done]. cbn [negb].
  case_bool_decide; [done|].
  destruct (worklist_loop MMI (budget M) (initial MMI Num M))
    as [st|e] eqn:Hrun; cbn [bind]; [done|].
  intros [= ->]. revert Hrun. apply worklist_loop_fuel. apply measure_initial.
Qed.

(** X4. The modules on which the pass runs without a fault. With the switch
    on, a run of [runOnModule] is free of faults, that is, it applies
    [cast<CallBase>] to no user that is not a call instruction,
    dereferences no null machine function, and returns, exactly when every
    function the traversal comes to and does not reject is used by call
    instructions only, each in a function of the module that carries the
    attribute or has a machine function. So a run is not free of faults
    whenever a function that carries the attribute and has a machine
    function has a user that is not a call: such a function skips the test
    of its users, and every user is cast. What a fault leads to depends on
    the build: with assertions the failed cast ends the run, which is what
    the embedding follows; without them the cast is not checked and what
    the run does after it is not defined. *)
Theorem runOnModule_fault_free_iff MMI Num M :
  (fault_free (runOnModule true MMI Num M) ↔ accepted_ok MMI M) ∧
  ∀ f F, M !! f = Some F → hasPreserveNoneAttr F = true → MMI f = true →
         OtherUser ∈ users F →
         ¬ fault_free (runOnModule true MMI Num M) ∧
         ∃ e, runOnModule true MMI Num M = Err e ∧ e ≠ OutOfFuel.
Proof.
  assert (Hfault : ∀ f F, M !! f = Some F → hasPreserveNoneAttr F = true →
            MMI f = true → OtherUser ∈ users F →
            ¬ fault_free (runOnModule true MMI Num M)).
  { intros f F HF Ha Hm Hother [[b st] Hrun].
    destruct (accepted_ok_of_Ok _ _ _ _ _ Hrun f F) as [Hcalls _].
    - by eapply Spread_seed.
    - done.
    - apply not_rejected. by left.
    - rewrite forallb_forall in Hcalls. specialize (Hcalls OtherUser).
      rewrite <- list_elem_of_In in Hcalls. by specialize (Hcalls Hother). }
  split; [split|].
  - intros [[b st] Hrun]. by eapply accepted_ok_of_Ok.
  - intros Hok. destruct (Ok_of_accepted_ok MMI Num M Hok) as (b & st & Hrun).
    by exists (b, st).
  - intros f F HF Ha Hm Hother.
    pose proof (Hfault f F HF Ha Hm Hother) as Hno. split; [done|].
    pose proof (runOnModule_not_OutOfFuel true MMI Num M) as Hfuel.
    destruct (runOnModule true MMI Num M) as [r|e].
    + exfalso. apply Hno. by exists r.
    + exists e. split; [done|]. by intros ->.
Qed.

Lemma runOnModule_fault_free_iff_witness :
  runOnModule true all_MF 0 address_taken_seed = Err CastFailure ∧
  ¬ fault_free (runOnModule true all_MF 0 address_taken_seed).
Proof.
  split; [vm_compute; reflexivity|].
  destruct (runOnModule_fault_free_iff all_MF 0 address_taken_seed) as [_ Hfault].
  apply (Hfault 0 (preserve_none_def "S" [CallBase 1 true; OtherUser]));
    try reflexivity.
  right. left.
Defined.

(** ** The statistic *)

Lemma count_infected_refl M : count_infected M M = 0.
Proof.
  induction M as [|F M IH]; [done|]. simpl. rewrite IH.
  by destruct (hasPreserveNoneAttr F).
Qed.

Lemma count_infected_le M0 : ∀ M, count_infected M0 M ≤ length M0.
Proof.
  induction M0 as [|F M0 IH]; intros [|F' M]; simpl; try lia.
  specialize (IH M). destruct (_ && _); lia.
Qed.

Lemma count_infected_insert M0 : ∀ M f F,
  M0 !! f = Some F → M !! f = Some F → hasPreserveNoneAttr F = false →
  count_infected M0 (<[f := addFnAttr F]> M) = S (count_infected M0 M).
Proof.
  induction M0 as [|F0 M0 IH]; intros [|F' M] f F HF0 HF Ha; try done.
  destruct f as [|f]; simpl in *.
  - injection HF0 as ->. injection HF as ->. by rewrite Ha.
  - rewrite (IH M f F) by done. lia.
Qed.

Lemma count_infected_pos M0 : ∀ M,
  0 < count_infected M0 M ↔
  ∃ f F F', M0 !! f = Some F ∧ M !! f = Some F' ∧
            hasPreserveNoneAttr F = false ∧ hasPreserveNoneAttr F' = true.
Proof.
  induction M0 as [|F0 M0 IH]; intros [|F1 M]; simpl.
  - split; [lia|]. by intros (f & F & F' & ? & _).
  - split; [lia|]. by intros (f & F & F' & ? & _).
  - split; [lia|]. by intros (f & F & F' & _ & ? & _).
  - split.
    + intros Hpos.
      destruct (negb (hasPreserveNoneAttr F0) && hasPreserveNoneAttr F1) eqn:Hh.
      * apply andb_prop in Hh as [Ha%negb_true_iff Ha'].
        by exists 0, F0, F1.
      * apply IH in Hpos as (f & F & F' & ? & ? & ? & ?).
        by exists (S f), F, F'.
    + intros ([|f] & F & F' & HF & HF' & Ha & Ha'); simpl in *.
      * injection HF as ->. injection HF' as ->. rewrite Ha, Ha'. simpl. lia.
      * assert (0 < count_infected M0 M) by (apply IH; by exists f, F, F'). lia.
Qed.

Lemma counted_initial MMI Num M : counted Num M (initial MMI Num M).
Proof. unfold counted. simpl. by rewrite count_infected_refl. Qed.

Lemma counted_iteration MMI Num M0 MF rest st st' :
  Inv MMI M0 st → counted Num M0 st → MFWorkList st = MF :: rest →
  iteration MMI MF rest st = Ok st' → counted Num M0 st'.
Proof.
  intros HI Hc HWL (f & F & -> & HF & Hspec)%iteration_Ok. unfold counted in *.
  destruct Hspec as [Hin|Hnew Hrej|WL Hnew Hrej Hpush]; simpl; [done..|].
  pose proof (Inv_lookup_unvisited _ _ _ _ _ HI HF Hnew) as HF0.
  unfold infect. destruct (hasPreserveNoneAttr F) eqn:Ha; simpl; [done|].
  rewrite (count_infected_insert M0 (Mod st) f F) by done. simpl. by rewrite Hc.
Qed.

Lemma counted_reaches MMI Num M0 st st' :
  Inv MMI M0 st → counted Num M0 st → reaches MMI st st' → counted Num M0 st'.
Proof.
  intros HI Hc Hr. induction Hr as [|st MF rest st1 st2 HWL Hit _ IH]; [done|].
  apply IH; [by eapply Inv_iteration|by eapply counted_iteration].
Qed.

Lemma iter_stat_incr n Num :
  (0 ≤ Num < 2 ^ 64)%Z →
  Nat.iter n stat_incr Num = ((Num + Z.of_nat n) mod 2 ^ 64)%Z.
Proof.
  intros HNum. induction n as [|n IH].
  - simpl. rewrite Z.add_0_r. by rewrite Z.mod_small.
  - rewrite Nat.iter_succ, IH. unfold stat_incr.
    rewrite Zplus_mod_idemp_l. f_equal. lia.
Qed.

(** X5. What the statistic and the result say, in a build that counts
    statistics (one with assertions, or with the statistics forced on),
    which is the build the embedding follows. With the switch on, a run
    that returns has added to the statistic, modulo 2^64, the number of
    functions it has given the attribute to. So when the statistic was 0
    before (and the module has fewer than 2^64 functions), the pass returns
    true exactly when it has given the attribute to some function. *)
Theorem runOnModule_counts_infected MMI Num M b st :
  runOnModule true MMI Num M = Ok (b, st) →
  (0 ≤ Num < 2 ^ 64)%Z →
  NumPreserveNoneInfected st =
    ((Num + Z.of_nat (count_infected M (Mod st))) mod 2 ^ 64)%Z ∧
  (Num = 0%Z → (Z.of_nat (length M) < 2 ^ 64)%Z →
   (b = true ↔
    ∃ f F F', M !! f = Some F ∧ Mod st !! f = Some F' ∧
              hasPreserveNoneAttr F = false ∧ hasPreserveNoneAttr F' = true)).
Proof.
  intros Hrun HNum.
  apply runOnModule_Ok in Hrun as [(-> & -> & HM & _ & HN)|(_ & Hr & _ & ->)].
  - rewrite HM, HN. simpl. rewrite Z.add_0_r, Z.mod_small by done.
    split; [done|]. intros _ _. split; [done|].
    by intros (f & F & F' & ? & _).
  - pose proof (counted_reaches _ _ _ _ _ (Inv_initial MMI Num M)
                  (counted_initial MMI Num M) Hr) as Hc.
    unfold counted in Hc. rewrite iter_stat_incr in Hc by done.
    split; [done|]. intros -> Hlen. rewrite <- count_infected_pos.
    pose proof (count_infected_le M (Mod st)).
    rewrite Hc, Z.add_0_l, Z.mod_small by lia.
    rewrite bool_decide_eq_true. lia.
Qed.

Lemma runOnModule_counts_infected_witness :
  ∃ st, runOnModule true all_MF 0 chain_ABC = Ok (true, st) ∧
        NumPreserveNoneInfected st = 2%Z ∧
        ∃ f F F', chain_ABC !! f = Some F ∧ Mod st !! f = Some F' ∧
                  hasPreserveNoneAttr F = false ∧ hasPreserveNoneAttr F' = true.
Proof.
  destruct (runOnModule true all_MF 0 chain_ABC) as [[b st]|e] eqn:Hrun;
    [|by vm_compute in Hrun].
  destruct (runOnModule_counts_infected _ _ _ _ _ Hrun) as [HN Hb]; [lia|].
  assert (Hst : b = true ∧ count_infected chain_ABC (Mod st) = 2).
  { vm_compute in Hrun. by injection Hrun as <- <-. }
  destruct Hst as [-> Hk]. exists st. split; [done|].
  split; [by rewrite HN, Hk|]. apply Hb; [done|simpl; lia|done].
Defined.

(** ** Running the pass again *)

Lemma Spread_second_run MMI M0 st f :
  Inv MMI M0 st → Inv_spread MMI M0 st →
  Spread MMI (Mod st) f → Spread MMI M0 f.
Proof.
  intros HI HS Hsp.
  assert (Hback : ∀ g G', Mod st !! g = Some G' →
    ∃ G, M0 !! g = Some G ∧ users G = users G' ∧
         (rejected G' = false → rejected G = false) ∧
         (G' = G ∨ g ∈ VisitedMF st)).
  { intros g G' HG'.
    destruct (lookup_lt_is_Some_2 M0 g) as [G HG].
    { rewrite <- (inv_length _ _ _ HI). by eapply lookup_lt_Some. }
    exists G. split; [done|].
    destruct (inv_mod _ _ _ HI g G HG) as [Hsame|(Hadd & _ & Hrej & Hvis)].
    - assert (G' = G) as -> by congruence. by eauto.
    - assert (G' = addFnAttr G) as -> by congruence. by eauto. }
  induction Hsp as [f F' HF' Ha' Hm|g G' c b _ IH HG' Hrej Hcb Hm].
  - destruct (Hback f F' HF') as (F & HF & _ & _ & [->|Hvis]).
    + by eapply Spread_seed.
    + by apply (spread_visited _ _ _ HS).
  - destruct (Hback g G' HG') as (G & HG & Hus & Hr & _).
    eapply Spread_caller; [exact IH|exact HG|by apply Hr|by rewrite Hus|done].
Qed.

Lemma accepted_ok_second_run MMI M0 st :
  Inv MMI M0 st → Inv_spread MMI M0 st →
  accepted_ok MMI M0 → accepted_ok MMI (Mod st).
Proof.
  intros HI HS Hok f F' Hsp HF' Hrej.
  pose proof (Spread_second_run _ _ _ _ HI HS Hsp) as Hsp0.
  destruct (lookup_lt_is_Some_2 M0 f) as [F HF].
  { rewrite <- (inv_length _ _ _ HI). by eapply lookup_lt_Some. }
  assert (HFF : users F = users F' ∧ rejected F = false).
  { destruct (inv_mod _ _ _ HI f F HF) as [Hsame|(Hadd & _ & Hr & _)].
    - assert (F' = F) as -> by congruence. done.
    - assert (F' = addFnAttr F) as -> by congruence. done. }
  destruct HFF as [Hus Hrej0].
  destruct (Hok f F Hsp0 HF Hrej0) as [Hcalls Hcallers].
  rewrite <- Hus. split; [done|]. intros c b Hcb.
  destruct (Hcallers c b Hcb) as (C & HC & Hor).
  destruct (inv_mod _ _ _ HI c C HC) as [Hsame|(Hadd & _)].
  - by exists C.
  - exists (addFnAttr C). split; [done|]. by left.
Qed.

(** X6. Running the pass again changes nothing. When the pass, with the
    switch on, has returned, running it on the module it has left returns
    too, whatever the statistic is by then, leaves every function as it is
    and does not touch the statistic. *)
Theorem runOnModule_again_changes_nothing MMI Num M b st Num' :
  runOnModule true MMI Num M = Ok (b, st) →
  ∃ b' st', runOnModule true MMI Num' (Mod st) = Ok (b', st') ∧
            Mod st' = Mod st ∧ NumPreserveNoneInfected st' = Num'.
Proof.
  intros Hrun.
  pose proof (accepted_ok_of_Ok _ _ _ _ _ Hrun) as Hok.
  apply runOnModule_Ok in Hrun as [(-> & _ & HM & _)|(_ & Hr & HWL & _)].
  { rewrite HM. by eexists _, _. }
  pose proof (Inv_reaches _ _ _ _ (Inv_initial MMI Num M) Hr) as HI.
  pose proof (Inv_spread_reaches _ _ _ _ (Inv_initial MMI Num M)
                (Inv_spread_initial MMI Num M) Hr) as HS.
  destruct (Ok_of_accepted_ok MMI Num' (Mod st)) as (b' & st' & Hrun');
    [by apply (accepted_ok_second_run MMI M)|].
  exists b', st'. split; [done|].
  apply runOnModule_Ok in Hrun' as [(HM' & _ & HM'' & _ & HN)|(_ & Hr' & _ & _)];
    [by rewrite HM', HM''|].
  pose proof (Inv_reaches _ _ _ _ (Inv_initial MMI Num' (Mod st)) Hr') as HI'.
  pose proof (Inv_spread_reaches _ _ _ _ (Inv_initial MMI Num' (Mod st))
                (Inv_spread_initial MMI Num' (Mod st)) Hr') as HS'.
  assert (Hmod : Mod st' = Mod st).
  { apply list_eq. intros f.
    destruct (Mod st !! f) as [F'|] eqn:HF'.
    - destruct (inv_mod _ _ _ HI' f F' HF') as [?|(_ & Ha' & Hrej' & Hvis')];
        [done|]. exfalso.
      pose proof (spread_visited _ _ _ HS' f Hvis') as Hsp'.
      pose proof (Spread_second_run _ _ _ _ HI HS Hsp') as Hsp.
      pose proof (Spread_visited _ _ _ _ HI HWL Hsp) as Hvis.
      destruct (lookup_lt_is_Some_2 M f) as [F HF].
      { rewrite <- (inv_length _ _ _ HI). by eapply lookup_lt_Some. }
      destruct (inv_mod _ _ _ HI f F HF) as [Hsame|(Hadd & _)].
      + assert (F' = F) as -> by congruence.
        destruct (inv_expanded _ _ _ HI f F Hvis HF Hrej') as [(F1 & HF1 & Ha1) _].
        congruence.
      + assert (F' = addFnAttr F) as -> by congruence. done.
    - apply lookup_ge_None in HF'. apply lookup_ge_None.
      by rewrite (inv_length _ _ _ HI'). }
  split; [done|].
  pose proof (counted_reaches _ _ _ _ _ (Inv_initial MMI Num' (Mod st))
                (counted_initial MMI Num' (Mod st)) Hr') as Hc.
  unfold counted in Hc. by rewrite Hmod, count_infected_refl in Hc.
Qed.

Lemma runOnModule_again_changes_nothing_witness :
  ∃ b st b' st',
    runOnModule true all_MF 0 cyclic = Ok (b, st) ∧
    runOnModule true all_MF 7 (Mod st) = Ok (b', st') ∧
    Mod st' = Mod st ∧ NumPreserveNoneInfected st' = 7%Z.
Proof.
  destruct (runOnModule true all_MF 0 cyclic) as [[b st]|e] eqn:Hrun;
    [|by vm_compute in Hrun].
  destruct (runOnModule_again_changes_nothing all_MF 0 cyclic b st 7 Hrun)
    as (b' & st' & Hrun' & Hmod & HN).
  by exists b, st, b', st'.
Defined.

(** * More about the registry *)

Section more_registry.
Local Open Scope string_scope.
Local Open Scope list_scope.

(** ** The writer and the file *)

Lemma grown_at_refl path fs : grown_at path fs fs.
Proof.
  split; [exists ""; by rewrite append_nil_r|]. split; [|done].
  intros file Hfile. by exists file.
Qed.

Lemma grown_at_trans path fs1 fs2 fs3 :
  grown_at path fs1 fs2 → grown_at path fs2 fs3 → grown_at path fs1 fs3.
Proof.
  intros ([s1 H1] & Hk1 & Ho1) ([s2 H2] & Hk2 & Ho2). split; [|split].
  - exists (s1 +:+ s2). by rewrite H2, H1, append_assoc.
  - intros file Hfile. destruct (Hk1 file Hfile) as (file' & Hfile' & Hiff).
    destruct (Hk2 file' Hfile') as (file'' & Hfile'' & Hiff').
    exists file''. split; [done|]. by rewrite Hiff.
  - intros p Hp. by rewrite Ho2, Ho1.
Qed.

Lemma grown_at_open_append path fs : grown_at path fs (open_append fs path).
Proof.
  split; [|split].
  - exists "". by rewrite content_of_open_append, append_nil_r.
  - intros file Hfile. exists file. rewrite open_append_lookup, Hfile. done.
  - intros p Hp. unfold open_append. destruct (fs !! path); [done|].
    by rewrite lookup_insert_ne.
Qed.

Lemma grown_at_append path fs data : grown_at path fs (append fs path data).
Proof.
  unfold append. destruct (fs !! path) as [[content|]|] eqn:Hfs;
    try apply grown_at_refl.
  split; [|split].
  - exists data. unfold content_of. by rewrite lookup_insert_eq, Hfs.
  - intros file Hfile. rewrite lookup_insert_eq.
    exists (Regular (content +:+ data)). split; [done|].
    assert (file = Regular content) as -> by congruence. done.
  - intros p Hp. by rewrite lookup_insert_ne.
Qed.

Lemma WritePreserveNoneList_grown_at path env F this fs :
  grown_at path fs (WritePreserveNoneList path env F this fs).2.
Proof.
  unfold_writer.
  destruct (isDeclaration F); [apply grown_at_refl|].
  case_bool_decide; [apply grown_at_refl|].
  destruct (_ && _ && _); [apply grown_at_refl|].
  destruct (negb (stream_opens env)); [apply grown_at_refl|].
  assert (Hopen2 : grown_at path fs
                     (open_append (open_append fs path) path)).
  { rewrite open_append_idemp. apply grown_at_open_append. }
  destruct (opened_fd env); [|apply grown_at_open_append].
  destruct (negb (lock_ok env)); [done|].
  assert (Hw : grown_at path fs
    (append (open_append (open_append fs path) path) path
       (getName F +:+ newline))).
  { eapply grown_at_trans; [exact Hopen2|apply grown_at_append]. }
  by destruct (negb (unlock_ok env)), (write_ok env).
Qed.

Lemma WritePreserveNoneList_set path env F this fs :
  FuncNameSet (WritePreserveNoneList path env F this fs).1.2 =
  (if isDeclaration F then ∅ else {[getName F]}) ∪ FuncNameSet this.
Proof.
  unfold_writer.
  destruct (isDeclaration F); [simpl; set_solver|].
  case_bool_decide; [simpl; set_solver|].
  destruct (_ && _ && _); [done|].
  destruct (negb (stream_opens env)); [done|].
  destruct (opened_fd env); [|done].
  destruct (negb (lock_ok env)); [done|].
  by destruct (negb (unlock_ok env)), (write_ok env).
Qed.

(** A sequence of calls goes on until a call ends the process. *)
Lemma write_seq_made path calls : ∀ this fs,
  let r := write_seq path calls this fs in
  calls_made calls r.1.1 = calls ∨ FatalError ∈ r.1.1.
Proof.
  induction calls as [|[env F] calls IH]; intros this fs; simpl; [by left|].
  destruct (WritePreserveNoneList path env F this fs) as [[e this1] fs1].
  destruct e as [b|]; [|right; simpl; left].
  specialize (IH this1 fs1).
  destruct (write_seq path calls this1 fs1) as [[es this2] fs2]. simpl in *.
  destruct IH as [IH|IH]; [left|right; by right].
  unfold calls_made in *. simpl. by rewrite IH.
Qed.

(** X7. The writer only appends. Whatever the operating system answers,
    after any sequence of calls of the writer, also one that a failed
    write has ended, the file at the path is still there if it was, is
    regular if it was, and has its old content at the start of the new
    one; every other path is untouched; and the dedup set holds, besides
    what it held, the names of all the definitions the writer was called
    on, written or not, and of no declaration. Every call of the sequence
    is made unless one has ended the process. *)
Theorem write_seq_only_appends path calls : ∀ this fs,
  let r := write_seq path calls this fs in
  grown_at path fs r.2 ∧
  FuncNameSet r.1.2 =
    definition_names (calls_made calls r.1.1).*2 ∪ FuncNameSet this ∧
  (calls_made calls r.1.1 = calls ∨ FatalError ∈ r.1.1).
Proof.
  intros this fs r. split; [|split; [|apply write_seq_made]]; subst r;
    revert this fs.
  - induction calls as [|[env F] calls IH]; intros this fs; simpl;
      [apply grown_at_refl|].
    pose proof (WritePreserveNoneList_grown_at path env F this fs) as Hg.
    destruct (WritePreserveNoneList path env F this fs) as [[e this1] fs1].
    destruct e as [b|]; [|done].
    specialize (IH this1 fs1).
    destruct (write_seq path calls this1 fs1) as [[es this2] fs2].
    simpl in *. by eapply grown_at_trans.
  - induction calls as [|[env F] calls IH]; intros this fs; simpl.
    { unfold definition_names, calls_made. simpl. set_solver. }
    pose proof (WritePreserveNoneList_set path env F this fs) as Hs.
    destruct (WritePreserveNoneList path env F this fs) as [[e this1] fs1].
    assert (Hone : ∀ rest : list Function,
      definition_names (F :: rest) ∪ FuncNameSet this =
      definition_names rest ∪ FuncNameSet this1).
    { intros rest. simpl in Hs. rewrite Hs. unfold definition_names.
      rewrite filter_cons.
      destruct (isDeclaration F); case_decide; try done; simpl; set_solver. }
    destruct e as [b|].
    + specialize (IH this1 fs1).
      destruct (write_seq path calls this1 fs1) as [[es this2] fs2].
      simpl in *. unfold calls_made in *. simpl. by rewrite Hone.
    + simpl. unfold calls_made. simpl. rewrite ?take_0.
      rewrite Hone. unfold definition_names. simpl. set_solver.
Qed.

Lemma writes_ok_parts env :
  writes_ok env = true →
  stream_opens env = true ∧ (∃ fd, opened_fd env = Some fd) ∧
  lock_ok env = true ∧ write_ok env = true ∧ unlock_ok env = true.
Proof.
  unfold writes_ok.
  intros [[[[Hs Hfd]%andb_prop Hl]%andb_prop Hw]%andb_prop Hu]%andb_prop.
  by apply bool_decide_eq_true in Hfd as [fd Hfd]; eauto 10.
Qed.

(** X8. What the file holds after the writer has run. When every call goes
    through and the path does not name something that is not a regular
    file, every call of a sequence of calls of the writer returns; it
    returns true exactly on the calls that find a definition whose name the
    dedup set does not hold yet, and the sequence appends to the file the
    names these calls find, in the order of the calls, one per line: a
    name is written once, and a declaration never. *)
Theorem write_seq_appends_new_names path calls : ∀ this fs,
  Forall (fun call => writes_ok call.1 = true) calls →
  fs !! path ≠ Some NonRegular →
  let r := write_seq path calls this fs in
  r.1.1 = Returns <$> is_new (FuncNameSet this) calls.*2 ∧
  content_of r.2 path =
    content_of fs path +:+ lines_of (new_names (FuncNameSet this) calls.*2).
Proof.
  induction calls as [|[env F] calls IH]; intros this fs Hok Hreg; simpl.
  { split; [done|]. by rewrite append_nil_r. }
  apply Forall_cons in Hok as [Henv Hok]. simpl in Henv.
  destruct (isDeclaration F) eqn:HF.
  { rewrite WritePreserveNoneList_declaration by done.
    specialize (IH this fs Hok Hreg).
    destruct (write_seq path calls this fs) as [[bs this2] fs2]. simpl in *.
    destruct IH as [-> ->]. done. }
  case_bool_decide as Hin.
  { rewrite WritePreserveNoneList_known by done.
    specialize (IH this fs Hok Hreg).
    destruct (write_seq path calls this fs) as [[bs this2] fs2]. simpl in *.
    destruct IH as [-> ->]. done. }
  destruct (writes_ok_parts env Henv) as (Hs & [fd Hfd] & Hl & Hw & Hu).
  rewrite (WritePreserveNoneList_appends path env F this fs fd) by done.
  set (fs1 := <[path := Regular (content_of fs path +:+ getName F +:+ newline)]>
                (open_append fs path)).
  assert (Hreg1 : fs1 !! path ≠ Some NonRegular).
  { unfold fs1. by rewrite lookup_insert_eq. }
  specialize (IH {| FD := fd; FuncNameSet := {[getName F]} ∪ FuncNameSet this |}
                fs1 Hok Hreg1).
  destruct (write_seq path calls _ fs1) as [[bs this2] fs2]. simpl in *.
  destruct IH as [-> ->]. split; [done|].
  unfold fs1, content_of at 1. rewrite lookup_insert_eq.
  by rewrite !append_assoc.
Qed.

Lemma write_seq_appends_new_names_witness :
  let calls := [(all_ok, local_def "b" []); (all_ok, declaration "d");
                (all_ok, local_def "a" []); (all_ok, local_def "b" [])] in
  let r := write_seq "reg" calls new_pass no_files in
  r.1.1 = [Returns true; Returns false; Returns true; Returns false] ∧
  content_of r.2 "reg" = "b" +:+ newline +:+ "a" +:+ newline.
Proof.
  intros calls r.
  destruct (write_seq_appends_new_names "reg" calls new_pass no_files)
    as [Hbs Hcontent]; [by repeat constructor|done|].
  split; [exact Hbs|exact Hcontent].
Defined.

(** X9. The result of the writer does not tell whether the line is in the
    file. When a call for a definition with a new name has opened the file
    and taken the lock, it returns exactly when the write of the line, made
    as the stream is destroyed, succeeds; the line is then at the end of
    the file whatever the call returns, and what it returns is whether the
    lock could be released: a call that fails to release the lock returns
    false with the line written, and the name is in the dedup set, so that
    no later call writes it again. When the write fails the process ends
    in a fatal error and the file has no new line. *)
Theorem WritePreserveNoneList_result_and_effect path env F this fs fd :
  isDeclaration F = false → getName F ∉ FuncNameSet this →
  fs !! path ≠ Some NonRegular →
  stream_opens env = true → opened_fd env = Some fd → lock_ok env = true →
  let r := WritePreserveNoneList path env F this fs in
  r.1.1 = (if write_ok env then Returns (unlock_ok env) else FatalError) ∧
  content_of r.2 path =
    content_of fs path +:+
    (if write_ok env then getName F +:+ newline else "") ∧
  (∀ Changed, r.1.1 = Returns Changed →
     content_of r.2 path = content_of fs path +:+ getName F +:+ newline) ∧
  getName F ∈ FuncNameSet r.1.2 ∧ FD r.1.2 = fd.
Proof.
  intros HF Hnew Hreg Hs Hfd Hl. unfold_writer.
  rewrite HF, bool_decide_eq_false_2 by done.
  assert (Hcheck : exists_ fs path && negb (is_regular_file fs path) = false).
  { unfold exists_, is_regular_file.
    destruct (fs !! path) as [[c|]|] eqn:Hfs; [by rewrite andb_false_r|done|].
    rewrite bool_decide_eq_false_2; [done|]. by intros [? ?]. }
  rewrite <- andb_assoc, Hcheck, andb_false_r, Hs, Hfd, Hl. simpl.
  rewrite open_append_idemp.
  assert (Hc : content_of
                 (append (open_append fs path) path (getName F +:+ newline))
                 path = content_of fs path +:+ getName F +:+ newline).
  { unfold append, content_of. rewrite open_append_lookup.
    destruct (fs !! path) as [[c|]|]; [|done|]; by rewrite lookup_insert_eq. }
  destruct (unlock_ok env), (write_ok env); simpl;
    rewrite ?content_of_open_append, ?append_nil_r;
    (split; [done|]); (split; [done|]); (split; [done|]);
    (split; [set_solver|done]).
Qed.

Lemma WritePreserveNoneList_result_and_effect_witness :
  let F := local_def "f" [] in
  let r := WritePreserveNoneList "reg" unlock_fails F new_pass no_files in
  r.1.1 = Returns false ∧ content_of r.2 "reg" = "f" +:+ newline ∧
  (WritePreserveNoneList "reg" all_ok F r.1.2 r.2).1.1 = Returns false ∧
  (WritePreserveNoneList "reg" write_fails F new_pass no_files).1.1
    = FatalError.
Proof.
  intros F r.
  destruct (WritePreserveNoneList_result_and_effect "reg" unlock_fails F
              new_pass no_files 3) as (Hres & Hcontent & _ & Hin & _);
    [reflexivity|set_solver|done|reflexivity..|].
  destruct (WritePreserveNoneList_result_and_effect "reg" write_fails F
              new_pass no_files 3) as (Hfatal & _);
    [reflexivity|set_solver|done|reflexivity..|].
  split; [exact Hres|]. split; [exact Hcontent|].
  split; [by rewrite WritePreserveNoneList_known|exact Hfatal].
Defined.

(** ** The loader and the functions *)

Lemma addFnAttr_attributed F :
  attr_no_callee_saved_registers F = true → addFnAttr F = F.
Proof. destruct F. simpl. by intros ->. Qed.

(** X10. What the loader reports. A call of the loader returns true exactly
    when the function is a definition whose name is in the Name Set after
    the call; the function then has the attribute added and is otherwise as
    before, and when the call returns false it is as before altogether. The
    call returns true also for a function that carried the attribute
    already, which it leaves as it is. The loader never touches [FD]. *)
Theorem LoadPreserveNoneList_reports path env F this fs :
  let r := LoadPreserveNoneList path env F this fs in
  (r.1.1 = true ↔ isDeclaration F = false ∧ getName F ∈ FuncNameSet r.1.2) ∧
  r.2 = (if r.1.1 then addFnAttr F else F) ∧
  same_but_attribute F r.2 ∧
  (attr_no_callee_saved_registers F = true → r.2 = F) ∧
  FD r.1.2 = FD this.
Proof.
  assert (Hcheck : ∀ this0 : Pass,
    let r := if bool_decide (getName F ∈ FuncNameSet this0)
             then (true, this0, addFnAttr F) else (false, this0, F) in
    isDeclaration F = false →
    (r.1.1 = true ↔ isDeclaration F = false ∧ getName F ∈ FuncNameSet r.1.2) ∧
    r.2 = (if r.1.1 then addFnAttr F else F) ∧
    same_but_attribute F r.2 ∧
    (attr_no_callee_saved_registers F = true → r.2 = F) ∧
    FD r.1.2 = FD this0).
  { intros this0 r HF. subst r. case_bool_decide; simpl.
    - split; [done|]. split; [done|].
      split; [apply same_but_attribute_addFnAttr|].
      split; [apply addFnAttr_attributed|done].
    - split; [naive_solver|]. split; [done|].
      split; [apply same_but_attribute_refl|done]. }
  assert (Hfail :
    let r := (false, this, F) in
    getName F ∉ FuncNameSet this ∨ isDeclaration F = true →
    (r.1.1 = true ↔ isDeclaration F = false ∧ getName F ∈ FuncNameSet r.1.2) ∧
    r.2 = (if r.1.1 then addFnAttr F else F) ∧
    same_but_attribute F r.2 ∧
    (attr_no_callee_saved_registers F = true → r.2 = F) ∧
    FD r.1.2 = FD this).
  { simpl. intros Hor. split; [split; [done|]; intros [? ?]; destruct Hor; congruence|].
    split; [done|]. split; [apply same_but_attribute_refl|done]. }
  unfold LoadPreserveNoneList.
  destruct (isDeclaration F) eqn:HF; [apply Hfail; by right|].
  case_bool_decide as Hempty; [|by apply Hcheck].
  assert (Hnot : getName F ∉ FuncNameSet this) by (rewrite Hempty; set_solver).
  destruct (fs !! path) as [[content|]|]; [|apply Hfail; by left..].
  destruct (read_ok env); [|apply Hfail; by left].
  by apply (Hcheck {| FD := FD this;
                      FuncNameSet := insert_lines (split content) (FuncNameSet this) |}).
Qed.

Lemma LoadPreserveNoneList_reports_witness :
  let this := {| FD := 5; FuncNameSet := {["f"]} |} in
  let r := LoadPreserveNoneList "reg" all_ok (with_attribute "f") this no_files in
  r.1.1 = true ∧ r.2 = with_attribute "f" ∧ FD r.1.2 = 5%Z.
Proof.
  intros this r.
  destruct (LoadPreserveNoneList_reports "reg" all_ok (with_attribute "f")
              this no_files) as (Hiff & _ & _ & Hsame & HFD).
  split; [|split; [by apply Hsame|exact HFD]].
  apply Hiff. split; [reflexivity|].
  apply (LoadPreserveNoneList_grows "reg" all_ok (with_attribute "f") this
           no_files "f"). simpl. set_solver.
Defined.

(** X11. The loader once the Name Set holds a name. From then on the Name
    Set stays as it is, whatever the file holds by then, and a sequence of
    calls gives the attribute to exactly the definitions whose names the
    set holds, returning true for these and false for every other
    function. *)
Theorem load_seq_when_loaded path calls : ∀ this fs,
  FuncNameSet this ≠ ∅ →
  load_seq path calls this fs =
    (listed (FuncNameSet this) <$> calls.*2, this,
     attribute_listed (FuncNameSet this) <$> calls.*2).
Proof.
  induction calls as [|[env F] calls IH]; intros this fs Hne; [done|].
  simpl.
  assert (Hload : LoadPreserveNoneList path env F this fs =
                    (listed (FuncNameSet this) F, this,
                     attribute_listed (FuncNameSet this) F)).
  { unfold LoadPreserveNoneList, attribute_listed, listed.
    destruct (isDeclaration F); [done|].
    rewrite bool_decide_eq_false_2 by done. simpl. by case_bool_decide. }
  rewrite Hload, (IH this fs Hne). done.
Qed.

Lemma load_seq_when_loaded_witness :
  let this := {| FD := 0; FuncNameSet := {["f"]} |} in
  load_seq "reg"
    [(all_ok, local_def "f" []); (all_ok, local_def "g" []);
     (all_ok, declaration "f")] this no_files =
  ([true; false; false], this,
   [addFnAttr (local_def "f" []); local_def "g" []; declaration "f"]).
Proof.
  intros this.
  rewrite (load_seq_when_loaded "reg" _ this no_files).
  - reflexivity.
  - intros Hempty.
    assert (H : "f" ∈ FuncNameSet this) by (unfold this; simpl; set_solver).
    rewrite Hempty in H. by apply not_elem_of_empty in H.
Defined.

(** ** The two modes *)

Lemma runOnFunctions_write W L calls : ∀ this fs,
  W ≠ "-" →
  runOnFunctions W L calls this fs =
    (let '(es, this', fs') := write_seq W calls this fs in
     (es, this', fs', (calls_made calls es).*2)).
Proof.
  induction calls as [|[env F] calls IH]; intros this fs HW; [done|].
  simpl. unfold runOnMachineFunction. rewrite bool_decide_eq_false_2 by done.
  simpl. destruct (WritePreserveNoneList W env F this fs) as [[e this1] fs1].
  destruct e as [b|]; [|done].
  rewrite (IH this1 fs1 HW).
  by destruct (write_seq W calls this1 fs1) as [[es this2] fs2].
Qed.

Lemma runOnFunctions_load L calls : ∀ this fs,
  L ≠ "-" →
  runOnFunctions "-" L calls this fs =
    (let '(bs, this', Fs') := load_seq L calls this fs in
     (Returns <$> bs, this', fs, Fs')).
Proof.
  induction calls as [|[env F] calls IH]; intros this fs HL; [done|].
  assert (HL' : bool_decide (L = "-") = false) by by apply bool_decide_eq_false_2.
  simpl. unfold runOnMachineFunction.
  rewrite ?(bool_decide_eq_true_2 ("-" = "-")) by done. rewrite HL'. simpl.
  destruct (LoadPreserveNoneList L env F this fs) as [[b this1] F1].
  rewrite (IH this1 fs HL).
  by destruct (load_seq L calls this1 fs) as [[bs this2] Fs2].
Qed.

Lemma runOnFunctions_off calls : ∀ this fs,
  runOnFunctions "-" "-" calls this fs =
    ((fun _ => Returns false) <$> calls, this, fs, calls.*2).
Proof.
  induction calls as [|[env F] calls IH]; intros this fs; [done|].
  simpl. unfold runOnMachineFunction.
  rewrite ?(bool_decide_eq_true_2 ("-" = "-")) by done. simpl. by rewrite IH.
Qed.

(** X12. The two modes of the pass. When the write path is set the pass
    only writes: it leaves every function it is called on as it is,
    whether the load path is set or not and whatever a file there holds.
    When only the load path is set every call returns and the pass leaves
    the file system as it is. When neither is set it returns false on
    every function and changes nothing. *)
Theorem runOnFunctions_modes calls this fs :
  (∀ W L, W ≠ "-" →
     (runOnFunctions W L calls this fs).2 =
       (calls_made calls (runOnFunctions W L calls this fs).1.1.1).*2 ∧
     runOnFunctions W L calls this fs = runOnFunctions W "-" calls this fs ∧
     (runOnFunctions W L calls this fs).1.1 =
       (write_seq W calls this fs).1) ∧
  (∀ L, L ≠ "-" →
     (runOnFunctions "-" L calls this fs).1.2 = fs ∧
     (runOnFunctions "-" L calls this fs).1.1.1 =
       Returns <$> (load_seq L calls this fs).1.1 ∧
     (runOnFunctions "-" L calls this fs).1.1.2 =
       (load_seq L calls this fs).1.2 ∧
     (runOnFunctions "-" L calls this fs).2 = (load_seq L calls this fs).2) ∧
  runOnFunctions "-" "-" calls this fs =
    ((fun _ => Returns false) <$> calls, this, fs, calls.*2).
Proof.
  split; [|split; [|apply runOnFunctions_off]].
  - intros W L HW. rewrite !runOnFunctions_write by done.
    by destruct (write_seq W calls this fs) as [[es this'] fs'].
  - intros L HL. rewrite runOnFunctions_load by done.
    by destruct (load_seq L calls this fs) as [[bs this'] Fs'].
Qed.

Lemma runOnFunctions_modes_witness :
  let calls := [(all_ok, local_def "f" [])] in
  let fs : FileSystem := {["in" := Regular ("f" +:+ newline)]} in
  (runOnFunctions "out" "in" calls new_pass fs).2 = [local_def "f" []] ∧
  (runOnFunctions "-" "in" calls new_pass fs).1.2 = fs ∧
  (runOnFunctions "-" "in" calls new_pass fs).2 = [addFnAttr (local_def "f" [])].
Proof.
  intros calls fs.
  destruct (runOnFunctions_modes calls new_pass fs) as (Hw & Hl & _).
  destruct (Hw "out" "in") as (Hsame & _); [done|].
  destruct (Hl "in") as (Hfs & _); [done|].
  split; [etrans; [exact Hsame|reflexivity]|]. split; [exact Hfs|]. reflexivity.
Defined.

(** ** From one process to the next *)

Lemma map_pair_snd {A B : Type} (a : A) (l : list B) : (map (pair a) l).*2 = l.
Proof. induction l as [|x l IH]; [done|]. simpl. f_equal. exact IH. Qed.

Lemma set_map_trim_clean (Names : gset string) :
  (∀ n, n ∈ Names → trim n = n) →
  set_map (D := gset string) trim Names = Names.
Proof.
  intros Hclean. apply set_eq. intros x. rewrite elem_of_map. split.
  - intros (n & -> & Hn). by rewrite Hclean.
  - intros Hx. exists x. by rewrite Hclean.
Qed.

Lemma write_seq_in_step_mixed path env Fs : ∀ this fs,
  env_ok env = true →
  Forall (fun G => isDeclaration G = false → clean_name (getName G) = true) Fs →
  in_step path this fs →
  let r := write_seq path (map (pair env) Fs) this fs in
  length r.1.1 = length Fs ∧
  in_step path r.1.2 r.2 ∧
  FuncNameSet r.1.2 = definition_names Fs ∪ FuncNameSet this.
Proof.
  induction Fs as [|G Fs IH]; intros this fs Hok HFs Hstep; simpl.
  { split; [done|]. split; [done|]. unfold definition_names. simpl. set_solver. }
  apply Forall_cons in HFs as [HG HFs].
  assert (H1 : (∃ b, (WritePreserveNoneList path env G this fs).1.1 = Returns b) ∧
               in_step path (WritePreserveNoneList path env G this fs).1.2
                 (WritePreserveNoneList path env G this fs).2).
  { destruct (isDeclaration G) eqn:Hd.
    - rewrite WritePreserveNoneList_declaration by done. split; [by eexists|done].
    - destruct (WritePreserveNoneList_in_step path env G this fs)
        as (? & ? & _); [done..|by apply clean_name_line_name, HG|done|done]. }
  pose proof (WritePreserveNoneList_set path env G this fs) as Hs.
  destruct (WritePreserveNoneList path env G this fs) as [[e this1] fs1].
  simpl in H1, Hs. destruct H1 as [[b ->] H1].
  destruct (IH this1 fs1 Hok HFs H1) as (Hlen & H2 & Hs2).
  destruct (write_seq path (map (pair env) Fs) this1 fs1) as [[es this2] fs2].
  simpl in *. split; [by rewrite Hlen|]. split; [done|]. rewrite Hs2, Hs.
  unfold definition_names. rewrite filter_cons.
  destruct (isDeclaration G); case_decide; try done; simpl; set_solver.
Qed.

Lemma definition_names_clean Fs :
  Forall (fun G => isDeclaration G = false → clean_name (getName G) = true) Fs →
  ∀ n, n ∈ definition_names Fs → trim n = n.
Proof.
  intros HFs n. unfold definition_names.
  rewrite elem_of_list_to_set, list_elem_of_fmap.
  intros (G & -> & [HG Hin]%list_elem_of_filter).
  rewrite Forall_forall in HFs. by apply trim_clean, HFs.
Qed.

Lemma LoadPreserveNoneList_fresh path env F this fs W :
  read_ok env = true →
  FuncNameSet this = ∅ ∨ FuncNameSet this = W →
  match fs !! path with
  | Some (Regular content) => names_of content = W
  | _ => W = ∅
  end →
  ∃ this', LoadPreserveNoneList path env F this fs =
             (listed W F, this', attribute_listed W F) ∧
           (FuncNameSet this' = ∅ ∨ FuncNameSet this' = W).
Proof.
  intros Hread Hset Hfile. unfold LoadPreserveNoneList, attribute_listed, listed.
  destruct (isDeclaration F); [by exists this|]. simpl.
  case_bool_decide as Hempty.
  - destruct (fs !! path) as [[content|]|].
    + rewrite Hread.
      assert (HW : insert_lines (split content) (FuncNameSet this) = W).
      { rewrite insert_lines_spec, Hempty, <- Hfile. unfold names_of. set_solver. }
      eexists. simpl. rewrite HW. split; [by case_bool_decide|]. simpl. by right.
    + exists this. subst W. rewrite bool_decide_eq_false_2 by set_solver.
      split; [done|by left].
    + exists this. subst W. rewrite bool_decide_eq_false_2 by set_solver.
      split; [done|by left].
  - destruct Hset as [?|HW]; [done|]. exists this. rewrite HW.
    split; [by case_bool_decide|by right].
Qed.

Lemma load_seq_fresh path env Gs W : ∀ this fs,
  read_ok env = true →
  FuncNameSet this = ∅ ∨ FuncNameSet this = W →
  match fs !! path with
  | Some (Regular content) => names_of content = W
  | _ => W = ∅
  end →
  ∃ this', load_seq path (map (pair env) Gs) this fs =
             (listed W <$> Gs, this', attribute_listed W <$> Gs).
Proof.
  induction Gs as [|G Gs IH]; intros this fs Hread Hset Hfile; simpl.
  { by exists this. }
  destruct (LoadPreserveNoneList_fresh path env G this fs W Hread Hset Hfile)
    as (this1 & -> & Hset1).
  destruct (IH this1 fs Hread Hset1 Hfile) as (this2 & ->). by exists this2.
Qed.

(** X13. From the writing process to the loading one. Let one process run
    the pass with the write path set on the functions [Fs], every call
    going through, starting with an empty dedup set and no file or an
    empty one; the names of its definitions are not empty and have no
    newline and no whitespace at either end. It leaves its functions as
    they are. Let then another process run the pass with that path as load
    path on the functions [Gs], starting with an empty Name Set. It leaves
    the file as it is and gives the attribute to exactly the definitions
    among [Gs] that have the name of a definition among [Fs]. *)
Theorem write_then_load path other env Fs Gs writer loader fs :
  path ≠ "-" → env_ok env = true →
  Forall (fun F => isDeclaration F = false → clean_name (getName F) = true) Fs →
  fs !! path = None ∨ fs !! path = Some (Regular "") →
  FuncNameSet writer = ∅ → FuncNameSet loader = ∅ →
  let w := runOnFunctions path other (map (pair env) Fs) writer fs in
  let l := runOnFunctions "-" path (map (pair env) Gs) loader w.1.2 in
  w.2 = Fs ∧ l.1.2 = w.1.2 ∧
  l.1.1.1 = Returns <$> (listed (definition_names Fs) <$> Gs) ∧
  l.2 = attribute_listed (definition_names Fs) <$> Gs.
Proof.
  intros Hpath Hok HFs Hfs Hw Hl w l. subst w l.
  rewrite runOnFunctions_write by done.
  assert (Hstep : in_step path writer fs).
  { unfold in_step. destruct Hfs as [->| ->]; [done|].
    split; [by left|]. by rewrite names_of_empty, Hw, set_map_empty. }
  destruct (write_seq_in_step_mixed path env Fs writer fs Hok HFs Hstep)
    as (Hlen & Hstep' & Hset).
  destruct (write_seq path (map (pair env) Fs) writer fs) as [[es writer'] fs'].
  simpl in Hlen, Hstep', Hset. rewrite Hw, union_empty_r_L in Hset.
  cbn [fst snd]. split.
  { unfold calls_made. rewrite Hlen, <- (length_map (pair env) Fs), firstn_all.
    apply map_pair_snd. }
  rewrite runOnFunctions_load by done.
  assert (Hread : read_ok env = true).
  { unfold env_ok in Hok. by apply andb_prop in Hok as [_ ?]. }
  destruct (load_seq_fresh path env Gs (definition_names Fs) loader fs')
    as (loader' & ->); [done|by left| |by repeat split].
  unfold in_step in Hstep'. rewrite Hset in Hstep'.
  rewrite (set_map_trim_clean _ (definition_names_clean Fs HFs)) in Hstep'.
  destruct (fs' !! path) as [[content|]|]; [|done|].
  - by destruct Hstep' as [_ Hnames].
  - done.
Qed.

Lemma write_then_load_witness :
  let Fs := [local_def "f" []; declaration "h"; local_def "g" []] in
  let Gs := [local_def "g" []; local_def "h" []; declaration "f";
             local_def "f" []] in
  let w := runOnFunctions "reg" "-" (map (pair all_ok) Fs) new_pass no_files in
  let l := runOnFunctions "-" "reg" (map (pair all_ok) Gs) new_pass w.1.2 in
  w.2 = Fs ∧
  l.1.1.1 = [Returns true; Returns false; Returns false; Returns true] ∧
  l.2 = [addFnAttr (local_def "g" []); local_def "h" []; declaration "f";
         addFnAttr (local_def "f" [])].
Proof.
  intros Fs Gs w l.
  destruct (write_then_load "reg" "-" all_ok Fs Gs new_pass new_pass no_files)
    as (HFs & _ & Hbs & HGs);
    [done|reflexivity| |by left|reflexivity..|].
  { repeat constructor; by intros. }
  split; [exact HFs|]. split.
  - etrans; [exact Hbs|]. vm_compute. reflexivity.
  - etrans; [exact HGs|]. vm_compute. reflexivity.
Defined.

(** ** Lines with blanks *)

Lemma blank_spaces s : blank s = true → string_forall is_space s = true.
Proof.
  unfold blank. induction s as [|c s IH]; [done|]. simpl.
  intros [[-> _]%andb_prop Hs]%andb_prop. by rewrite IH.
Qed.

Lemma blank_no_newline s :
  blank s = true → string_forall (fun c => negb (is_newline c)) s = true.
Proof.
  unfold blank. induction s as [|c s IH]; [done|]. simpl.
  intros [[_ ->]%andb_prop Hs]%andb_prop. by rewrite IH.
Qed.

Lemma ltrim_app_spaces pre s :
  string_forall is_space pre = true → ltrim (pre +:+ s) = ltrim s.
Proof.
  induction pre as [|c pre IH]; [done|].
  intros [Hc Hpre]%andb_prop.
  change (ltrim (String c (pre +:+ s)) = ltrim s). simpl. rewrite Hc. by apply IH.
Qed.

Lemma rtrim_spaces post : string_forall is_space post = true → rtrim post = "".
Proof.
  induction post as [|c post IH]; [done|]. simpl.
  intros [Hc Hpost]%andb_prop. by rewrite IH, Hc.
Qed.

Lemma rtrim_app_spaces s post :
  string_forall is_space post = true → rtrim (s +:+ post) = rtrim s.
Proof.
  intros Hpost. induction s as [|c s IH].
  - rewrite append_nil_l. by apply rtrim_spaces.
  - change (rtrim (String c (s +:+ post)) = rtrim (String c s)).
    simpl. by rewrite IH.
Qed.

Lemma trim_padded pre n post :
  blank pre = true → clean_name n = true → blank post = true →
  trim (pre +:+ n +:+ post) = n.
Proof.
  intros Hpre Hn Hpost. unfold trim.
  rewrite ltrim_app_spaces by by apply blank_spaces.
  assert (Hparts : is_space_char (first_char n) = false ∧
                   is_space_char (last_char n) = false ∧ n ≠ "").
  { unfold clean_name in Hn.
    apply andb_prop in Hn as [[[Hne _]%andb_prop Hf%negb_true_iff]%andb_prop
      Hl%negb_true_iff].
    apply negb_true_iff, bool_decide_eq_false in Hne. done. }
  destruct Hparts as (Hf & Hl & Hne).
  rewrite ltrim_id.
  - rewrite rtrim_app_spaces by by apply blank_spaces. by apply rtrim_id.
  - destruct n as [|c n]; [done|]. by rewrite append_cons.
Qed.

Lemma names_of_padded_lines entries :
  Forall (fun entry => entry_ok entry = true) entries →
  names_of (padded_lines entries) = list_to_set entries.*1.*2.
Proof.
  induction entries as [|[[pre n] post] entries IH]; intros Hok.
  { reflexivity. }
  apply Forall_cons in Hok as [Hentry Hok]. unfold entry_ok in Hentry.
  apply andb_prop in Hentry as [[Hpre Hn]%andb_prop Hpost].
  specialize (IH Hok). simpl in Hpre, Hn, Hpost.
  cbn [padded_lines]. rewrite !fmap_cons, list_to_set_cons. cbn [fst snd].
  destruct (clean_name_parts n Hn) as [Hne Hnl].
  assert (Hsplit : split ((pre +:+ n +:+ post) +:+ newline +:+ padded_lines entries)
                   = (pre +:+ n +:+ post) :: split (padded_lines entries)).
  { rewrite split_append_newline, split_one_line; [done|].
    rewrite !string_forall_app, Hnl.
    by rewrite (blank_no_newline pre), (blank_no_newline post). }
  apply set_eq. intros x.
  rewrite names_of_spec, Hsplit, elem_of_union, elem_of_singleton.
  rewrite <- IH, names_of_spec. split.
  - intros (Hx & line & [->|Hin]%elem_of_cons & <-).
    + left. by apply trim_padded.
    + right. by eauto.
  - intros [->|(Hx & line & Hin & <-)].
    + split; [done|]. exists (pre +:+ n +:+ post).
      split; [left|by apply trim_padded].
    + split; [done|]. exists line. split; [by right|done].
Qed.

(** X14. The loader reads names through blanks. From a readable regular
    file in which every line is a name (not empty, without newline and with
    no whitespace at either end) with any spaces, tabs or carriage returns
    before and after it, the first call of the loader on a definition gets
    exactly these names, whatever the blanks are. *)
Theorem loader_reads_padded_lines path env F this fs entries :
  isDeclaration F = false → FuncNameSet this = ∅ → read_ok env = true →
  Forall (fun entry => entry_ok entry = true) entries →
  fs !! path = Some (Regular (padded_lines entries)) →
  FuncNameSet (LoadPreserveNoneList path env F this fs).1.2 =
    list_to_set entries.*1.*2.
Proof.
  intros HF Hempty Hread Hok Hfs.
  rewrite (LoadPreserveNoneList_first_read path env F this fs
             (padded_lines entries)) by done.
  by apply names_of_padded_lines.
Qed.

Lemma loader_reads_padded_lines_witness :
  let entries := [("", "f", String "013" ""); (String "009" " ", "g", "  ")] in
  FuncNameSet
    (LoadPreserveNoneList "reg" all_ok (local_def "x" []) new_pass
       {["reg" := Regular (padded_lines entries)]}).1.2 = {["f"; "g"]}.
Proof.
  intros entries.
  etrans;
    [apply (loader_reads_padded_lines "reg" all_ok (local_def "x" []) new_pass
              _ entries);
       [reflexivity|reflexivity|reflexivity|by repeat constructor|reflexivity]|].
  vm_compute. reflexivity.
Defined.

(** ** A target that is not a regular file *)

(** X15. The writer refuses a target that is not a regular file only while
    [FD] is 0. With [FD] at 0 a call for a definition with a new name
    returns false whatever the operating system would answer, leaves the
    file system and [FD] as they are, and has put the name into the dedup
    set. With any other value in [FD], as after an earlier call or in a
    pass object whose field was never set, the test is skipped and the call
    returns true when the operating system lets it go through. *)
Theorem WritePreserveNoneList_non_regular_target path env F this fs :
  isDeclaration F = false → getName F ∉ FuncNameSet this →
  fs !! path = Some NonRegular →
  let r := WritePreserveNoneList path env F this fs in
  (FD this = 0%Z →
   r = (Returns false,
        {| FD := 0; FuncNameSet := {[getName F]} ∪ FuncNameSet this |}, fs)) ∧
  (FD this ≠ 0%Z → writes_ok env = true → r.1.1 = Returns true).
Proof.
  intros HF Hnew Hfs. unfold_writer.
  rewrite HF, bool_decide_eq_false_2 by done.
  assert (Hex : exists_ fs path = true).
  { unfold exists_. rewrite Hfs. by apply bool_decide_eq_true_2. }
  assert (Hreg : is_regular_file fs path = false).
  { unfold is_regular_file. by rewrite Hfs. }
  rewrite Hex, Hreg. simpl. split.
  - intros HFD. rewrite bool_decide_eq_true_2 by done. simpl. by rewrite HFD.
  - intros HFD Hok. rewrite bool_decide_eq_false_2 by done. simpl.
    destruct (writes_ok_parts env Hok) as (-> & [fd ->] & -> & -> & ->). done.
Qed.

Lemma WritePreserveNoneList_non_regular_target_witness :
  let fs : FileSystem := {["reg" := NonRegular]} in
  let F := local_def "f" [] in
  (WritePreserveNoneList "reg" all_ok F new_pass fs).1.1 = Returns false ∧
  (WritePreserveNoneList "reg" all_ok F new_pass fs).2 = fs ∧
  (WritePreserveNoneList "reg" all_ok F
     {| FD := 7; FuncNameSet := ∅ |} fs).1.1 = Returns true.
Proof.
  intros fs F.
  destruct (WritePreserveNoneList_non_regular_target "reg" all_ok F new_pass fs)
    as [Hzero _]; [reflexivity|set_solver|reflexivity|].
  destruct (WritePreserveNoneList_non_regular_target "reg" all_ok F
              {| FD := 7; FuncNameSet := ∅ |} fs)
    as [_ Hother]; [reflexivity|set_solver|reflexivity|].
  rewrite (Hzero eq_refl). split; [done|]. split; [done|].
  by apply Hother.
Defined.

End more_registry.
